(** * NetworkedStorage: a block store facade with network fallback

    A shallow embedding of [packages/utils/src/utils/networked-storage.ts]:
    the [NetworkedStorage] class (put / get / createSession), the block
    verifier [getCidBlockVerifierFunction] and the retrieval race
    [raceBlockRetrievers].

    Asynchronous code is modelled in two layers.
    - A [Promise] is described by when and how it settles (a tick of the
      event loop and a fulfilment or a rejection) or by the fact that it
      never settles; [Promise_all] and [Promise_any] combine such
      descriptions the way the JavaScript combinators do.
    - The methods of the facade run in a small monad [M] that threads the
      world (the contents of the backing stores and the trace of observable
      events) and stops at the first rejection or at a promise that never
      settles. *)

From Stdlib.Strings Require Import Byte.
From stdpp Require Import gmap strings list.

(** ** Data model *)

Module Data.

(** [Uint8Array] *)
Definition Block := list byte.

#[export] Instance byte_eq_dec : EqDecision byte.
Proof. intros x y. destruct (Byte.eqb x y) eqn:E.
  - left. by apply Byte.byte_dec_bl.
  - right. intros ->. by rewrite (Byte.byte_dec_lb eq_refl) in E.
Defined.

#[export] Instance byte_countable : Countable byte :=
  inj_countable Byte.to_N Byte.of_N Byte.of_to_N.

(** [cid.multihash]: the algorithm code and the digest bytes. *)
Record Multihash := { mh_code : N; mh_digest : list byte }.

Record CID := { version : N; codec : N; multihash : Multihash }.

#[export] Instance Multihash_eq_dec : EqDecision Multihash.
Proof. solve_decision. Defined.

#[export] Instance CID_eq_dec : EqDecision CID.
Proof. solve_decision. Defined.

#[export] Instance CID_countable : Countable CID :=
  inj_countable'
    (λ c, (version c, codec c, mh_code (multihash c), mh_digest (multihash c)))
    (λ '(v, c, h, d), {| version := v; codec := c;
                         multihash := {| mh_code := h; mh_digest := d |} |})
    (λ c, match c with
          | {| multihash := {| mh_code := _ |} |} => eq_refl
          end).

(** [MultihashHasher]: only [digest] is used by the facade. *)
Record MultihashHasher := { digest : Block → list byte }.

(** Failures. [CodeError]s are named by their code; [BrokerError] stands for
    any failure raised by a broker; [AggregateError] is what [Promise.any]
    rejects with. *)
#[warnings="-register-all"]
Inductive Error :=
| ERR_UNKNOWN_HASH_ALG (code : N)
| ERR_HASH_MISMATCH
| ERR_NOT_FOUND
| AbortError
| BrokerError (tag : nat)
| AggregateError (errors : list Error).

End Data.
Export Data.

(** ** Promises

    A promise is described by the tick of the event loop at which it settles
    and the way it settles, or by the fact that it never does. Ticks are
    counted from the call that created the promise. *)

Module Promises.

Inductive Settled (A : Type) :=
| Fulfilled (a : A)
| Rejected (e : Error).
Arguments Fulfilled {A} a.
Arguments Rejected {A} e.

Inductive Promise (A : Type) :=
| Settles (t : nat) (s : Settled A)
| Forever.
Arguments Settles {A} t s.
Arguments Forever {A}.

Definition resolved {A} (a : A) : Promise A := Settles 0 (Fulfilled a).

Section Combinators.
Context {A : Type}.

(** The earliest fulfilment of a list of promises; of two promises that
    fulfil in the same tick the one that comes first in the list wins. *)
Fixpoint first_fulfilled (ps : list (Promise A)) : option (nat * A) :=
  match ps with
  | [] => None
  | Settles t (Fulfilled a) :: ps' =>
      match first_fulfilled ps' with
      | Some (t', a') => if t <=? t' then Some (t, a) else Some (t', a')
      | None => Some (t, a)
      end
  | _ :: ps' => first_fulfilled ps'
  end.

(** The earliest rejection, with the same rule for ties. *)
Fixpoint first_rejected (ps : list (Promise A)) : option (nat * Error) :=
  match ps with
  | [] => None
  | Settles t (Rejected e) :: ps' =>
      match first_rejected ps' with
      | Some (t', e') => if t <=? t' then Some (t, e) else Some (t', e')
      | None => Some (t, e)
      end
  | _ :: ps' => first_rejected ps'
  end.

(** Every promise rejected: the tick of the last rejection and the
    errors, in the order of the promises. *)
Fixpoint all_rejected (ps : list (Promise A)) : option (nat * list Error) :=
  match ps with
  | [] => Some (0, [])
  | Settles t (Rejected e) :: ps' =>
      match all_rejected ps' with
      | Some (t', es) => Some (t `max` t', e :: es)
      | None => None
      end
  | _ :: _ => None
  end.

(** Every promise fulfilled: the tick of the last fulfilment and the
    values, in the order of the promises. *)
Fixpoint all_fulfilled (ps : list (Promise A)) : option (nat * list A) :=
  match ps with
  | [] => Some (0, [])
  | Settles t (Fulfilled a) :: ps' =>
      match all_fulfilled ps' with
      | Some (t', xs) => Some (t `max` t', a :: xs)
      | None => None
      end
  | _ :: _ => None
  end.

(** [Promise.any]: fulfils with the first fulfilment; rejects with an
    [AggregateError] of all the rejections once every promise has
    rejected (at once for the empty list); otherwise stays pending. *)
Definition Promise_any (ps : list (Promise A)) : Promise A :=
  match first_fulfilled ps with
  | Some (t, a) => Settles t (Fulfilled a)
  | None =>
      match all_rejected ps with
      | Some (t, es) => Settles t (Rejected (AggregateError es))
      | None => Forever
      end
  end.

(** [Promise.all]: rejects with the first rejection; fulfils with all the
    values once every promise has fulfilled; otherwise stays pending. *)
Definition Promise_all (ps : list (Promise A)) : Promise (list A) :=
  match first_rejected ps with
  | Some (t, e) => Settles t (Rejected e)
  | None =>
      match all_fulfilled ps with
      | Some (t, xs) => Settles t (Fulfilled xs)
      | None => Forever
      end
  end.
End Combinators.

End Promises.
Export Promises.

(** ** Abort signals *)

Module Signals.

(** An [AbortSignal] is described by the tick at which its [abort] event
    fires, if it ever does. *)
Record AbortSignal := { aborted_at : option nat }.

Definition aborted (s : AbortSignal) (t : nat) : bool :=
  match aborted_at s with
  | Some n => n <=? t
  | None => false
  end.

(** [new AbortController()]. The signal of a controller fires only when
    [abort()] is called on the controller. *)
Record AbortController := { controller_signal : AbortSignal }.

Definition new_AbortController : AbortController :=
  {| controller_signal := {| aborted_at := None |} |}.

(** Modelled from the spec: the combined cancellation signal,
    [anySignal(signals)] of the any-signal package, which is not part of the
    sources. It fires as soon as one of its sources does, for as long as it
    listens to them; [clear()] releases the listeners, after which the state
    of the combined signal no longer changes. Entries that are [undefined]
    are skipped. *)
Record AnySignal := {
  sources : list (option AbortSignal);
  cleared_at : option nat
}.

Definition anySignal (signals : list (option AbortSignal)) : AnySignal :=
  {| sources := signals; cleared_at := None |}.

Definition clear (s : AnySignal) (t : nat) : AnySignal :=
  {| sources := sources s; cleared_at := Some t |}.

Definition any_aborted (s : AnySignal) (t : nat) : bool :=
  let t' := match cleared_at s with Some c => t `min` c | None => t end in
  existsb (λ src, match src with Some sig => aborted sig t' | None => false end)
          (sources s).

End Signals.
Export Signals.

(** ** Block brokers *)

Module Brokers.

(** What a broker does inside one [retrieve(cid, { signal, validateFn })]
    call, as seen from the caller. *)
Inductive Retrieval :=
| Resolve (block : Block)
    (** the returned promise fulfils with [block] *)
| Reject (err : Error)
    (** the returned promise rejects *)
| Validate (block : Block) (k : option Error → Retrieval)
    (** [await options.validateFn(block)]; [k] gets the error it threw, if any *)
| CheckSignal (k : bool → Retrieval)
    (** reads [options.signal.aborted] *)
| Wait (k : Retrieval)
    (** suspends until the next tick of the event loop *)
| Never.
    (** never settles *)

(** [BlockBroker]: every capability is optional. [broker_id] names the
    object in the trace. *)
#[warnings="-register-all"]
Inductive BlockBroker := {
  broker_id : nat;
  retrieve : option (CID → Retrieval);
  announce : option (CID → Block → Promise unit);
  createSession : option (CID → Promise BlockBroker)
}.

(** A broker that can retrieve: [Required<Pick<BlockBroker, 'retrieve'>>]. *)
Record Retriever := {
  retriever_id : nat;
  retriever_retrieve : CID → Retrieval
}.

End Brokers.
Export Brokers.

(** ** The world: backing stores and the trace of observable events *)

Module Worlds.

Inductive Event :=
| EvProgress (name : string) (cid : CID)     (** [options.onProgress] *)
| EvHas (cid : CID)                          (** [this.child.has] *)
| EvGet (cid : CID)                          (** [this.child.get] *)
| EvPut (cid : CID) (block : Block)          (** [this.child.put] *)
| EvRetrieve (broker : nat) (cid : CID)      (** [broker.retrieve] *)
| EvAnnounce (broker : nat) (cid : CID) (block : Block)
                                             (** [broker.announce] *)
| EvCreateSession (broker : nat) (root : CID)
                                             (** [broker.createSession] *)
| EvLogError (cid : CID) (err : Error).      (** [options.log.error] *)

Definition is_announce (ev : Event) : bool :=
  match ev with EvAnnounce _ _ _ => true | _ => false end.

Definition is_put (ev : Event) : bool :=
  match ev with EvPut _ _ => true | _ => false end.

(** An event that is a call of a method of a broker. *)
Definition is_broker_call (ev : Event) : bool :=
  match ev with
  | EvRetrieve _ _ | EvAnnounce _ _ _ | EvCreateSession _ _ => true
  | _ => false
  end.

(** The contents of the persistent block stores, by the address of the
    store object. *)
Abbreviation Stores := (gmap nat (gmap CID Block)).

Record World := {
  stores : Stores;
  trace : list Event
}.

(** How an [await]ed call ends. *)
Inductive Outcome (A : Type) :=
| Returns (a : A)
| Throws (e : Error)
| Hangs.
Arguments Returns {A} a.
Arguments Throws {A} e.
Arguments Hangs {A}.

Definition M (A : Type) : Type := World → Outcome A * World.

#[export] Instance M_ret : MRet M := λ A a w, (Returns a, w).

#[export] Instance M_bind : MBind M := λ A B f m w,
  match m w with
  | (Returns a, w') => f a w'
  | (Throws e, w') => (Throws e, w')
  | (Hangs, w') => (Hangs, w')
  end.

Definition throw {A} (e : Error) : M A := λ w, (Throws e, w).

(** Appending events to the trace. *)
Definition record (w : World) (evs : list Event) : World :=
  {| stores := stores w; trace := trace w ++ evs |}.

Definition emit (evs : list Event) : M unit := λ w, (Returns tt, record w evs).

Definition await {A} (p : Promise A) : M A := λ w,
  match p with
  | Settles _ (Fulfilled a) => (Returns a, w)
  | Settles _ (Rejected e) => (Throws e, w)
  | Forever => (Hangs, w)
  end.

(** [options.onProgress?.(new CustomProgressEvent(name, cid))] *)
Definition onProgress (name : string) (cid : CID) : M unit :=
  emit [EvProgress name cid].

End Worlds.
Export Worlds.

(** ** The Local Tier *)

Module LocalTier.

(** The multihash code of the identity hash. *)
Definition IDENTITY_CODEC : N := 0.

(** Modelled from the spec: the block stores of blockstore-core that the
    facade composes, which are not part of the sources. [BackingStore l] is
    the persistent store object at address [l]; [IdentityBlockstore] serves
    the blocks whose bytes are carried by the CID itself and stores
    nothing; [TieredBlockstore] looks its tiers up in order (the first
    match wins) and writes to every tier. *)
#[warnings="-register-all"]
Inductive Blockstore :=
| IdentityBlockstore
| BackingStore (l : nat)
| TieredBlockstore (tiers : list Blockstore).

Definition contents (σ : Stores) (l : nat) : gmap CID Block :=
  default ∅ (σ !! l).

Fixpoint bs_has (σ : Stores) (s : Blockstore) (cid : CID) : bool :=
  match s with
  | IdentityBlockstore => bool_decide (mh_code (multihash cid) = IDENTITY_CODEC)
  | BackingStore l => bool_decide (is_Some (contents σ l !! cid))
  | TieredBlockstore tiers => existsb (λ s', bs_has σ s' cid) tiers
  end.

Fixpoint bs_get (σ : Stores) (s : Blockstore) (cid : CID) : option Block :=
  match s with
  | IdentityBlockstore =>
      if bool_decide (mh_code (multihash cid) = IDENTITY_CODEC)
      then Some (mh_digest (multihash cid)) else None
  | BackingStore l => contents σ l !! cid
  | TieredBlockstore tiers =>
      (fix first_match (ss : list Blockstore) : option Block :=
         match ss with
         | [] => None
         | s' :: ss' =>
             match bs_get σ s' cid with
             | Some block => Some block
             | None => first_match ss'
             end
         end) tiers
  end.

Fixpoint bs_put (s : Blockstore) (cid : CID) (block : Block) (σ : Stores)
  : Stores :=
  match s with
  | IdentityBlockstore => σ
  | BackingStore l => <[l := <[cid := block]> (contents σ l)]> σ
  | TieredBlockstore tiers =>
      (fix every_tier (ss : list Blockstore) (σ : Stores) : Stores :=
         match ss with
         | [] => σ
         | s' :: ss' => every_tier ss' (bs_put s' cid block σ)
         end) tiers σ
  end.

(** The calls the facade makes on [this.child]. *)
Definition child_has (child : Blockstore) (cid : CID) : M bool := λ w,
  (Returns (bs_has (stores w) child cid), record w [EvHas cid]).

Definition child_get (child : Blockstore) (cid : CID) : M Block := λ w,
  (match bs_get (stores w) child cid with
   | Some block => Returns block
   | None => Throws ERR_NOT_FOUND
   end,
   record w [EvGet cid]).

Definition child_put (child : Blockstore) (cid : CID) (block : Block)
  : M CID := λ w,
  (Returns cid,
   {| stores := bs_put child cid block (stores w);
      trace := trace w ++ [EvPut cid block] |}).

End LocalTier.
Export LocalTier.

(** ** networked-storage.ts *)

Module NetworkedStorage.

(** [GetOfflineOptions & AbortOptions]: the options the claims depend on. *)
Record Options := {
  offline : bool;
  signal : option AbortSignal
}.

Record NetworkedStorageComponents := {
  blockstore : Blockstore;
  blockBrokers : list BlockBroker;
  hashers : gmap N MultihashHasher
}.

Record NetworkedStorageInit := { root : option CID }.

Record NetworkedStorage := {
  child : Blockstore;
  self_hashers : gmap N MultihashHasher;
  started : bool;
  log_root : option CID;
  components : NetworkedStorageComponents
}.

(** The constructor. *)
Definition new_NetworkedStorage (components : NetworkedStorageComponents)
    (init : NetworkedStorageInit) : NetworkedStorage :=
  {| log_root := root init;
     components := components;
     child := TieredBlockstore [IdentityBlockstore; blockstore components];
     self_hashers := hashers components;
     started := false |}.

(** *** The verifier *)

Definition getCidBlockVerifierFunction (cid : CID)
    (hasher : option MultihashHasher) : Error + (Block → Settled unit) :=
  match hasher with
  | None => inl (ERR_UNKNOWN_HASH_ALG (mh_code (multihash cid)))
  | Some hasher =>
      inr (λ block,
        let hash := digest hasher block in
        if bool_decide (hash = mh_digest (multihash cid))
        then Fulfilled tt
        else Rejected ERR_HASH_MISMATCH)
  end.

(** *** The retrieval race *)

(** The loop over [blockBrokers] that keeps the brokers for which
    [isRetrievingBlockBroker] holds. *)
Fixpoint retrievers_of (blockBrokers : list BlockBroker) : list Retriever :=
  match blockBrokers with
  | [] => []
  | broker :: rest =>
      match retrieve broker with
      | Some f =>
          {| retriever_id := broker_id broker; retriever_retrieve := f |}
            :: retrievers_of rest
      | None => retrievers_of rest
      end
  end.

(** One attempt of the race, the body of the function mapped over the
    retrievers: the promise it returns, given what the broker does. [t] is
    the current tick; [blocksWereValidated] is the flag the wrapped
    [validateFn] sets once the inner [validateFn] has returned normally. *)
Fixpoint attempt (validateFn : Block → Settled unit) (signal : AnySignal)
    (t : nat) (blocksWereValidated : bool) (r : Retrieval) : Promise Block :=
  match r with
  | Resolve block =>
      if blocksWereValidated then Settles t (Fulfilled block)
      else
        match validateFn block with
        | Fulfilled _ => Settles t (Fulfilled block)
        | Rejected err => Settles t (Rejected err)
        end
  | Reject err => Settles t (Rejected err)
  | Validate block k =>
      match validateFn block with
      | Fulfilled _ => attempt validateFn signal t true (k None)
      | Rejected err =>
          attempt validateFn signal t blocksWereValidated (k (Some err))
      end
  | CheckSignal k =>
      attempt validateFn signal t blocksWereValidated (k (any_aborted signal t))
  | Wait k => attempt validateFn signal (S t) blocksWereValidated k
  | Never => Forever
  end.

(** The race proper, once [validateFn] has been built. *)
Record Race := {
  race_attempts : list (Promise Block);
  race_result : Promise Block;
  (** the shared signal as the [finally] block leaves it *)
  race_signal : AnySignal
}.

Definition race (cid : CID) (retrievers : list Retriever)
    (validateFn : Block → Settled unit) (options : Options) : Race :=
  let controller := new_AbortController in
  let signal := anySignal [Some (controller_signal controller); signal options] in
  let attempts :=
    map (λ retriever,
           attempt validateFn signal 0 false (retriever_retrieve retriever cid))
        retrievers in
  let result := Promise_any attempts in
  {| race_attempts := attempts;
     race_result := result;
     race_signal :=
       match result with
       | Settles t _ => clear signal t
       | Forever => signal
       end |}.

(** The errors the [catch] blocks of the attempts have logged in tick [t],
    and up to tick [horizon]. *)
Definition logged_in (cid : CID) (attempts : list (Promise Block)) (t : nat)
  : list Event :=
  flat_map (λ p, match p with
                 | Settles t' (Rejected err) =>
                     if t' =? t then [EvLogError cid err] else []
                 | _ => []
                 end) attempts.

Definition logged (cid : CID) (attempts : list (Promise Block)) (horizon : nat)
  : list Event :=
  flat_map (logged_in cid attempts) (seq 0 (S horizon)).

Definition settle_time {A} (p : Promise A) : nat :=
  match p with Settles t _ => t | Forever => 0 end.

Definition raceBlockRetrievers (cid : CID) (blockBrokers : list BlockBroker)
    (hasher : option MultihashHasher) (options : Options) : M Block :=
  match getCidBlockVerifierFunction cid hasher with
  | inl err => throw err
  | inr validateFn =>
      let retrievers := retrievers_of blockBrokers in
      let r := race cid retrievers validateFn options in
      emit (map (λ retriever, EvRetrieve (retriever_id retriever) cid) retrievers) ;;
      emit (logged cid (race_attempts r)
              (match race_result r with
               | Settles t _ => t
               | Forever => foldr max 0 (map settle_time (race_attempts r))
               end)) ;;
      await (race_result r)
  end.

(** *** Announcing a block to the brokers *)

(** [blockBrokers.map(async broker => broker.announce?.(cid, block, options))]:
    every broker that has [announce] is called, in order. *)
Fixpoint announce_calls (blockBrokers : list BlockBroker) (cid : CID)
    (block : Block) : M (list (Promise unit)) :=
  match blockBrokers with
  | [] => mret []
  | broker :: rest =>
      p ← match announce broker with
          | Some f =>
              emit [EvAnnounce (broker_id broker) cid block] ;;
              mret (f cid block)
          | None => mret (resolved tt)
          end ;
      ps ← announce_calls rest cid block ;
      mret (p :: ps)
  end.

(** [await Promise.all(blockBrokers.map(...))] *)
Definition notify (blockBrokers : list BlockBroker) (cid : CID) (block : Block)
  : M unit :=
  promises ← announce_calls blockBrokers cid block ;
  await (Promise_all promises) ;;
  mret tt.

(** *** The facade *)

Definition put (self : NetworkedStorage) (cid : CID) (block : Block) : M CID :=
  has ← child_has (child self) cid ;
  if (has : bool) then
    onProgress "blocks:put:duplicate" cid ;;
    mret cid
  else
    onProgress "blocks:put:providers:notify" cid ;;
    notify (blockBrokers (components self)) cid block ;;
    onProgress "blocks:put:blockstore:put" cid ;;
    child_put (child self) cid block.

Definition get (self : NetworkedStorage) (cid : CID) (options : Options)
  : M Block :=
  missing ← (if offline options then mret false
             else has ← child_has (child self) cid ; mret (negb has)) ;
  if (missing : bool) then
    onProgress "blocks:get:providers:get" cid ;;
    block ← raceBlockRetrievers cid (blockBrokers (components self))
              (self_hashers self !! mh_code (multihash cid)) options ;
    onProgress "blocks:get:blockstore:put" cid ;;
    child_put (child self) cid block ;;
    onProgress "blocks:get:providers:notify" cid ;;
    notify (blockBrokers (components self)) cid block ;;
    mret block
  else
    onProgress "blocks:get:blockstore:get" cid ;;
    child_get (child self) cid.

Definition has (self : NetworkedStorage) (cid : CID) : M bool :=
  child_has (child self) cid.

(** [blockBrokers.map(async broker => ...)] of [createSession]. *)
Fixpoint session_calls (blockBrokers : list BlockBroker) (root : CID)
  : M (list (Promise BlockBroker)) :=
  match blockBrokers with
  | [] => mret []
  | broker :: rest =>
      p ← match createSession broker with
          | None => mret (resolved broker)
          | Some f =>
              emit [EvCreateSession (broker_id broker) root] ;;
              mret (f root)
          end ;
      ps ← session_calls rest root ;
      mret (p :: ps)
  end.

Definition createSession (self : NetworkedStorage) (root : CID)
  : M NetworkedStorage :=
  promises ← session_calls (blockBrokers (components self)) root ;
  blockBrokers ← await (Promise_all promises) ;
  mret (new_NetworkedStorage
          {| blockstore := child self;
             blockBrokers := blockBrokers;
             hashers := self_hashers self |}
          {| root := Some root |}).

End NetworkedStorage.

Import NetworkedStorage.

(** ** Vocabulary of the statements *)

Definition is_fulfilled {A} (p : Promise A) : bool :=
  match p with Settles _ (Fulfilled _) => true | _ => false end.

Definition is_rejected {A} (p : Promise A) : bool :=
  match p with Settles _ (Rejected _) => true | _ => false end.

(** The promises and the trace of one announce fan-out. *)
Definition announce_promises (bs : list BlockBroker) cid block
  : list (Promise unit) :=
  map (λ broker, match announce broker with
                 | Some f => f cid block
                 | None => resolved tt
                 end) bs.

Definition announce_events (bs : list BlockBroker) cid block : list Event :=
  flat_map (λ broker, match announce broker with
                      | Some _ => [EvAnnounce (broker_id broker) cid block]
                      | None => []
                      end) bs.

Definition outcome_of {A} (p : Promise A) : Outcome A :=
  match p with
  | Settles _ (Fulfilled a) => Returns a
  | Settles _ (Rejected e) => Throws e
  | Forever => Hangs
  end.

Definition ignore {A} (o : Outcome A) : Outcome unit :=
  match o with
  | Returns _ => Returns tt
  | Throws e => Throws e
  | Hangs => Hangs
  end.

(** The trace of one race: the retrievers are called in order, then the
    attempts that fail are logged until the race settles. *)
Definition race_events cid (bs : list BlockBroker)
    (validateFn : Block → Settled unit) (options : Options) : list Event :=
  let retrievers := retrievers_of bs in
  let r := race cid retrievers validateFn options in
  map (λ retriever, EvRetrieve (retriever_id retriever) cid) retrievers
  ++ logged cid (race_attempts r)
       (match race_result r with
        | Settles t _ => t
        | Forever => foldr max 0 (map settle_time (race_attempts r))
        end).

(** [block] hashes to the digest of [cid]. *)
Definition verifies (hasher : MultihashHasher) (cid : CID) (block : Block)
  : bool :=
  bool_decide (digest hasher block = mh_digest (multihash cid)).

(** The signal every attempt of a race is given: [anySignal] of the signal
    of the controller of the race and of the signal of the caller. *)
Definition shared_signal (options : Options) : AnySignal :=
  anySignal [Some (controller_signal new_AbortController); signal options].

(** What [retriever.retrieve] gives the engine in one attempt: the promise
    it returns, and the blocks that its calls of the wrapped [validateFn]
    have accepted so far, the latest first. [blocksWereValidated] is set
    exactly when that list is not empty. *)
Fixpoint retrieval (validateFn : Block → Settled unit) (signal : AnySignal)
    (t : nat) (accepted : list Block) (r : Retrieval)
  : Promise Block * list Block :=
  match r with
  | Resolve block => (Settles t (Fulfilled block), accepted)
  | Reject err => (Settles t (Rejected err), accepted)
  | Validate block k =>
      match validateFn block with
      | Fulfilled _ => retrieval validateFn signal t (block :: accepted) (k None)
      | Rejected err => retrieval validateFn signal t accepted (k (Some err))
      end
  | CheckSignal k => retrieval validateFn signal t accepted (k (any_aborted signal t))
  | Wait k => retrieval validateFn signal (S t) accepted k
  | Never => (Forever, accepted)
  end.

(** A broker is honest in an attempt when, once one of its calls of the
    validate callback has succeeded, the block it returns is one of the
    blocks the callback has accepted. *)
Definition honest (run : Promise Block * list Block) : Prop :=
  match run with
  | (Settles _ (Fulfilled block), accepted) => accepted = [] ∨ block ∈ accepted
  | _ => True
  end.

(** A store that keeps what is put into it: it has a persistent store
    among its tiers. *)
Fixpoint retains (s : Blockstore) : bool :=
  match s with
  | IdentityBlockstore => false
  | BackingStore _ => true
  | TieredBlockstore tiers => existsb retains tiers
  end.

(** The events a call has appended to the trace. *)
Definition new_events (w w' : World) : list Event :=
  drop (length (trace w)) (trace w').

(** Every event that satisfies [P] comes before every event that satisfies
    [Q]. *)
Definition all_before (P Q : Event → bool) (evs : list Event) : Prop :=
  ∀ i j x y,
    evs !! i = Some x → evs !! j = Some y → P x = true → Q y = true → i < j.

Definition session_promises bs root : list (Promise BlockBroker) :=
  map (λ broker, match Brokers.createSession broker with
                 | None => resolved broker
                 | Some f => f root
                 end) bs.

Definition session_events bs root : list Event :=
  flat_map (λ broker, match Brokers.createSession broker with
                      | None => []
                      | Some _ => [EvCreateSession (broker_id broker) root]
                      end) bs.

(** The session-scoped replacement of a broker. *)
Definition scoped (root : CID) (broker broker' : BlockBroker) : Prop :=
  match Brokers.createSession broker with
  | None => broker' = broker
  | Some f => ∃ t, f root = Settles t (Fulfilled broker')
  end.

(** Induction on a block store whose tiers satisfy the property. *)
Section BlockstoreInduction.
Variable P : Blockstore → Prop.
Hypothesis Hidentity : P IdentityBlockstore.
Hypothesis Hbacking : ∀ l, P (BackingStore l).
Hypothesis Htiered : ∀ tiers, Forall P tiers → P (TieredBlockstore tiers).

Fixpoint Blockstore_tiers_ind (s : Blockstore) : P s :=
  match s with
  | IdentityBlockstore => Hidentity
  | BackingStore l => Hbacking l
  | TieredBlockstore tiers =>
      Htiered tiers
        ((fix each (ss : list Blockstore) : Forall P ss :=
            match ss with
            | [] => @List.Forall_nil _ P
            | s' :: ss' =>
                @List.Forall_cons _ P s' ss' (Blockstore_tiers_ind s')
                                  (each ss')
            end) tiers)
  end.
End BlockstoreInduction.

(** ** Test vectors *)

Module Fixtures.

(** A stand-in for a registered hash function: the last two bytes of the
    block, reversed. *)
Definition toy_hasher : MultihashHasher :=
  {| digest := λ block, take 2 (rev block) |}.

(** Two blocks with the digest of [cid0] below, and one with another. *)
Definition good : Block := [x01; x02]%byte.
Definition good' : Block := [x09; x01; x02]%byte.
Definition bad : Block := [x03]%byte.

(** A CID whose digest is the one of [good] under [toy_hasher]. *)
Definition cid0 : CID :=
  {| version := 1; codec := 85;
     multihash := {| mh_code := 18; mh_digest := [x02; x01]%byte |} |}.

(** A CID whose multihash code has no hasher in the registry. *)
Definition cid_unknown : CID :=
  {| version := 1; codec := 85;
     multihash := {| mh_code := 27; mh_digest := [x02; x01]%byte |} |}.

Definition w0 : World := {| stores := ∅; trace := [] |}.

Definition storage (bs : list BlockBroker) : NetworkedStorage :=
  new_NetworkedStorage
    {| blockstore := BackingStore 0;
       blockBrokers := bs;
       hashers := {[ 18%N := toy_hasher ]} |}
    {| root := None |}.

(** The validator of [cid0]. *)
Definition validate0 : Block → Settled unit := λ block,
  if bool_decide (digest toy_hasher block = mh_digest (multihash cid0))
  then Fulfilled tt else Rejected ERR_HASH_MISMATCH.

Definition online : Options := {| offline := false; signal := None |}.
Definition offline_only : Options := {| offline := true; signal := None |}.

(** A well-behaved broker call: it takes [n] ticks, gives up when it sees
    the signal aborted, validates the block it has found and returns it. *)
Fixpoint fetch (n : nat) (block : Block) : Retrieval :=
  match n with
  | 0 =>
      Validate block (λ r, match r with
                           | None => Resolve block
                           | Some err => Reject err
                           end)
  | S n' =>
      Wait (CheckSignal (λ aborted,
        if aborted then Reject AbortError else fetch n' block))
  end.

(** A broker call that takes [n] ticks and returns a block without calling
    [validateFn]. *)
Fixpoint careless (n : nat) (block : Block) : Retrieval :=
  match n with
  | 0 => Resolve block
  | S n' => Wait (careless n' block)
  end.

Definition retriever (id : nat) (r : Retrieval) : BlockBroker :=
  {| broker_id := id; retrieve := Some (λ _, r);
     announce := None; Brokers.createSession := None |}.

Definition announcer (id : nat) (p : Promise unit) : BlockBroker :=
  {| broker_id := id; retrieve := None;
     announce := Some (λ _ _, p); Brokers.createSession := None |}.

Definition inert (id : nat) : BlockBroker :=
  {| broker_id := id; retrieve := None; announce := None;
     Brokers.createSession := None |}.

(** A broker call that has [validateFn] accept one block and then returns
    another one. *)
Definition forger (validated returned : Block) : Retrieval :=
  Validate validated (λ _, Resolve returned).

Definition as_retriever (id : nat) (r : Retrieval) : Retriever :=
  {| retriever_id := id; retriever_retrieve := λ _, r |}.

(** A broker that can make session-scoped brokers. *)
Definition session_capable (id : nat) (p : Promise BlockBroker) : BlockBroker :=
  {| broker_id := id; retrieve := None; announce := None;
     Brokers.createSession := Some (λ _, p) |}.

Definition session_components : NetworkedStorageComponents :=
  {| blockstore := BackingStore 0;
     blockBrokers :=
       [retriever 1 (fetch 1 good);
        session_capable 2 (Settles 1 (Fulfilled (retriever 12 (fetch 0 good))))];
     hashers := {[ 18%N := toy_hasher ]} |}.

End Fixtures.

Import Fixtures.

Arguments race : simpl never.
Arguments Promise_any : simpl never.
Arguments Promise_all : simpl never.

(** ** networked-storage.ts: delete and the batch methods *)

Module Batch.

(** The batch methods announce their start with a progress event that
    carries no CID, and [delete] calls [this.child.delete]: the trace of
    these methods has two more kinds of events. *)
Inductive BatchEvent :=
| Ev (ev : Event)                  (** an event of the methods above *)
| EvBatchProgress (name : string)  (** [options.onProgress], without detail *)
| EvDelete (cid : CID).            (** [this.child.delete] *)

Record BWorld := {
  b_stores : Stores;
  b_trace : list BatchEvent
}.

Definition B (A : Type) : Type := BWorld → Outcome A * BWorld.

#[export] Instance B_ret : MRet B := λ A a bw, (Returns a, bw).

#[export] Instance B_bind : MBind B := λ A C f m bw,
  match m bw with
  | (Returns a, bw') => f a bw'
  | (Throws e, bw') => (Throws e, bw')
  | (Hangs, bw') => (Hangs, bw')
  end.

Definition b_record (bw : BWorld) (evs : list BatchEvent) : BWorld :=
  {| b_stores := b_stores bw; b_trace := b_trace bw ++ evs |}.

Definition b_emit (evs : list BatchEvent) : B unit := λ bw,
  (Returns tt, b_record bw evs).

(** A step written for the single-block methods, run inside a batch: it
    works on the same stores and its events are appended to the trace. *)
Definition lift {A} (m : M A) : B A := λ bw,
  let '(r, w) := m {| stores := b_stores bw; trace := [] |} in
  (r, {| b_stores := stores w; b_trace := b_trace bw ++ map Ev (trace w) |}).

(** An [AsyncIterable]: asking for the next item runs some effects and
    gives an item and the rest of the sequence, or the end of it. *)
#[warnings="-register-all"]
Inductive AsyncIterable (A : Type) :=
| Iterable (next : BWorld → Outcome (option (A * AsyncIterable A)) * BWorld).
Arguments Iterable {A} next.

Definition next {A} (it : AsyncIterable A)
  : B (option (A * AsyncIterable A)) :=
  match it with Iterable n => n end.

(** The async iterable that gives the elements of a list, without effects
    of its own. *)
Fixpoint of_list {A} (xs : list A) : AsyncIterable A :=
  Iterable (λ bw,
    (Returns match xs with
             | [] => None
             | x :: rest => Some (x, of_list rest)
             end, bw)).

(** The async iterable that gives the elements of a list and then ends as
    [o] says: normally, by throwing, or never. *)
Fixpoint ending {A} (xs : list A) (o : Outcome unit) : AsyncIterable A :=
  Iterable (λ bw,
    match xs with
    | [] =>
        (match o with
         | Returns _ => Returns None
         | Throws e => Throws e
         | Hangs => Hangs
         end, bw)
    | x :: rest => (Returns (Some (x, ending rest o)), bw)
    end).

(** [for await (const x of source) { yield await fn(x) }] *)
Fixpoint each {A C} (fn : A → B C) (source : AsyncIterable A)
  : AsyncIterable C :=
  match source with
  | Iterable n =>
      Iterable (λ bw,
        match n bw with
        | (Returns (Some (x, rest)), bw1) =>
            match fn x bw1 with
            | (Returns y, bw2) => (Returns (Some (y, each fn rest)), bw2)
            | (Throws e, bw2) => (Throws e, bw2)
            | (Hangs, bw2) => (Hangs, bw2)
            end
        | (Returns None, bw1) => (Returns None, bw1)
        | (Throws e, bw1) => (Throws e, bw1)
        | (Hangs, bw1) => (Hangs, bw1)
        end)
  end.

(** [filter(source, fn)] of it-filter:
    [for await (const x of source) { if (await fn(x)) yield x }] *)
Fixpoint filter (A : Type) (source : AsyncIterable A) (fn : A → B bool)
  : AsyncIterable A :=
  match source with
  | Iterable n =>
      Iterable (λ bw,
        match n bw with
        | (Returns (Some (x, rest)), bw1) =>
            match fn x bw1 with
            | (Returns true, bw2) => (Returns (Some (x, filter A rest fn)), bw2)
            | (Returns false, bw2) => next (filter A rest fn) bw2
            | (Throws e, bw2) => (Throws e, bw2)
            | (Hangs, bw2) => (Hangs, bw2)
            end
        | (Returns None, bw1) => (Returns None, bw1)
        | (Throws e, bw1) => (Throws e, bw1)
        | (Hangs, bw1) => (Hangs, bw1)
        end)
  end.
Arguments filter {A} source fn.

(** [forEach(source, fn)] of it-foreach:
    [for await (const x of source) { await fn(x); yield x }] *)
Definition forEach {A} (source : AsyncIterable A) (fn : A → B unit)
  : AsyncIterable A :=
  each (λ x, fn x ;; mret x) source.

(** The body of an [async *] method that runs [m] and then delegates with
    [yield *]: [m] runs when the first item is asked for. *)
Definition generator {A} (m : B unit) (it : AsyncIterable A)
  : AsyncIterable A :=
  Iterable (λ bw,
    match m bw with
    | (Returns _, bw1) => next it bw1
    | (Throws e, bw1) => (Throws e, bw1)
    | (Hangs, bw1) => (Hangs, bw1)
    end).

(** A consumer that iterates to the end, [for await (const x of it)]: the
    items it has received and how the iteration ended. *)
Fixpoint drain {A} (it : AsyncIterable A) (bw : BWorld)
  : (list A * Outcome unit) * BWorld :=
  match it with
  | Iterable n =>
      match n bw with
      | (Returns (Some (x, rest)), bw1) =>
          let '((xs, o), bw2) := drain rest bw1 in ((x :: xs, o), bw2)
      | (Returns None, bw1) => (([], Returns tt), bw1)
      | (Throws e, bw1) => (([], Throws e), bw1)
      | (Hangs, bw1) => (([], Hangs), bw1)
      end
  end.

(** *** The Local Tier *)

(** Modelled from the spec: [delete] and the batch operations of the block
    stores of blockstore-core, which are not part of the sources. A
    tiered store deletes from every tier and the identity store has nothing
    to delete; the batch operations apply the single operation to each item
    as it is pulled from the source, and yield in the order of the source.
    [delete] accepts the cancellation signal of the caller: when the signal
    has fired, the operation fails with the abort error and leaves the
    stores as they are. *)
Fixpoint bs_delete (s : Blockstore) (cid : CID) (σ : Stores) : Stores :=
  match s with
  | IdentityBlockstore => σ
  | BackingStore l => <[l := delete cid (contents σ l)]> σ
  | TieredBlockstore tiers =>
      (fix every_tier (ss : list Blockstore) (σ : Stores) : Stores :=
         match ss with
         | [] => σ
         | s' :: ss' => every_tier ss' (bs_delete s' cid σ)
         end) tiers σ
  end.

(** [options.signal] has fired when the Local Tier is called. The calls of
    the Local Tier take no time in this model: a signal counts as fired
    when it is aborted at the tick of the call. *)
Definition cancelled (options : Options) : bool :=
  match signal options with
  | Some s => aborted s 0
  | None => false
  end.

Definition child_delete (child : Blockstore) (cid : CID) (options : Options)
  : B unit := λ bw,
  if cancelled options then
    (Throws AbortError, b_record bw [EvDelete cid])
  else
    (Returns tt,
     {| b_stores := bs_delete child cid (b_stores bw);
        b_trace := b_trace bw ++ [EvDelete cid] |}).

Definition child_putMany (child : Blockstore)
    (source : AsyncIterable (CID * Block)) : AsyncIterable CID :=
  each (λ '(cid, block), lift (child_put child cid block)) source.

Definition child_getMany (child : Blockstore) (source : AsyncIterable CID)
  : AsyncIterable (CID * Block) :=
  each (λ cid, block ← lift (child_get child cid) ; mret (cid, block)) source.

Definition child_deleteMany (child : Blockstore) (source : AsyncIterable CID)
    (options : Options) : AsyncIterable CID :=
  each (λ cid, child_delete child cid options ;; mret cid) source.

(** *** The facade *)

Definition putMany (self : NetworkedStorage)
    (blocks : AsyncIterable (CID * Block)) : AsyncIterable CID :=
  let missingBlocks :=
    filter blocks (λ '(cid, _),
      has ← lift (child_has (child self) cid) ;
      (if (has : bool)
       then lift (onProgress "blocks:put-many:duplicate" cid)
       else mret tt) ;;
      mret (negb has)) in
  let notifyEach :=
    forEach missingBlocks (λ '(cid, block),
      lift (onProgress "blocks:put-many:providers:notify" cid) ;;
      lift (notify (blockBrokers (components self)) cid block)) in
  generator (b_emit [EvBatchProgress "blocks:put-many:blockstore:put-many"])
            (child_putMany (child self) notifyEach).

Definition getMany (self : NetworkedStorage) (cids : AsyncIterable CID)
    (options : Options) : AsyncIterable (CID * Block) :=
  generator (b_emit [EvBatchProgress "blocks:get-many:blockstore:get-many"])
    (child_getMany (child self)
       (forEach cids (λ cid,
          missing ← (if offline options then mret false
                     else has ← lift (child_has (child self) cid) ;
                          mret (negb has)) ;
          if (missing : bool) then
            lift (onProgress "blocks:get-many:providers:get" cid) ;;
            block ← lift (raceBlockRetrievers cid
                            (blockBrokers (components self))
                            (self_hashers self !! mh_code (multihash cid))
                            options) ;
            lift (onProgress "blocks:get-many:blockstore:put" cid) ;;
            lift (child_put (child self) cid block) ;;
            lift (onProgress "blocks:get-many:providers:notify" cid) ;;
            lift (notify (blockBrokers (components self)) cid block)
          else mret tt))).

Definition delete (self : NetworkedStorage) (cid : CID) (options : Options)
  : B unit :=
  lift (onProgress "blocks:delete:blockstore:delete" cid) ;;
  child_delete (child self) cid options.

Definition deleteMany (self : NetworkedStorage) (cids : AsyncIterable CID)
    (options : Options) : AsyncIterable CID :=
  generator
    (b_emit [EvBatchProgress "blocks:delete-many:blockstore:delete-many"])
    (child_deleteMany (child self) (each (λ cid, mret cid) cids) options).

End Batch.

(** ** part_000: the DNS resolver of DNSLink records *)

Module Dns.

Inductive DnsEvent :=
| EvDnsProgress (name : string) (detail : string)  (** [options.onProgress] *)
| EvResolveFn (domain : string).                   (** [resolveFn(resolver, domain)] *)

(** The abort listeners registered on [options.signal], and the trace. *)
Record DnsWorld := {
  listeners : nat;
  dns_trace : list DnsEvent
}.

Definition D (A : Type) : Type := DnsWorld → Outcome A * DnsWorld.

(** [options.signal?.addEventListener('abort', listener)] *)
Definition addEventListener (has_signal : bool) (dw : DnsWorld) : DnsWorld :=
  {| listeners := if has_signal then S (listeners dw) else listeners dw;
     dns_trace := dns_trace dw |}.

(** [options.signal?.removeEventListener('abort', listener)] *)
Definition removeEventListener (has_signal : bool) (dw : DnsWorld) : DnsWorld :=
  {| listeners := if has_signal then pred (listeners dw) else listeners dw;
     dns_trace := dns_trace dw |}.

Definition dns_emit (ev : DnsEvent) (dw : DnsWorld) : DnsWorld :=
  {| listeners := listeners dw; dns_trace := dns_trace dw ++ [ev] |}.

(** [resolve(domain, options)]. [resolveFn] stands for what
    [resolveFn(resolver, domain)] of [../utils/dns.js], which is not part of
    the sources, does for each domain; [has_signal] tells whether
    [options.signal] is set. The [finally] block runs when the [try] block
    is left, which a lookup that never settles does not do. *)
Definition resolve (resolveFn : string → Promise string) (domain : string)
    (has_signal : bool) : D string := λ dw,
  let dw1 := addEventListener has_signal dw in
  let dw2 := dns_emit (EvDnsProgress "dnslink:query" domain) dw1 in
  let dw3 := dns_emit (EvResolveFn domain) dw2 in
  match resolveFn domain with
  | Settles _ (Fulfilled dnslinkRecord) =>
      let dw4 := dns_emit (EvDnsProgress "dnslink:answer" dnslinkRecord) dw3 in
      (Returns dnslinkRecord, removeEventListener has_signal dw4)
  | Settles _ (Rejected e) => (Throws e, removeEventListener has_signal dw3)
  | Forever => (Hangs, dw3)
  end.

End Dns.

(** ** More vocabulary *)

(** The addresses of the persistent stores among the tiers of a store. *)
Fixpoint locations (s : Blockstore) : list nat :=
  match s with
  | IdentityBlockstore => []
  | BackingStore l => [l]
  | TieredBlockstore tiers => flat_map locations tiers
  end.

(** The CID an event is about. *)
Definition event_cid (ev : Event) : CID :=
  match ev with
  | EvProgress _ cid | EvHas cid | EvGet cid | EvPut cid _
  | EvRetrieve _ cid | EvAnnounce _ cid _ | EvCreateSession _ cid
  | EvLogError cid _ => cid
  end.

(** The persistent tiers of [s] hold no block under another CID with the
    multihash of [cid]: what [s] answers for [cid] is the same whether or
    not it tells CIDs with one multihash apart. *)
Definition unambiguous (σ : Stores) (s : Blockstore) (cid : CID) : Prop :=
  ∀ l c, l ∈ locations s → is_Some (contents σ l !! c) →
         multihash c = multihash cid → c = cid.

Definition is_retrieve (ev : Event) : bool :=
  match ev with EvRetrieve _ _ => true | _ => false end.

Definition is_progress (ev : Event) : bool :=
  match ev with EvProgress _ _ => true | _ => false end.

Definition not_progress (ev : Event) : bool := negb (is_progress ev).

Definition never_settles {A} (p : Promise A) : bool :=
  match p with Forever => true | _ => false end.

(** A retrieval that never reads [options.signal]. *)
Fixpoint ignores_signal (r : Retrieval) : Prop :=
  match r with
  | Resolve _ | Reject _ | Never => True
  | Validate _ k => ∀ result, ignores_signal (k result)
  | CheckSignal _ => False
  | Wait k => ignores_signal k
  end.

(** A caller that puts the blocks of a list one after the other, and one
    that gets the blocks of a list of CIDs one after the other. *)
Fixpoint put_each (self : NetworkedStorage) (blocks : list (CID * Block))
  : M (list CID) :=
  match blocks with
  | [] => mret []
  | (cid, block) :: rest =>
      c ← put self cid block ;
      cs ← put_each self rest ;
      mret (c :: cs)
  end.

(** The world of a batch and the world of the single-block methods with
    the same stores. *)
Definition batch_world (σ : Stores) : Batch.BWorld :=
  {| Batch.b_stores := σ; Batch.b_trace := [] |}.

Definition single_world (σ : Stores) : World := {| stores := σ; trace := [] |}.

(** The events of the single-block methods in the trace of a batch. *)
Definition single_events (evs : list Batch.BatchEvent) : list Event :=
  flat_map (λ ev, match ev with Batch.Ev e => [e] | _ => [] end) evs.


(** The pairs of a batch whose CID the Local Tier does not hold. *)
Definition missing (σ : Stores) (child : Blockstore)
    (blocks : list (CID * Block)) : list (CID * Block) :=
  List.filter (λ '(cid, _), negb (bs_has σ child cid)) blocks.

(** The pairs a reader finds who looks the CIDs of a list up in turn and
    stops at the first one the store does not hold. *)
Fixpoint stored_prefix (σ : Stores) (s : Blockstore) (cids : list CID)
  : list (CID * Block) :=
  match cids with
  | [] => []
  | cid :: rest =>
      match bs_get σ s cid with
      | Some block => (cid, block) :: stored_prefix σ s rest
      | None => []
      end
  end.

(** The CIDs written to the Local Tier, in the order of the trace. *)
Definition written (evs : list Event) : list CID :=
  flat_map (λ ev, match ev with EvPut cid _ => [cid] | _ => [] end) evs.

(** What a consumer receives from a sequence that makes one step per
    element of a list, a step yielding one item or nothing, and stops at the
    first step that does not return. *)
Fixpoint produce {A C} (step : A → Batch.B (option C)) (xs : list A)
    (bw : Batch.BWorld) : (list C * Outcome unit) * Batch.BWorld :=
  match xs with
  | [] => (([], Returns tt), bw)
  | x :: rest =>
      match step x bw with
      | (Returns (Some y), bw1) =>
          let '((ys, o), bw2) := produce step rest bw1 in ((y :: ys, o), bw2)
      | (Returns None, bw1) => produce step rest bw1
      | (Throws e, bw1) => (([], Throws e), bw1)
      | (Hangs, bw1) => (([], Hangs), bw1)
      end
  end.

(** What [putMany] does for one pair of its input. *)
Definition putMany_step (self : NetworkedStorage) (pair : CID * Block)
  : Batch.B (option CID) := λ bw,
  let '(cid, block) := pair in
  let bs := blockBrokers (components self) in
  if bs_has (Batch.b_stores bw) (child self) cid then
    (Returns None,
     Batch.b_record bw
       [Batch.Ev (EvHas cid);
        Batch.Ev (EvProgress "blocks:put-many:duplicate" cid)])
  else
    let bw1 :=
      Batch.b_record bw
        ([Batch.Ev (EvHas cid);
          Batch.Ev (EvProgress "blocks:put-many:providers:notify" cid)]
         ++ map Batch.Ev (announce_events bs cid block)) in
    match Promise_all (announce_promises bs cid block) with
    | Settles _ (Fulfilled _) =>
        (Returns (Some cid),
         {| Batch.b_stores := bs_put (child self) cid block (Batch.b_stores bw);
            Batch.b_trace :=
              Batch.b_trace bw1 ++ [Batch.Ev (EvPut cid block)] |})
    | Settles _ (Rejected e) => (Throws e, bw1)
    | Forever => (Hangs, bw1)
    end.

(** What [getMany] does for one CID of its input. *)
Definition getMany_step (self : NetworkedStorage) (options : Options)
    (cid : CID) : Batch.B (option (CID * Block)) := λ bw,
  let bs := blockBrokers (components self) in
  let σ := Batch.b_stores bw in
  let read σ' :=
    match bs_get σ' (child self) cid with
    | Some block => Returns (Some (cid, block))
    | None => Throws ERR_NOT_FOUND
    end in
  if offline options then
    (read σ, Batch.b_record bw [Batch.Ev (EvGet cid)])
  else if bs_has σ (child self) cid then
    (read σ, Batch.b_record bw [Batch.Ev (EvHas cid); Batch.Ev (EvGet cid)])
  else
    let bw1 :=
      Batch.b_record bw
        [Batch.Ev (EvHas cid);
         Batch.Ev (EvProgress "blocks:get-many:providers:get" cid)] in
    match getCidBlockVerifierFunction cid
            (self_hashers self !! mh_code (multihash cid)) with
    | inl err => (Throws err, bw1)
    | inr validateFn =>
        let bw2 :=
          Batch.b_record bw1
            (map Batch.Ev (race_events cid bs validateFn options)) in
        match race_result (race cid (retrievers_of bs) validateFn options) with
        | Settles _ (Fulfilled block) =>
            let σ' := bs_put (child self) cid block σ in
            let evs :=
              Batch.b_trace bw2
              ++ [Batch.Ev (EvProgress "blocks:get-many:blockstore:put" cid);
                  Batch.Ev (EvPut cid block);
                  Batch.Ev (EvProgress "blocks:get-many:providers:notify" cid)]
              ++ map Batch.Ev (announce_events bs cid block) in
            match Promise_all (announce_promises bs cid block) with
            | Settles _ (Fulfilled _) =>
                (read σ',
                 {| Batch.b_stores := σ';
                    Batch.b_trace := evs ++ [Batch.Ev (EvGet cid)] |})
            | Settles _ (Rejected e) =>
                (Throws e, {| Batch.b_stores := σ'; Batch.b_trace := evs |})
            | Forever =>
                (Hangs, {| Batch.b_stores := σ'; Batch.b_trace := evs |})
            end
        | Settles _ (Rejected e) => (Throws e, bw2)
        | Forever => (Hangs, bw2)
        end
    end.

(** A caller that resolves the domains of a list one after the other,
    whatever each lookup gives: the world it ends in. *)
Fixpoint resolve_each (resolveFn : string → Promise string)
    (domains : list string) (has_signal : bool) (dw : Dns.DnsWorld)
  : Dns.DnsWorld :=
  match domains with
  | [] => dw
  | domain :: rest =>
      resolve_each resolveFn rest has_signal
        (Dns.resolve resolveFn domain has_signal dw).2
  end.

(** The records announced by ["dnslink:answer"] events. *)
Definition answers (evs : list Dns.DnsEvent) : list string :=
  flat_map (λ ev, match ev with
                  | Dns.EvDnsProgress "dnslink:answer" record => [record]
                  | _ => []
                  end) evs.

(** The records of the lookups that fulfil. *)
Definition records (resolveFn : string → Promise string)
    (domains : list string) : list string :=
  flat_map (λ domain, match resolveFn domain with
                      | Settles _ (Fulfilled record) => [record]
                      | _ => []
                      end) domains.

(** The stages of the batch methods, named. *)
Section Stages.
Import Batch.

(** The two functions [putMany] passes to [filter] and to [forEach]. *)
Definition putMany_has (self : NetworkedStorage) : CID * Block → B bool :=
  λ '(cid, _),
    has ← lift (child_has (child self) cid) ;
    (if (has : bool)
     then lift (onProgress "blocks:put-many:duplicate" cid)
     else mret tt) ;;
    mret (negb has).

Definition putMany_notify (self : NetworkedStorage) : CID * Block → B unit :=
  λ '(cid, block),
    lift (onProgress "blocks:put-many:providers:notify" cid) ;;
    lift (notify (blockBrokers (components self)) cid block).

(** What [putMany] hands to [yield *], for a list of pairs. *)
Definition putMany_pipeline (self : NetworkedStorage)
    (blocks : list (CID * Block)) : AsyncIterable CID :=
  child_putMany (child self)
    (forEach (filter (of_list blocks) (putMany_has self))
       (putMany_notify self)).

(** The function [getMany] passes to [forEach]. *)
Definition getMany_fetch (self : NetworkedStorage) (options : Options)
  : CID → B unit :=
  λ cid,
    missing ← (if offline options then mret false
               else has ← lift (child_has (child self) cid) ;
                    mret (negb has)) ;
    if (missing : bool) then
      lift (onProgress "blocks:get-many:providers:get" cid) ;;
      block ← lift (raceBlockRetrievers cid
                      (blockBrokers (components self))
                      (self_hashers self !! mh_code (multihash cid))
                      options) ;
      lift (onProgress "blocks:get-many:blockstore:put" cid) ;;
      lift (child_put (child self) cid block) ;;
      lift (onProgress "blocks:get-many:providers:notify" cid) ;;
      lift (notify (blockBrokers (components self)) cid block)
    else mret tt.

Definition getMany_pipeline (self : NetworkedStorage) (cids : list CID)
    (options : Options) : AsyncIterable (CID * Block) :=
  child_getMany (child self)
    (forEach (of_list cids) (getMany_fetch self options)).

End Stages.

(** ** What the calls of the facade do to the world *)

Ltac flatten_trace := repeat (simpl; rewrite <- app_assoc); simpl.

Section Effects.

Implicit Types (w : World) (cid : CID) (block : Block).

Lemma record_nil w : record w [] = w.
Proof. destruct w. unfold record. simpl. by rewrite app_nil_r. Qed.

Lemma record_record w evs evs' :
  record (record w evs) evs' = record w (evs ++ evs').
Proof. unfold record. simpl. by rewrite app_assoc. Qed.

Lemma announce_calls_spec bs cid block w :
  announce_calls bs cid block w
  = (Returns (announce_promises bs cid block),
     record w (announce_events bs cid block)).
Proof.
  revert w. induction bs as [|b bs IH]; intros w.
  - simpl. by rewrite record_nil.
  - simpl. unfold mbind, M_bind, mret, M_ret.
    destruct (announce b) as [f|]; simpl; rewrite IH; simpl.
    + by rewrite record_record.
    + done.
Qed.

Lemma notify_spec bs cid block w :
  notify bs cid block w
  = (ignore (outcome_of (Promise_all (announce_promises bs cid block))),
     record w (announce_events bs cid block)).
Proof.
  unfold notify, mbind, M_bind. rewrite announce_calls_spec.
  unfold await. destruct (Promise_all _) as [t [xs|e]|]; done.
Qed.

Lemma raceBlockRetrievers_spec cid bs hasher validateFn options w :
  getCidBlockVerifierFunction cid hasher = inr validateFn →
  raceBlockRetrievers cid bs hasher options w
  = (outcome_of (race_result (race cid (retrievers_of bs) validateFn options)),
     record w (race_events cid bs validateFn options)).
Proof.
  intros Hv. unfold raceBlockRetrievers. rewrite Hv.
  unfold mbind, M_bind, emit, await, race_events. rewrite record_record.
  by destruct (race_result _) as [t [b|e]|].
Qed.

Lemma raceBlockRetrievers_no_hasher cid bs options w :
  raceBlockRetrievers cid bs None options w
  = (Throws (ERR_UNKNOWN_HASH_ALG (mh_code (multihash cid))), w).
Proof. done. Qed.

Lemma put_duplicate self cid block w :
  bs_has (stores w) (child self) cid = true →
  put self cid block w
  = (Returns cid, record w [EvHas cid; EvProgress "blocks:put:duplicate" cid]).
Proof.
  intros Hhas. unfold put, mbind, M_bind, child_has. rewrite Hhas.
  unfold onProgress, emit. by rewrite record_record.
Qed.

Lemma put_missing self cid block w :
  bs_has (stores w) (child self) cid = false →
  put self cid block w
  = let bs := blockBrokers (components self) in
    let w1 := record w ([EvHas cid; EvProgress "blocks:put:providers:notify" cid]
                        ++ announce_events bs cid block) in
    match Promise_all (announce_promises bs cid block) with
    | Settles _ (Fulfilled _) =>
        (Returns cid,
         {| stores := bs_put (child self) cid block (stores w);
            trace := trace w1 ++ [EvProgress "blocks:put:blockstore:put" cid;
                                  EvPut cid block] |})
    | Settles _ (Rejected e) => (Throws e, w1)
    | Forever => (Hangs, w1)
    end.
Proof.
  intros Hhas. unfold put, mbind, M_bind, child_has. rewrite Hhas.
  unfold onProgress, emit. rewrite notify_spec, !record_record.
  destruct (Promise_all _) as [t [xs|e]|]; simpl; try done.
  unfold child_put. simpl. do 2 f_equal. by flatten_trace.
Qed.

(** [get] when it does not go to the network. *)
Lemma get_local self cid options w :
  offline options = true ∨ bs_has (stores w) (child self) cid = true →
  get self cid options w
  = (match bs_get (stores w) (child self) cid with
     | Some block => Returns block
     | None => Throws ERR_NOT_FOUND
     end,
     record w ((if offline options then [] else [EvHas cid])
               ++ [EvProgress "blocks:get:blockstore:get" cid; EvGet cid])).
Proof.
  intros H. unfold get, mbind, M_bind, mret, M_ret, child_has.
  destruct (offline options) eqn:Hoff.
  - unfold onProgress, emit, child_get. simpl. by rewrite record_record.
  - destruct H as [|Hhas]; [done|]. rewrite Hhas. simpl.
    unfold onProgress, emit, child_get. simpl. by rewrite !record_record.
Qed.

(** [get] when the block is fetched from the network. *)
Lemma get_network self cid options w :
  offline options = false →
  bs_has (stores w) (child self) cid = false →
  get self cid options w
  = let bs := blockBrokers (components self) in
    let w1 := record w [EvHas cid; EvProgress "blocks:get:providers:get" cid] in
    match getCidBlockVerifierFunction cid
            (self_hashers self !! mh_code (multihash cid)) with
    | inl err => (Throws err, w1)
    | inr validateFn =>
        let w2 := record w1 (race_events cid bs validateFn options) in
        match race_result (race cid (retrievers_of bs) validateFn options) with
        | Settles _ (Fulfilled block) =>
            (match Promise_all (announce_promises bs cid block) with
             | Settles _ (Fulfilled _) => Returns block
             | Settles _ (Rejected e) => Throws e
             | Forever => Hangs
             end,
             {| stores := bs_put (child self) cid block (stores w);
                trace := trace w2
                  ++ [EvProgress "blocks:get:blockstore:put" cid;
                      EvPut cid block;
                      EvProgress "blocks:get:providers:notify" cid]
                  ++ announce_events bs cid block |})
        | Settles _ (Rejected e) => (Throws e, w2)
        | Forever => (Hangs, w2)
        end
    end.
Proof.
  intros Hoff Hhas. cbv zeta.
  unfold get, mbind, M_bind, mret, M_ret, child_has.
  rewrite Hoff, Hhas. cbn [negb]. unfold onProgress, emit.
  rewrite record_record. cbn [app].
  destruct (getCidBlockVerifierFunction _ _) as [err|validateFn] eqn:Hv.
  - destruct (self_hashers self !! _); [done|].
    rewrite raceBlockRetrievers_no_hasher. simpl in Hv. by inversion Hv.
  - rewrite (raceBlockRetrievers_spec _ _ _ validateFn) by done.
    destruct (race_result _) as [t [block|e]|]; cbn [outcome_of]; try done.
    unfold child_put. rewrite notify_spec. unfold record. cbn [stores trace].
    destruct (Promise_all _) as [t' [xs|e]|]; cbn [outcome_of ignore];
      do 2 f_equal; by flatten_trace.
Qed.

End Effects.

(** ** Two runs of the facade *)

Example put_then_get :
  let self := storage [retriever 1 (fetch 2 good); announcer 2 (resolved tt)] in
  let '(r1, w1) := put self cid0 good w0 in
  let '(r2, w2) := get self cid0 online w1 in
  r1 = Returns cid0 ∧ r2 = Returns good
  ∧ trace w2 = [EvHas cid0;
                EvProgress "blocks:put:providers:notify" cid0;
                EvAnnounce 2 cid0 good;
                EvProgress "blocks:put:blockstore:put" cid0;
                EvPut cid0 good;
                EvHas cid0;
                EvProgress "blocks:get:blockstore:get" cid0;
                EvGet cid0].
Proof. vm_compute. done. Qed.

Example get_from_network :
  let self := storage [retriever 1 (fetch 2 good); announcer 2 (resolved tt);
                       retriever 3 (careless 1 bad)] in
  let '(r, w) := get self cid0 online w0 in
  r = Returns good
  ∧ trace w = [EvHas cid0;
               EvProgress "blocks:get:providers:get" cid0;
               EvRetrieve 1 cid0;
               EvRetrieve 3 cid0;
               EvLogError cid0 ERR_HASH_MISMATCH;
               EvProgress "blocks:get:blockstore:put" cid0;
               EvPut cid0 good;
               EvProgress "blocks:get:providers:notify" cid0;
               EvAnnounce 2 cid0 good]
  ∧ bs_get (stores w) (child self) cid0 = Some good.
Proof. vm_compute. done. Qed.

(** ** Facts about the promise combinators *)

Section PromiseFacts.
Context {A : Type}.
Implicit Types (ps : list (Promise A)) (p : Promise A).

Lemma first_fulfilled_elem ps t a :
  first_fulfilled ps = Some (t, a) → Settles t (Fulfilled a) ∈ ps.
Proof.
  revert t a. induction ps as [|p ps IH]; intros t a; [done|].
  simpl. destruct p as [u [b|e]|]; rewrite elem_of_cons; eauto.
  destruct (first_fulfilled ps) as [[t' a']|].
  - case_match; intros [= <- <-]; eauto.
  - intros [= <- <-]; eauto.
Qed.

Lemma first_fulfilled_None ps :
  first_fulfilled ps = None ↔ forallb (λ p, negb (is_fulfilled p)) ps = true.
Proof.
  induction ps as [|p ps IH]; [done|]. simpl.
  destruct p as [u [b|e]|]; simpl; try done.
  destruct (first_fulfilled ps) as [[t' a']|]; [case_match|]; done.
Qed.

Lemma first_rejected_elem ps t e :
  first_rejected ps = Some (t, e) → Settles t (Rejected e) ∈ ps.
Proof.
  revert t e. induction ps as [|p ps IH]; intros t e; [done|].
  simpl. destruct p as [u [b|e']|]; rewrite elem_of_cons; eauto.
  destruct (first_rejected ps) as [[t' a']|].
  - case_match; intros [= <- <-]; eauto.
  - intros [= <- <-]; eauto.
Qed.

Lemma first_rejected_None ps :
  first_rejected ps = None ↔ forallb (λ p, negb (is_rejected p)) ps = true.
Proof.
  induction ps as [|p ps IH]; [done|]. simpl.
  destruct p as [u [b|e]|]; simpl; try done.
  destruct (first_rejected ps) as [[t' a']|]; [case_match|]; done.
Qed.

Lemma all_fulfilled_Some ps :
  is_Some (all_fulfilled ps) ↔ forallb is_fulfilled ps = true.
Proof.
  induction ps as [|p ps IH]; simpl; [by eauto|].
  destruct p as [u [b|e]|]; simpl; try by rewrite <- not_eq_None_Some.
  rewrite <- IH. destruct (all_fulfilled ps) as [[t' xs]|]; [by eauto|].
  by rewrite <- !not_eq_None_Some.
Qed.

Lemma all_rejected_Some ps :
  is_Some (all_rejected ps) ↔ forallb is_rejected ps = true.
Proof.
  induction ps as [|p ps IH]; simpl; [by eauto|].
  destruct p as [u [b|e]|]; simpl; try by rewrite <- not_eq_None_Some.
  rewrite <- IH. destruct (all_rejected ps) as [[t' xs]|]; [by eauto|].
  by rewrite <- !not_eq_None_Some.
Qed.

(** The errors of a list of promises that have all rejected. *)
Lemma all_rejected_errors ps es :
  Forall2 (λ p e, ∃ t, p = Settles t (Rejected e)) ps es →
  ∃ t, all_rejected ps = Some (t, es).
Proof.
  induction 1 as [|p e ps es [t ->] _ [t' IH]]; simpl; [by eauto|].
  rewrite IH. eauto.
Qed.

Lemma forallb_rejected_not_fulfilled ps :
  forallb is_rejected ps = true →
  forallb (λ p, negb (is_fulfilled p)) ps = true.
Proof.
  induction ps as [|[u [b|e]|] ps IH]; simpl; try done.
Qed.

(** [Promise.all] fulfils exactly when every promise fulfils. *)
Lemma Promise_all_fulfilled ps :
  is_fulfilled (Promise_all ps) = forallb is_fulfilled ps.
Proof.
  unfold Promise_all. destruct (first_rejected ps) as [[t e]|] eqn:Hr.
  - apply first_rejected_elem in Hr. simpl. symmetry.
    apply not_true_is_false. rewrite forallb_forall. intros Hall.
    apply list_elem_of_In, Hall in Hr. done.
  - destruct (all_fulfilled ps) as [[t xs]|] eqn:Hf; simpl; symmetry.
    + apply all_fulfilled_Some. by eauto.
    + apply not_true_is_false. rewrite <- all_fulfilled_Some, Hf.
      by intros [? ?].
Qed.

(** [Promise.all] rejects, with one of the rejections, as soon as one
    promise rejects. *)
Lemma Promise_all_rejected ps :
  existsb is_rejected ps = true →
  ∃ t e, Promise_all ps = Settles t (Rejected e)
         ∧ Settles t (Rejected e) ∈ ps.
Proof.
  intros Hex. unfold Promise_all.
  destruct (first_rejected ps) as [[t e]|] eqn:Hr.
  - exists t, e. split; [done|]. by apply first_rejected_elem.
  - apply first_rejected_None in Hr. exfalso.
    apply existsb_exists in Hex as (p & Hin & Hp).
    rewrite forallb_forall in Hr. apply Hr in Hin. by rewrite Hp in Hin.
Qed.

(** [Promise.any] fulfils only with the fulfilment of one of its
    promises. *)
Lemma Promise_any_fulfilled ps t a :
  Promise_any ps = Settles t (Fulfilled a) → Settles t (Fulfilled a) ∈ ps.
Proof.
  unfold Promise_any. destruct (first_fulfilled ps) as [[t' a']|] eqn:Hf.
  - intros [= <- <-]. by apply first_fulfilled_elem.
  - by destruct (all_rejected ps) as [[? ?]|].
Qed.

(** [Promise.any] of promises that have all rejected. *)
Lemma Promise_any_all_rejected ps es :
  Forall2 (λ p e, ∃ t, p = Settles t (Rejected e)) ps es →
  ∃ t, Promise_any ps = Settles t (Rejected (AggregateError es)).
Proof.
  intros Hall. unfold Promise_any.
  destruct (all_rejected_errors _ _ Hall) as [t Hr].
  assert (first_fulfilled ps = None) as ->.
  { apply first_fulfilled_None, forallb_rejected_not_fulfilled.
    apply all_rejected_Some. by eauto. }
  rewrite Hr. eauto.
Qed.

(** [Promise.any] fulfils with the earliest fulfilment, and only so. *)
Lemma Promise_any_fulfilled_iff ps t a :
  Promise_any ps = Settles t (Fulfilled a) ↔ first_fulfilled ps = Some (t, a).
Proof.
  unfold Promise_any. destruct (first_fulfilled ps) as [[t' a']|].
  - split; by intros [= <- <-].
  - by destruct (all_rejected ps) as [[? ?]|].
Qed.

(** A promise that does not fulfil has no part in the earliest
    fulfilment. *)
Lemma first_fulfilled_skip ps p qs :
  is_fulfilled p = false →
  first_fulfilled (ps ++ p :: qs) = first_fulfilled (ps ++ qs).
Proof.
  intros Hp. induction ps as [|q ps IH]; simpl.
  - by destruct p as [u [b|e]|].
  - by rewrite IH.
Qed.

Lemma first_fulfilled_only ps t a qs :
  Forall (λ p, is_fulfilled p = false) (ps ++ qs) →
  first_fulfilled (ps ++ Settles t (Fulfilled a) :: qs) = Some (t, a).
Proof.
  induction ps as [|q ps IH]; simpl; intros Hall.
  - assert (first_fulfilled qs = None) as ->; [|done].
    apply first_fulfilled_None, forallb_forall. intros p Hin.
    apply list_elem_of_In in Hin. eapply Forall_forall in Hall; [|done].
    by rewrite Hall.
  - apply Forall_cons in Hall as [Hq Hall]. rewrite (IH Hall).
    by destruct q as [u [b|e]|].
Qed.

Lemma Promise_any_nil :
  Promise_any (@nil (Promise A)) = Settles 0 (Rejected (AggregateError [])).
Proof. done. Qed.
End PromiseFacts.

(** ** Announce failures *)

Section AnnounceFailures.

Lemma announce_promises_rejected bs broker f cid block t e :
  broker ∈ bs → announce broker = Some f →
  f cid block = Settles t (Rejected e) →
  existsb is_rejected (announce_promises bs cid block) = true.
Proof.
  intros Hin Hf He. apply existsb_exists.
  exists (Settles t (Rejected e)). split; [|done].
  unfold announce_promises. apply in_map_iff.
  exists broker. rewrite Hf. split; [done|]. by apply list_elem_of_In.
Qed.

Lemma put_escalates self cid block w :
  bs_has (stores w) (child self) cid = false →
  existsb is_rejected
    (announce_promises (blockBrokers (components self)) cid block) = true →
  ∃ t e w',
    Settles t (Rejected e)
      ∈ announce_promises (blockBrokers (components self)) cid block
    ∧ put self cid block w = (Throws e, w')
    ∧ stores w' = stores w.
Proof.
  intros Hhas Hrej. rewrite put_missing by done. cbv zeta.
  destruct (Promise_all_rejected _ Hrej) as (t & e & -> & Hin).
  exists t, e. eexists. by split_and!.
Qed.

Lemma get_escalates self cid options validateFn t0 block w :
  offline options = false →
  bs_has (stores w) (child self) cid = false →
  getCidBlockVerifierFunction cid
    (self_hashers self !! mh_code (multihash cid)) = inr validateFn →
  race_result (race cid (retrievers_of (blockBrokers (components self)))
                 validateFn options) = Settles t0 (Fulfilled block) →
  existsb is_rejected
    (announce_promises (blockBrokers (components self)) cid block) = true →
  ∃ t e w',
    Settles t (Rejected e)
      ∈ announce_promises (blockBrokers (components self)) cid block
    ∧ get self cid options w = (Throws e, w')
    ∧ stores w' = bs_put (child self) cid block (stores w).
Proof.
  intros Hoff Hhas Hv Hrace Hrej. rewrite get_network by done. cbv zeta.
  rewrite Hv, Hrace.
  destruct (Promise_all_rejected _ Hrej) as (t & e & -> & Hin).
  exists t, e. eexists. by split_and!.
Qed.

(** C1, the claim as stated, fails: one broker whose [announce] rejects makes
    [put] reject with that failure, and likewise the [get] that has just
    fetched the block from the network. *)
Lemma announce_failure_counterexample :
  let failing := announcer 2 (Settles 1 (Rejected (BrokerError 1))) in
  fst (put (storage [failing]) cid0 good w0) = Throws (BrokerError 1)
  ∧ fst (get (storage [retriever 1 (fetch 0 good); failing]) cid0 online w0)
    = Throws (BrokerError 1).
Proof. vm_compute. done. Qed.

(** C1 (amended): a rejection of a broker's [announce] is escalated. A [put]
    of a block the Local Tier does not hold rejects with the failure of one
    of the announce calls and leaves the stores as they were; a [get] that
    has fetched the block from the network rejects in the same way, after
    it has written the block to the Local Tier. *)
Theorem announce_failure_is_escalated self cid w broker f :
  bs_has (stores w) (child self) cid = false →
  broker ∈ blockBrokers (components self) →
  announce broker = Some f →
  (∀ block t e,
     f cid block = Settles t (Rejected e) →
     ∃ t' e' w',
       Settles t' (Rejected e')
         ∈ announce_promises (blockBrokers (components self)) cid block
       ∧ put self cid block w = (Throws e', w')
       ∧ stores w' = stores w)
  ∧ (∀ options validateFn t0 block t e,
       offline options = false →
       getCidBlockVerifierFunction cid
         (self_hashers self !! mh_code (multihash cid)) = inr validateFn →
       race_result (race cid (retrievers_of (blockBrokers (components self)))
                      validateFn options) = Settles t0 (Fulfilled block) →
       f cid block = Settles t (Rejected e) →
       ∃ t' e' w',
         Settles t' (Rejected e')
           ∈ announce_promises (blockBrokers (components self)) cid block
         ∧ get self cid options w = (Throws e', w')
         ∧ stores w' = bs_put (child self) cid block (stores w)).
Proof.
  intros Hhas Hin Hf. split.
  - intros block t e He. apply put_escalates; [done|].
    by eapply announce_promises_rejected.
  - intros options validateFn t0 block t e Hoff Hv Hrace He.
    eapply get_escalates; [done..|].
    by eapply announce_promises_rejected.
Qed.

Lemma announce_failure_is_escalated_witness :
  let failing := announcer 2 (Settles 1 (Rejected (BrokerError 1))) in
  let self := storage [retriever 1 (fetch 0 good); failing] in
  (∃ t' e' w',
     Settles t' (Rejected e')
       ∈ announce_promises (blockBrokers (components self)) cid0 good
     ∧ put self cid0 good w0 = (Throws e', w')
     ∧ stores w' = stores w0)
  ∧ (∃ t' e' w',
       Settles t' (Rejected e')
         ∈ announce_promises (blockBrokers (components self)) cid0 good
       ∧ get self cid0 online w0 = (Throws e', w')
       ∧ stores w' = bs_put (child self) cid0 good (stores w0)).
Proof.
  intros failing self.
  destruct (announce_failure_is_escalated self cid0 w0 failing (λ _ _, Settles 1 (Rejected (BrokerError 1))))
    as [Hput Hget].
  - reflexivity.
  - right. left.
  - reflexivity.
  - split.
    + apply (Hput good 1 (BrokerError 1)). reflexivity.
    + apply (Hget online
               validate0
               0 good 1 (BrokerError 1)); reflexivity.
Defined.

End AnnounceFailures.

(** ** The retrieval race *)

Section RaceFacts.

Implicit Types (cid : CID) (r : Retrieval) (validateFn : Block → Settled unit).

(** *** The shared signal *)

Lemma any_aborted_sources s t :
  any_aborted s t = true →
  ∃ src t', Some src ∈ sources s ∧ aborted src t' = true.
Proof.
  unfold any_aborted. intros H. apply existsb_exists in H as ([src|] & Hin & H);
    [|done].
  apply list_elem_of_In in Hin. eauto.
Qed.

(** The shared signal of a race fires only if the signal of the caller
    does: nothing aborts the controller the race creates. *)
Lemma race_signal_aborted cid retrievers validateFn options t :
  any_aborted (race_signal (race cid retrievers validateFn options)) t = true →
  ∃ s t', signal options = Some s ∧ aborted s t' = true.
Proof.
  intros H. apply any_aborted_sources in H as (src & t' & Hin & H).
  exists src, t'. split; [|done].
  assert (sources (race_signal (race cid retrievers validateFn options))
          = [Some (controller_signal new_AbortController); signal options])
    as Hsrc.
  { unfold race. simpl. by destruct (Promise_any _). }
  rewrite Hsrc in Hin.
  apply elem_of_cons in Hin as [[= ->]|Hin]; [done|].
  by apply list_elem_of_singleton in Hin.
Qed.

Lemma race_signal_never_aborted cid retrievers validateFn options t :
  signal options = None →
  any_aborted (race_signal (race cid retrievers validateFn options)) t = false.
Proof.
  intros Hnone. apply not_true_is_false. intros H.
  apply race_signal_aborted in H as (s & t' & Hs & _). congruence.
Qed.

(** *** Attempts *)

(** An attempt does not settle before it starts. *)
Lemma attempt_settles_later validateFn sig r t0 v t s :
  attempt validateFn sig t0 v r = Settles t s → t0 ≤ t.
Proof.
  revert t0 v. induction r as [block|err|block k IH|k IH|k IH|];
    intros t0 v; simpl.
  - destruct v; [|destruct (validateFn block)]; intros [= <- _]; lia.
  - intros [= <- _]; lia.
  - destruct (validateFn block); apply IH.
  - apply IH.
  - intros H. apply IH in H. lia.
  - done.
Qed.

(** Up to the tick at which the race settles, an attempt behaves the same
    whether or not [clear()] has been called at that tick. *)
Lemma attempt_clear validateFn sig r t0 v t s T :
  cleared_at sig = None →
  attempt validateFn sig t0 v r = Settles t s → t ≤ T →
  attempt validateFn (clear sig T) t0 v r = Settles t s.
Proof.
  intros Hsig. revert t0 v.
  induction r as [block|err|block k IH|k IH|k IH|]; intros t0 v; simpl;
    try done.
  - destruct (validateFn block); apply IH.
  - intros H Hle. pose proof (attempt_settles_later _ _ _ _ _ _ _ H).
    assert (any_aborted (clear sig T) t0 = any_aborted sig t0) as ->.
    { unfold any_aborted. rewrite Hsig. simpl. by rewrite Nat.min_l by lia. }
    by apply IH.
  - apply IH.
Qed.

(** A broker that returns a block without having called [validateFn]: the
    engine validates the block itself. *)
Lemma attempt_careless validateFn sig t n block :
  attempt validateFn sig t false (careless n block)
  = match validateFn block with
    | Fulfilled _ => Settles (t + n) (Fulfilled block)
    | Rejected err => Settles (t + n) (Rejected err)
    end.
Proof.
  revert t. induction n as [|n IH]; intros t; simpl.
  - rewrite Nat.add_0_r. by destruct (validateFn block).
  - rewrite IH. by replace (S t + n) with (t + S n) by lia.
Qed.

(** A well-behaved broker that is not cancelled. *)
Lemma attempt_fetch validateFn sig t v n block :
  (∀ t', any_aborted sig t' = false) →
  validateFn block = Fulfilled tt →
  attempt validateFn sig t v (fetch n block) = Settles (t + n) (Fulfilled block).
Proof.
  intros Hsig Hok. revert t v. induction n as [|n IH]; intros t v; simpl.
  - rewrite Hok. simpl. by rewrite Nat.add_0_r.
  - rewrite Hsig, IH. by replace (S t + n) with (t + S n) by lia.
Qed.

End RaceFacts.

(** ** Verification of the blocks the race resolves with *)

Section Verification.

Lemma verifier_spec cid hasher :
  getCidBlockVerifierFunction cid (Some hasher)
  = inr (λ block, if verifies hasher cid block
                  then Fulfilled tt else Rejected ERR_HASH_MISMATCH).
Proof. done. Qed.

(** Property 1 of the verifier: it accepts exactly the blocks that hash to
    the digest of the CID. *)
Lemma verifier_accepts cid hasher validateFn block :
  getCidBlockVerifierFunction cid (Some hasher) = inr validateFn →
  validateFn block
  = if verifies hasher cid block then Fulfilled tt
    else Rejected ERR_HASH_MISMATCH.
Proof. rewrite verifier_spec. by intros [= <-]. Qed.

(** The attempts of a race are run with the shared signal. *)
Lemma race_attempts_spec cid retrievers validateFn options :
  race_attempts (race cid retrievers validateFn options)
  = map (λ retriever,
           attempt validateFn (shared_signal options) 0 false
                   (retriever_retrieve retriever cid))
        retrievers.
Proof. done. Qed.

(** An attempt is what the broker returns, checked by the engine unless a
    call of the callback has succeeded. *)
Lemma attempt_retrieval (validateFn : Block → Settled unit) sig r :
  ∀ t accepted,
    attempt validateFn sig t (negb (bool_decide (accepted = []))) r
    = match retrieval validateFn sig t accepted r with
      | (Settles t' (Fulfilled block), []) =>
          match validateFn block with
          | Fulfilled _ => Settles t' (Fulfilled block)
          | Rejected err => Settles t' (Rejected err)
          end
      | (outcome, _) => outcome
      end.
Proof.
  induction r as [b|err|b k IH|k IH|k IH|]; intros t accepted; simpl.
  - by destruct accepted.
  - by destruct accepted.
  - destruct (validateFn b).
    + by rewrite <- (IH None t (b :: accepted)).
    + apply IH.
  - apply IH.
  - apply IH.
  - by destruct accepted.
Qed.

(** The blocks the callback has accepted pass the validator. *)
Lemma retrieval_accepted (validateFn : Block → Settled unit) sig r :
  ∀ t accepted,
    Forall (λ b, validateFn b = Fulfilled tt) accepted →
    Forall (λ b, validateFn b = Fulfilled tt)
           (retrieval validateFn sig t accepted r).2.
Proof.
  induction r as [b|err|b k IH|k IH|k IH|]; intros t accepted Hall; simpl;
    try done; try by apply IH.
  destruct (validateFn b) as [[]|e] eqn:Hb; apply IH; [|done].
  by constructor.
Qed.

(** The block of an attempt of an honest broker that fulfils has been
    accepted by the validator. *)
Lemma attempt_verified (validateFn : Block → Settled unit) sig r t block :
  honest (retrieval validateFn sig 0 [] r) →
  attempt validateFn sig 0 false r = Settles t (Fulfilled block) →
  validateFn block = Fulfilled tt.
Proof.
  intros Hhonest.
  change false with (negb (bool_decide (@nil Block = []))).
  rewrite attempt_retrieval.
  pose proof (retrieval_accepted validateFn sig r 0 [] (Forall_nil_2 _)) as Hall.
  destruct (retrieval validateFn sig 0 [] r) as [[t' [b|e]|] accepted];
    cbn [snd] in Hall; simpl in Hhonest.
  - destruct accepted as [|b' accepted].
    + destruct (validateFn b) as [[]|e] eqn:Hb; [|done]. by intros [= _ <-].
    + intros [= _ <-]. destruct Hhonest as [|Hin]; [done|].
      by eapply Forall_forall in Hall.
  - by destruct accepted.
  - by destruct accepted.
Qed.

(** Every block a race between honest brokers resolves with has been
    accepted by the validator. *)
Lemma race_verified cid retrievers validateFn options t block :
  Forall (λ retriever,
            honest (retrieval validateFn (shared_signal options) 0 []
                              (retriever_retrieve retriever cid)))
         retrievers →
  race_result (race cid retrievers validateFn options)
  = Settles t (Fulfilled block) →
  validateFn block = Fulfilled tt.
Proof.
  intros Hhonest Hrace. apply Promise_any_fulfilled in Hrace.
  apply list_elem_of_In, in_map_iff in Hrace as (retriever & Hatt & Hin).
  eapply attempt_verified; [|exact Hatt].
  by eapply Forall_forall in Hhonest; [|apply list_elem_of_In].
Qed.

(** A broker that has the callback accept one block and reject another,
    and then returns the rejected one, is not honest; the engine takes its
    attempt as it is. *)
Example returning_a_rejected_block_is_not_honest :
  let r := Validate good (λ _, Validate bad (λ _, Resolve bad)) in
  retrieval validate0 (shared_signal online) 0 [] r
  = (Settles 0 (Fulfilled bad), [good])
  ∧ ¬ honest (retrieval validate0 (shared_signal online) 0 [] r)
  ∧ attempt validate0 (shared_signal online) 0 false r
    = Settles 0 (Fulfilled bad).
Proof.
  intros r. split_and!; [done| |done]. cbn.
  intros [?|Hin]; [done|]. by apply list_elem_of_singleton in Hin.
Qed.

End Verification.

(** ** Claims about the race *)

Section RaceClaims.

(** C2 (the code at the failing input): broker 1 would resolve at tick 3 and
    broker 2 resolves at tick 1, both with a block of the right digest. The
    race, and the [get] around it, resolve with the block of broker 2 at
    tick 1. The shared signal is not aborted then or at any later tick, so
    the attempt of broker 1, which gives up as soon as it sees the signal
    aborted, is not cancelled: under the signal as the race leaves it, it
    runs on to tick 3 and resolves. The doc comment of [raceBlockRetrievers]
    promises that pending requests are cancelled once the block has been
    found, and the function creates an [AbortController] for it, but never
    calls [abort()] on it. *)
Theorem losing_attempt_is_not_cancelled :
  let r := race cid0 [as_retriever 1 (fetch 3 good);
                      as_retriever 2 (fetch 1 good')] validate0 online in
  race_attempts r = [Settles 3 (Fulfilled good); Settles 1 (Fulfilled good')]
  ∧ race_result r = Settles 1 (Fulfilled good')
  ∧ fst (get (storage [retriever 1 (fetch 3 good);
                       retriever 2 (fetch 1 good')]) cid0 online w0)
    = Returns good'
  ∧ (∀ t, any_aborted (race_signal r) t = false)
  ∧ attempt validate0 (race_signal r) 0 false (fetch 3 good)
    = Settles 3 (Fulfilled good).
Proof.
  intros r. split_and!; [by vm_compute..| |by vm_compute].
  intros t. by apply race_signal_never_aborted.
Qed.

(** C4, the claim as stated, fails: a broker that has [validateFn] accept a
    matching block and then returns a mismatched one wins the race with the
    mismatched block, also against a broker that resolves later with a
    matching block. *)
Lemma unverified_winner_counterexample :
  verifies toy_hasher cid0 bad = false
  ∧ race_result (race cid0 [as_retriever 1 (forger good bad);
                            as_retriever 2 (fetch 2 good)] validate0 online)
    = Settles 0 (Fulfilled bad).
Proof. by vm_compute. Qed.

(** C4 (amended): with the validator of [cid] built from a hasher,
    - the engine runs the validator on the block of every attempt during
      which no call of the validate callback has succeeded, whether the
      broker has not called it or every call has failed: the attempt fulfils
      if the block hashes to the digest of [cid] and rejects with
      [ERR_HASH_MISMATCH] otherwise. An attempt during which a call of the
      callback has succeeded is taken as the broker returns it;
    - an attempt that does not fulfil fails alone: the race resolves when,
      and with what, it would resolve without that attempt;
    - an attempt that fulfils while no other does wins the race, however
      many brokers there are and whatever the signal of the caller is;
    - every block a race resolves with hashes to the digest of [cid],
      provided each broker is honest: once one of its calls of the validate
      callback has succeeded, the block it returns is one of the blocks the
      callback has accepted. *)
Theorem race_accepts_verified_blocks cid hasher validateFn :
  getCidBlockVerifierFunction cid (Some hasher) = inr validateFn →
  (∀ sig r,
     attempt validateFn sig 0 false r
     = match retrieval validateFn sig 0 [] r with
       | (Settles t (Fulfilled block), []) =>
           Settles t (if verifies hasher cid block then Fulfilled block
                      else Rejected ERR_HASH_MISMATCH)
       | (outcome, _) => outcome
       end)
  ∧ (∀ options before loser after t block,
       is_fulfilled (attempt validateFn (shared_signal options) 0 false
                             (retriever_retrieve loser cid)) = false →
       race_result (race cid (before ++ loser :: after) validateFn options)
       = Settles t (Fulfilled block)
       ↔ race_result (race cid (before ++ after) validateFn options)
         = Settles t (Fulfilled block))
  ∧ (∀ options before winner after t block,
       attempt validateFn (shared_signal options) 0 false
               (retriever_retrieve winner cid)
       = Settles t (Fulfilled block) →
       Forall (λ retriever,
                 is_fulfilled (attempt validateFn (shared_signal options) 0
                                 false (retriever_retrieve retriever cid))
                 = false)
              (before ++ after) →
       race_result (race cid (before ++ winner :: after) validateFn options)
       = Settles t (Fulfilled block))
  ∧ (∀ retrievers options t block,
       Forall (λ retriever,
                 honest (retrieval validateFn (shared_signal options) 0 []
                                   (retriever_retrieve retriever cid)))
              retrievers →
       race_result (race cid retrievers validateFn options)
       = Settles t (Fulfilled block) →
       verifies hasher cid block = true).
Proof.
  intros Hv. split_and!.
  - intros sig r.
    change false with (negb (bool_decide (@nil Block = []))) at 1.
    rewrite attempt_retrieval.
    destruct (retrieval validateFn sig 0 [] r) as [[t [b|e]|] [|b' accepted]];
      try done.
    rewrite (verifier_accepts _ _ _ _ Hv). by destruct (verifies hasher cid b).
  - intros options before loser after t block Hloser.
    unfold race. cbn [race_result]. rewrite !Promise_any_fulfilled_iff.
    rewrite !map_app, map_cons. by rewrite first_fulfilled_skip.
  - intros options before winner after t block Hwinner Hothers.
    unfold race. cbn [race_result]. rewrite Promise_any_fulfilled_iff.
    rewrite map_app, map_cons. fold (shared_signal options). rewrite Hwinner.
    apply first_fulfilled_only. rewrite <- map_app.
    apply Forall_forall. intros p Hin.
    apply list_elem_of_In, in_map_iff in Hin as (retriever & <- & Hin).
    by eapply Forall_forall in Hothers; [|apply list_elem_of_In].
  - intros retrievers options t block Hhonest Hrace.
    pose proof (race_verified _ _ _ _ _ _ Hhonest Hrace) as Hok.
    rewrite (verifier_accepts _ _ _ _ Hv) in Hok.
    by destruct (verifies hasher cid block).
Qed.

Lemma race_accepts_verified_blocks_witness :
  (* a broker whose only call of the callback has failed *)
  attempt validate0 (anySignal []) 0 false
          (Validate bad (λ _, careless 1 bad))
  = Settles 1 (Rejected ERR_HASH_MISMATCH)
  ∧ attempt validate0 (anySignal []) 0 false
            (Validate bad (λ _, careless 1 good))
    = Settles 1 (Fulfilled good)
  (* three brokers, one of which resolves with a matching block *)
  ∧ (let retrievers := [as_retriever 1 (careless 0 bad);
                        as_retriever 2 (fetch 1 good');
                        as_retriever 3 (Reject (BrokerError 5))] in
     race_result (race cid0 retrievers validate0 online)
     = Settles 1 (Fulfilled good')
     ∧ ∀ t block,
         race_result (race cid0 retrievers validate0 online)
         = Settles t (Fulfilled block) →
         verifies toy_hasher cid0 block = true).
Proof.
  destruct (race_accepts_verified_blocks cid0 toy_hasher validate0 eq_refl)
    as (Hcheck & _ & Hwins & Hverified).
  split_and!; [| |intros retrievers; split].
  - by rewrite Hcheck.
  - by rewrite Hcheck.
  - apply (Hwins online [as_retriever 1 (careless 0 bad)]
                 (as_retriever 2 (fetch 1 good'))
                 [as_retriever 3 (Reject (BrokerError 5))]); [reflexivity|].
    by repeat constructor.
  - intros t block. apply Hverified.
    apply Forall_cons; split; [by left|].
    apply Forall_cons; split; [right; by left|].
    apply Forall_cons; split; [exact I|apply Forall_nil_2].
Defined.

(** C7, the claim as stated, fails: without a hasher for the multihash
    code of the CID the race fails with the [CodeError]
    [ERR_UNKNOWN_HASH_ALG], not with an [AggregateError], whether or not
    there is a broker that can retrieve. *)
Lemma race_without_hasher_counterexample :
  retrievers_of [inert 1] = []
  ∧ fst (raceBlockRetrievers cid_unknown [inert 1] None online w0)
    = Throws (ERR_UNKNOWN_HASH_ALG 27)
  ∧ fst (get (storage [inert 1]) cid_unknown online w0)
    = Throws (ERR_UNKNOWN_HASH_ALG 27).
Proof. by vm_compute. Qed.

(** C7 (amended): when a hasher is supplied, the race fails with an
    [AggregateError] when no broker exposes [retrieve] (at tick 0, with no
    errors, and without any effect) and when the attempt of every
    retrieving broker rejects (the error then carries the failures of all
    the attempts, in the order of the brokers); when no hasher is supplied
    it fails with [ERR_UNKNOWN_HASH_ALG] before it looks at the brokers. In
    none of these cases does it resolve with a block. *)
Theorem race_failures cid bs options w :
  (∀ hasher validateFn,
     getCidBlockVerifierFunction cid (Some hasher) = inr validateFn →
     retrievers_of bs = [] →
     race_result (race cid (retrievers_of bs) validateFn options)
     = Settles 0 (Rejected (AggregateError []))
     ∧ raceBlockRetrievers cid bs (Some hasher) options w
       = (Throws (AggregateError []), w))
  ∧ (∀ hasher validateFn errs,
       getCidBlockVerifierFunction cid (Some hasher) = inr validateFn →
       Forall2 (λ p e, ∃ t, p = Settles t (Rejected e))
         (race_attempts (race cid (retrievers_of bs) validateFn options))
         errs →
       ∃ w', raceBlockRetrievers cid bs (Some hasher) options w
             = (Throws (AggregateError errs), w'))
  ∧ raceBlockRetrievers cid bs None options w
    = (Throws (ERR_UNKNOWN_HASH_ALG (mh_code (multihash cid))), w).
Proof.
  split_and!.
  - intros hasher validateFn Hv Hnone.
    rewrite (raceBlockRetrievers_spec _ _ _ validateFn) by done.
    unfold race_events. rewrite Hnone. split; [done|].
    by rewrite <- (record_nil w) at 2.
  - intros hasher validateFn errs Hv Hall.
    rewrite (raceBlockRetrievers_spec _ _ _ validateFn) by done.
    apply Promise_any_all_rejected in Hall as [t Hany].
    unfold race in *. cbn [race_result race_attempts] in *. rewrite Hany.
    by eexists.
  - done.
Qed.

Lemma race_failures_witness :
  (race_result (race cid0 (retrievers_of [inert 1]) validate0 online)
   = Settles 0 (Rejected (AggregateError []))
   ∧ raceBlockRetrievers cid0 [inert 1] (Some toy_hasher) online w0
     = (Throws (AggregateError []), w0))
  ∧ (∃ w', raceBlockRetrievers cid0
             [retriever 1 (careless 1 bad); retriever 2 (Reject (BrokerError 5))]
             (Some toy_hasher) online w0
           = (Throws (AggregateError [ERR_HASH_MISMATCH; BrokerError 5]), w')).
Proof.
  split.
  - apply (proj1 (race_failures cid0 [inert 1] online w0) toy_hasher validate0);
      reflexivity.
  - apply (proj1 (proj2 (race_failures cid0
             [retriever 1 (careless 1 bad); retriever 2 (Reject (BrokerError 5))]
             online w0)) toy_hasher validate0); [reflexivity|].
    repeat constructor; by eexists.
Defined.

End RaceClaims.

(** ** Facts about the Local Tier *)

Section LocalTierFacts.

Implicit Types (σ : Stores) (s : Blockstore) (cid : CID) (block : Block).

Lemma bs_has_tiers σ s tiers cid :
  bs_has σ (TieredBlockstore (s :: tiers)) cid
  = bs_has σ s cid || bs_has σ (TieredBlockstore tiers) cid.
Proof. done. Qed.

Lemma bs_get_tiers σ s tiers cid :
  bs_get σ (TieredBlockstore (s :: tiers)) cid
  = match bs_get σ s cid with
    | Some block => Some block
    | None => bs_get σ (TieredBlockstore tiers) cid
    end.
Proof. done. Qed.

Lemma bs_put_tiers s tiers cid block σ :
  bs_put (TieredBlockstore (s :: tiers)) cid block σ
  = bs_put (TieredBlockstore tiers) cid block (bs_put s cid block σ).
Proof. done. Qed.

(** A lookup succeeds exactly when [has] answers yes. *)
Lemma bs_get_has σ s cid :
  bs_has σ s cid = bool_decide (is_Some (bs_get σ s cid)).
Proof.
  induction s as [|l|tiers IH] using Blockstore_tiers_ind.
  - simpl. by case_bool_decide.
  - done.
  - induction IH as [|s tiers Hs _ IH]; [done|].
    rewrite bs_has_tiers, bs_get_tiers, Hs, IH.
    by destruct (bs_get σ s cid) as [block|].
Qed.

Lemma bs_has_get σ s cid :
  bs_has σ s cid = true → ∃ block, bs_get σ s cid = Some block.
Proof. rewrite bs_get_has. intros H. by apply bool_decide_eq_true in H. Qed.

Lemma bs_get_missing σ s cid :
  bs_has σ s cid = false → bs_get σ s cid = None.
Proof.
  rewrite bs_get_has. intros H. apply bool_decide_eq_false in H.
  by apply eq_None_not_Some.
Qed.

(** Putting a block under [cid] into some store never makes a store lose
    [cid]. *)
Lemma bs_has_put_mono s2 cid block :
  ∀ σ s, bs_has σ s cid = true → bs_has (bs_put s2 cid block σ) s cid = true.
Proof.
  induction s2 as [|l2|tiers2 IH2] using Blockstore_tiers_ind; intros σ s.
  - done.
  - induction s as [|l|tiers IH] using Blockstore_tiers_ind; [done| |].
    + simpl. intros H. apply bool_decide_eq_true in H.
      apply bool_decide_eq_true. unfold contents in *.
      destruct (decide (l2 = l)) as [->|Hne].
      * rewrite lookup_insert_eq. simpl.
        destruct (decide (cid = cid)); [|done].
        rewrite lookup_insert. case_decide; [by eauto|done].
      * by rewrite lookup_insert_ne.
    + induction IH as [|s tiers Hs _ IH]; [done|].
      rewrite !bs_has_tiers, !orb_true_iff. intros [H|H]; eauto.
  - revert σ. induction IH2 as [|s2 tiers2 Hs2 _ IH2]; intros σ; [done|].
    rewrite bs_put_tiers. intros H. by apply IH2, Hs2.
Qed.

(** A store that retains has the block once it has been put. *)
Lemma bs_has_put s cid block σ :
  retains s = true → bs_has (bs_put s cid block σ) s cid = true.
Proof.
  revert σ. induction s as [|l|tiers IH] using Blockstore_tiers_ind;
    intros σ; [done| |].
  - intros _. simpl. apply bool_decide_eq_true. unfold contents.
    rewrite lookup_insert_eq. simpl. rewrite lookup_insert_eq. by eauto.
  - revert σ. induction IH as [|s tiers Hs _ IH]; intros σ; [done|].
    simpl retains. rewrite orb_true_iff, bs_put_tiers, bs_has_tiers.
    rewrite orb_true_iff. intros [H|H].
    + left. apply (bs_has_put_mono (TieredBlockstore tiers)). by apply Hs.
    + right. by apply IH.
Qed.

End LocalTierFacts.

(** ** Traces *)

Section Traces.

Implicit Types (w : World) (evs : list Event).

Lemma new_events_record w evs : new_events w (record w evs) = evs.
Proof. unfold new_events, record. simpl. apply drop_app_length. Qed.

Lemma new_events_app w stores' evs :
  new_events w {| stores := stores'; trace := trace w ++ evs |} = evs.
Proof. unfold new_events. simpl. apply drop_app_length. Qed.

Lemma all_before_app P Q evs1 evs2 :
  forallb (λ ev, negb (Q ev)) evs1 = true →
  forallb (λ ev, negb (P ev)) evs2 = true →
  all_before P Q (evs1 ++ evs2).
Proof.
  intros HQ HP i j x y Hi Hj Hx Hy.
  rewrite forallb_forall in HQ. rewrite forallb_forall in HP.
  assert (i < length evs1) as Hlt.
  { destruct (decide (i < length evs1)) as [|Hge]; [done|].
    rewrite lookup_app_r in Hi by lia.
    apply list_elem_of_lookup_2, list_elem_of_In, HP in Hi.
    by rewrite Hx in Hi. }
  assert (length evs1 ≤ j); [|lia].
  destruct (decide (length evs1 ≤ j)) as [|Hlt']; [done|].
  rewrite lookup_app_l in Hj by lia.
  apply list_elem_of_lookup_2, list_elem_of_In, HQ in Hj.
  by rewrite Hy in Hj.
Qed.

Lemma all_before_none P Q evs :
  forallb (λ ev, negb (P ev)) evs = true → all_before P Q evs.
Proof.
  intros HP. rewrite <- (app_nil_l evs). by apply all_before_app.
Qed.

Lemma forallb_app_2 (f : Event → bool) evs1 evs2 :
  forallb f evs1 = true → forallb f evs2 = true →
  forallb f (evs1 ++ evs2) = true.
Proof. intros H1 H2. rewrite forallb_app, H1, H2. done. Qed.

(** The events of an announce fan-out are calls of [announce] only. *)
Lemma announce_events_all bs cid block :
  forallb is_announce (announce_events bs cid block) = true.
Proof.
  induction bs as [|b bs IH]; [done|]. unfold announce_events. simpl.
  by destruct (announce b).
Qed.

Lemma announce_events_filter bs cid block :
  List.filter is_announce (announce_events bs cid block)
  = announce_events bs cid block.
Proof.
  pose proof (announce_events_all bs cid block) as H.
  induction (announce_events bs cid block) as [|ev evs IH]; [done|].
  simpl in *. apply andb_true_iff in H as [-> H]. by rewrite IH.
Qed.

Lemma announce_events_no_put bs cid block :
  forallb (λ ev, negb (is_put ev)) (announce_events bs cid block) = true.
Proof.
  induction bs as [|b bs IH]; [done|]. unfold announce_events. simpl.
  by destruct (announce b).
Qed.

Lemma announce_events_filter_put bs cid block :
  List.filter is_put (announce_events bs cid block) = [].
Proof.
  pose proof (announce_events_no_put bs cid block) as H.
  induction (announce_events bs cid block) as [|ev evs IH]; [done|].
  simpl in *. apply andb_true_iff in H as [Hev H].
  destruct (is_put ev); [done|]. by apply IH.
Qed.

Lemma forallb_weaken {A} (f g : A → bool) (l : list A) :
  (∀ x, f x = true → g x = true) → forallb f l = true → forallb g l = true.
Proof.
  intros Hfg. rewrite !forallb_forall. intros H x Hx. by apply Hfg, H.
Qed.

Lemma forallb_flat_map {A} (f : Event → bool) (g : A → list Event) (l : list A) :
  (∀ x, forallb f (g x) = true) → forallb f (flat_map g l) = true.
Proof.
  intros Hg. induction l as [|x l IH]; [done|].
  simpl. by rewrite forallb_app, Hg, IH.
Qed.

(** The events of a race are calls of [retrieve] and log entries. *)
Lemma logged_in_log cid attempts t :
  forallb (λ ev, match ev with
                 | EvRetrieve _ _ | EvLogError _ _ => true
                 | _ => false
                 end)
          (logged_in cid attempts t) = true.
Proof.
  apply forallb_flat_map. intros [u [b|e]|]; try done. by destruct (u =? t).
Qed.

Lemma race_events_kind cid bs validateFn options :
  forallb (λ ev, match ev with
                 | EvRetrieve _ _ | EvLogError _ _ => true
                 | _ => false
                 end) (race_events cid bs validateFn options) = true.
Proof.
  unfold race_events. cbv zeta. rewrite forallb_app. apply andb_true_iff.
  split.
  - by induction (retrievers_of bs).
  - apply forallb_flat_map. intros t. apply logged_in_log.
Qed.

Lemma race_events_no_put cid bs validateFn options :
  forallb (λ ev, negb (is_put ev)) (race_events cid bs validateFn options)
  = true.
Proof. eapply forallb_weaken; [|apply race_events_kind]. by intros []. Qed.

Lemma race_events_no_announce cid bs validateFn options :
  forallb (λ ev, negb (is_announce ev)) (race_events cid bs validateFn options)
  = true.
Proof. eapply forallb_weaken; [|apply race_events_kind]. by intros []. Qed.

End Traces.

(** ** Claims about the facade *)

Section FacadeClaims.

Implicit Types (self : NetworkedStorage) (cid : CID) (w : World).

(** C5: a [get] of a block the Local Tier holds, and a [get] with
    [offline: true], call no method of any broker; they only look the block
    up in the Local Tier, so an offline miss fails with the not-found error
    of the Local Tier. *)
Theorem get_local_calls_no_broker self cid options w :
  offline options = true ∨ bs_has (stores w) (child self) cid = true →
  forallb (λ ev, negb (is_broker_call ev))
          (new_events w (snd (get self cid options w))) = true
  ∧ stores (snd (get self cid options w)) = stores w
  ∧ fst (get self cid options w)
    = match bs_get (stores w) (child self) cid with
      | Some block => Returns block
      | None => Throws ERR_NOT_FOUND
      end
  ∧ (bs_has (stores w) (child self) cid = false →
     fst (get self cid options w) = Throws ERR_NOT_FOUND)
  ∧ (bs_has (stores w) (child self) cid = true →
     ∃ block, fst (get self cid options w) = Returns block).
Proof.
  intros Hlocal. rewrite get_local by done. cbn [fst snd].
  rewrite new_events_record. split_and!.
  - by destruct (offline options).
  - done.
  - done.
  - intros Hmiss. by rewrite bs_get_missing.
  - intros Hhit. apply bs_has_get in Hhit as [block ->]. by eauto.
Qed.

Lemma get_local_calls_no_broker_witness :
  (* an offline miss, with a broker that could retrieve the block *)
  (let self := storage [retriever 1 (fetch 0 good)] in
   new_events w0 (snd (get self cid0 offline_only w0))
   = [EvProgress "blocks:get:blockstore:get" cid0; EvGet cid0]
   ∧ fst (get self cid0 offline_only w0) = Throws ERR_NOT_FOUND)
  (* a local hit *)
  ∧ (let self := storage [retriever 1 (fetch 0 good)] in
     let w1 := snd (put self cid0 good w0) in
     forallb (λ ev, negb (is_broker_call ev))
             (new_events w1 (snd (get self cid0 online w1))) = true
     ∧ fst (get self cid0 online w1) = Returns good).
Proof.
  split.
  - intros self. split; [reflexivity|].
    apply (get_local_calls_no_broker self cid0 offline_only w0);
      [by left|reflexivity].
  - intros self w1.
    destruct (get_local_calls_no_broker self cid0 online w1) as (H1 & _ & H2 & _).
    + right. reflexivity.
    + split; [exact H1|]. rewrite H2. reflexivity.
Defined.

(** C10: when the registry has no hasher for the multihash code of [cid],
    [get] still returns the block if the Local Tier holds it; it fails with
    [ERR_UNKNOWN_HASH_ALG] exactly when it goes to the network (a miss of
    the Local Tier with [offline] not set), and then before any broker is
    called. *)
Theorem missing_hasher_only_fails_network_get self cid options w :
  self_hashers self !! mh_code (multihash cid) = None →
  (bs_has (stores w) (child self) cid = true →
   ∃ block, bs_get (stores w) (child self) cid = Some block
            ∧ fst (get self cid options w) = Returns block)
  ∧ (fst (get self cid options w)
     = Throws (ERR_UNKNOWN_HASH_ALG (mh_code (multihash cid)))
     ↔ offline options = false ∧ bs_has (stores w) (child self) cid = false)
  ∧ (offline options = false → bs_has (stores w) (child self) cid = false →
     new_events w (snd (get self cid options w))
     = [EvHas cid; EvProgress "blocks:get:providers:get" cid]).
Proof.
  intros Hnone. split_and!.
  - intros Hhit. rewrite get_local by eauto.
    apply bs_has_get in Hhit as [block Hget]. rewrite Hget. by eauto.
  - split.
    + intros Hthrows.
      destruct (offline options) eqn:Hoff;
        [|destruct (bs_has (stores w) (child self) cid) eqn:Hhas; [|done]];
        rewrite get_local in Hthrows by eauto; cbn [fst] in Hthrows;
        by destruct (bs_get _ _ _).
    + intros [Hoff Hmiss]. rewrite get_network by done. cbv zeta.
      by rewrite Hnone.
  - intros Hoff Hmiss. rewrite get_network by done. cbv zeta.
    rewrite Hnone. cbn [getCidBlockVerifierFunction snd].
    by rewrite new_events_record.
Qed.

Lemma missing_hasher_only_fails_network_get_witness :
  let self := storage [retriever 1 (fetch 0 good)] in
  let w1 := {| stores := bs_put (child self) cid_unknown good ∅; trace := [] |} in
  fst (get self cid_unknown online w1) = Returns good
  ∧ fst (get self cid_unknown online w0) = Throws (ERR_UNKNOWN_HASH_ALG 27)
  ∧ new_events w0 (snd (get self cid_unknown online w0))
    = [EvHas cid_unknown; EvProgress "blocks:get:providers:get" cid_unknown].
Proof.
  intros self w1. split_and!.
  - destruct (missing_hasher_only_fails_network_get self cid_unknown online w1
                eq_refl) as (Hhit & _).
    destruct (Hhit eq_refl) as (block & Hget & ->).
    vm_compute in Hget. by inversion Hget.
  - apply (missing_hasher_only_fails_network_get self cid_unknown online w0
             eq_refl). by split.
  - by apply (missing_hasher_only_fails_network_get self cid_unknown online w0
                eq_refl).
Defined.

(** What a [put] that writes does. *)
Lemma put_writes self cid block w :
  bs_has (stores w) (child self) cid = false →
  forallb is_fulfilled
    (announce_promises (blockBrokers (components self)) cid block) = true →
  put self cid block w
  = (Returns cid,
     {| stores := bs_put (child self) cid block (stores w);
        trace := trace w
          ++ [EvHas cid; EvProgress "blocks:put:providers:notify" cid]
          ++ announce_events (blockBrokers (components self)) cid block
          ++ [EvProgress "blocks:put:blockstore:put" cid; EvPut cid block] |}).
Proof.
  intros Hmiss Hall. rewrite put_missing by done. cbv zeta.
  rewrite <- Promise_all_fulfilled in Hall.
  destruct (Promise_all _) as [t [xs|e]|]; try done.
  do 2 f_equal. unfold record. by flatten_trace.
Qed.

(** What a [put] of a block the Local Tier does not hold appends to the
    trace, apart from the calls of [announce]. *)
Lemma put_missing_trace self cid block w :
  bs_has (stores w) (child self) cid = false →
  ∃ evs,
    trace (snd (put self cid block w))
    = trace w
      ++ [EvHas cid; EvProgress "blocks:put:providers:notify" cid]
      ++ announce_events (blockBrokers (components self)) cid block ++ evs
    ∧ List.filter is_announce evs = [].
Proof.
  intros Hmiss. rewrite put_missing by done. cbv zeta.
  destruct (Promise_all _) as [t [xs|e]|]; cbn [snd].
  - exists [EvProgress "blocks:put:blockstore:put" cid; EvPut cid block].
    split; [|done]. unfold record. cbn [trace]. by rewrite <- !app_assoc.
  - exists []. split; [|done]. unfold record. cbn [trace].
    by rewrite app_nil_r.
  - exists []. split; [|done]. unfold record. cbn [trace].
    by rewrite app_nil_r.
Qed.

(** C6, the claim as stated, fails: with a broker whose [announce] rejects,
    the first [put] of a CID the Local Tier does not hold fails after the
    announce fan-out and writes nothing, so the second [put] is no
    duplicate and announces again. The two [put]s make two announce
    fan-outs and no write to the Local Tier. *)
Lemma put_twice_counterexample :
  let self := storage [announcer 1 (Settles 1 (Rejected (BrokerError 7)))] in
  let w1 := snd (put self cid0 good w0) in
  let w2 := snd (put self cid0 good w1) in
  bs_has (stores w0) (child self) cid0 = false
  ∧ fst (put self cid0 good w0) = Throws (BrokerError 7)
  ∧ fst (put self cid0 good w1) = Throws (BrokerError 7)
  ∧ new_events w1 w2
    = [EvHas cid0; EvProgress "blocks:put:providers:notify" cid0;
       EvAnnounce 1 cid0 good]
  ∧ List.filter is_announce (new_events w0 w2)
    = [EvAnnounce 1 cid0 good; EvAnnounce 1 cid0 good]
  ∧ List.filter is_put (new_events w0 w2) = [].
Proof. by vm_compute. Qed.

(** C6 (amended): a [put] of a CID the Local Tier already holds emits the
    duplicate event and returns the CID; it calls no broker and writes
    nothing. Hence, for a CID the Local Tier does not hold yet, two [put]s
    in a row make one announce fan-out (one call per broker with
    [announce], in order) and one write to the Local Tier when every
    announce of the first [put] fulfils: the second [put] is a duplicate.
    When an announce of the first [put] rejects, the first [put] fails
    without a write and the second [put] announces again: there are two
    fan-outs. *)
Theorem put_duplicate_does_nothing self cid w :
  (bs_has (stores w) (child self) cid = true →
   ∀ block,
     put self cid block w
     = (Returns cid,
        record w [EvHas cid; EvProgress "blocks:put:duplicate" cid]))
  ∧ (bs_has (stores w) (child self) cid = false →
     retains (child self) = true →
     ∀ block block',
       forallb is_fulfilled
         (announce_promises (blockBrokers (components self)) cid block)
       = true →
       ∃ w1 w2,
         put self cid block w = (Returns cid, w1)
         ∧ put self cid block' w1 = (Returns cid, w2)
         ∧ new_events w1 w2
           = [EvHas cid; EvProgress "blocks:put:duplicate" cid]
         ∧ stores w2 = stores w1
         ∧ List.filter is_announce (new_events w w2)
           = announce_events (blockBrokers (components self)) cid block
         ∧ List.filter is_put (new_events w w2) = [EvPut cid block])
  ∧ (bs_has (stores w) (child self) cid = false →
     ∀ block block',
       existsb is_rejected
         (announce_promises (blockBrokers (components self)) cid block)
       = true →
       ∃ t e w1,
         Settles t (Rejected e)
           ∈ announce_promises (blockBrokers (components self)) cid block
         ∧ put self cid block w = (Throws e, w1)
         ∧ stores w1 = stores w
         ∧ List.filter is_put (new_events w w1) = []
         ∧ List.filter is_announce
             (new_events w (snd (put self cid block' w1)))
           = announce_events (blockBrokers (components self)) cid block
             ++ announce_events (blockBrokers (components self)) cid block').
Proof.
  split_and!.
  - intros Hhas block. by apply put_duplicate.
  - intros Hmiss Hretains block block' Hall.
    rewrite put_writes by done. eexists. eexists. split; [done|].
    rewrite put_duplicate by (by apply bs_has_put).
    split_and!; [done|by rewrite new_events_record|done|..].
    + unfold record. cbn [trace stores]. rewrite <- !app_assoc.
      rewrite new_events_app. cbn [app List.filter is_announce].
      rewrite List.filter_app, announce_events_filter. cbn.
      by rewrite app_nil_r.
    + unfold record. cbn [trace stores]. rewrite <- !app_assoc.
      rewrite new_events_app. cbn [app List.filter is_put].
      by rewrite List.filter_app, announce_events_filter_put.
  - intros Hmiss block block' Hrej.
    set (bs := blockBrokers (components self)).
    destruct (Promise_all_rejected _ Hrej) as (t & e & Hall & Hin).
    exists t, e,
      (record w ([EvHas cid; EvProgress "blocks:put:providers:notify" cid]
                 ++ announce_events bs cid block)).
    split_and!; [done| |done|..].
    + rewrite put_missing by done. cbv zeta. subst bs. by rewrite Hall.
    + rewrite new_events_record. cbn [app List.filter is_put].
      apply announce_events_filter_put.
    + destruct (put_missing_trace self cid block'
                  (record w ([EvHas cid;
                              EvProgress "blocks:put:providers:notify" cid]
                             ++ announce_events bs cid block)))
        as (evs & Htrace & Hevs); [done|].
      unfold new_events. rewrite Htrace. cbn [record trace].
      rewrite <- !app_assoc, drop_app_length.
      cbn [app List.filter is_announce].
      rewrite List.filter_app, announce_events_filter.
      cbn [app List.filter is_announce].
      rewrite List.filter_app, announce_events_filter, Hevs.
      by rewrite app_nil_r.
Qed.

Lemma put_duplicate_does_nothing_witness :
  (let self := storage [announcer 1 (resolved tt); inert 2;
                        announcer 3 (Settles 2 (Fulfilled tt))] in
   ∃ w1 w2,
     put self cid0 good w0 = (Returns cid0, w1)
     ∧ put self cid0 good w1 = (Returns cid0, w2)
     ∧ new_events w1 w2 = [EvHas cid0; EvProgress "blocks:put:duplicate" cid0]
     ∧ stores w2 = stores w1
     ∧ List.filter is_announce (new_events w0 w2)
       = [EvAnnounce 1 cid0 good; EvAnnounce 3 cid0 good]
     ∧ List.filter is_put (new_events w0 w2) = [EvPut cid0 good])
  ∧ (let self := storage [announcer 1 (Settles 1 (Rejected (BrokerError 7)))] in
     ∃ t e w1,
       Settles t (Rejected e)
         ∈ announce_promises (blockBrokers (components self)) cid0 good
       ∧ put self cid0 good w0 = (Throws e, w1)
       ∧ stores w1 = stores w0
       ∧ List.filter is_put (new_events w0 w1) = []
       ∧ List.filter is_announce (new_events w0 (snd (put self cid0 bad w1)))
         = [EvAnnounce 1 cid0 good; EvAnnounce 1 cid0 bad]).
Proof.
  split; intros self.
  - apply (proj1 (proj2 (put_duplicate_does_nothing self cid0 w0)));
      reflexivity.
  - apply (proj2 (proj2 (put_duplicate_does_nothing self cid0 w0)));
      reflexivity.
Defined.

Lemma all_before_no_second P Q (evs : list Event) :
  forallb (λ ev, negb (Q ev)) evs = true → all_before P Q evs.
Proof.
  intros HQ. rewrite <- (app_nil_r evs). by apply all_before_app.
Qed.

(** What a [get] that has fetched [block] from the network appends to the
    trace. *)
Lemma get_network_events self cid options validateFn t block w :
  offline options = false →
  bs_has (stores w) (child self) cid = false →
  getCidBlockVerifierFunction cid
    (self_hashers self !! mh_code (multihash cid)) = inr validateFn →
  race_result (race cid (retrievers_of (blockBrokers (components self)))
                 validateFn options) = Settles t (Fulfilled block) →
  new_events w (snd (get self cid options w))
  = ([EvHas cid; EvProgress "blocks:get:providers:get" cid]
     ++ race_events cid (blockBrokers (components self)) validateFn options
     ++ [EvProgress "blocks:get:blockstore:put" cid;
         EvPut cid block;
         EvProgress "blocks:get:providers:notify" cid])
    ++ announce_events (blockBrokers (components self)) cid block.
Proof.
  intros Hoff Hmiss Hv Hrace. rewrite get_network by done. cbv zeta.
  rewrite Hv, Hrace. cbn [snd]. unfold record. cbn [trace stores].
  rewrite <- !app_assoc. rewrite new_events_app. by flatten_trace.
Qed.

(** C8: in the trace of one [put], every call of [announce] comes before
    the write to the Local Tier, and the write is made only once every
    announce has fulfilled; in the trace of one [get], the write to the
    Local Tier comes before every call of [announce]. The traces of a [put]
    that writes and of a [get] that has fetched the block from the network
    are given in full. *)
Theorem announce_and_write_order self cid block options w :
  all_before is_announce is_put (new_events w (snd (put self cid block w)))
  ∧ (existsb is_put (new_events w (snd (put self cid block w))) = true →
     forallb is_fulfilled
       (announce_promises (blockBrokers (components self)) cid block) = true)
  ∧ (bs_has (stores w) (child self) cid = false →
     forallb is_fulfilled
       (announce_promises (blockBrokers (components self)) cid block) = true →
     new_events w (snd (put self cid block w))
     = [EvHas cid; EvProgress "blocks:put:providers:notify" cid]
       ++ announce_events (blockBrokers (components self)) cid block
       ++ [EvProgress "blocks:put:blockstore:put" cid; EvPut cid block])
  ∧ all_before is_put is_announce (new_events w (snd (get self cid options w)))
  ∧ (∀ validateFn t fetched,
       offline options = false →
       bs_has (stores w) (child self) cid = false →
       getCidBlockVerifierFunction cid
         (self_hashers self !! mh_code (multihash cid)) = inr validateFn →
       race_result (race cid (retrievers_of (blockBrokers (components self)))
                      validateFn options) = Settles t (Fulfilled fetched) →
       new_events w (snd (get self cid options w))
       = ([EvHas cid; EvProgress "blocks:get:providers:get" cid]
          ++ race_events cid (blockBrokers (components self)) validateFn options
          ++ [EvProgress "blocks:get:blockstore:put" cid;
              EvPut cid fetched;
              EvProgress "blocks:get:providers:notify" cid])
         ++ announce_events (blockBrokers (components self)) cid fetched).
Proof.
  assert (∀ evs, forallb (λ ev, negb (is_put ev)) evs = true →
                 existsb is_put evs = true → False) as Hnoput.
  { intros evs Hall Hex. apply existsb_exists in Hex as (ev & Hin & Hev).
    rewrite forallb_forall in Hall. apply Hall in Hin. by rewrite Hev in Hin. }
  set (bs := blockBrokers (components self)).
  pose proof (announce_events_no_put bs cid block) as Hann.
  destruct (bs_has (stores w) (child self) cid) eqn:Hhas.
  - (* the Local Tier holds the block *)
    rewrite put_duplicate by done. rewrite get_local by eauto.
    cbn [snd]. rewrite !new_events_record. split_and!; try done.
    + by apply all_before_none.
    + apply all_before_no_second. by destruct (offline options).
  - split_and!.
    + rewrite put_missing by done. cbv zeta. fold bs.
      destruct (Promise_all _) as [t [xs|e]|]; cbn [snd].
      * unfold record. cbn [trace stores]. rewrite <- !app_assoc.
        rewrite new_events_app. cbn [app].
        apply (all_before_app _ _ (_ :: _ :: announce_events bs cid block)
                 [_; _]); [|done].
        cbn [forallb is_put negb andb]. exact Hann.
      * rewrite new_events_record. apply all_before_no_second.
        cbn [app forallb is_put negb andb]. exact Hann.
      * rewrite new_events_record. apply all_before_no_second.
        cbn [app forallb is_put negb andb]. exact Hann.
    + rewrite put_missing by done. cbv zeta. fold bs.
      rewrite <- Promise_all_fulfilled.
      destruct (Promise_all _) as [t [xs|e]|]; cbn [snd]; [done|..];
        rewrite new_events_record; intros Hex; exfalso;
        (eapply Hnoput; [|exact Hex]); by apply forallb_app_2.
    + intros _ Hall. rewrite put_writes by done. cbn [snd].
      by rewrite new_events_app.
    + destruct (offline options) eqn:Hoff.
      { rewrite get_local by eauto. cbn [snd]. rewrite new_events_record.
        rewrite Hoff. by apply all_before_no_second. }
      rewrite get_network by done. cbv zeta. fold bs.
      destruct (getCidBlockVerifierFunction _ _) as [err|validateFn];
        [by cbn [snd]; rewrite new_events_record; apply all_before_none|].
      pose proof (race_events_no_put cid bs validateFn options) as Hrp.
      pose proof (race_events_no_announce cid bs validateFn options) as Hra.
      destruct (race_result _) as [t [fetched|e]|]; cbn [snd].
      * unfold record. cbn [trace stores]. rewrite <- !app_assoc.
        rewrite new_events_app. cbn [app].
        match goal with |- all_before _ _ ?evs =>
          replace evs
            with (([EvHas cid; EvProgress "blocks:get:providers:get" cid]
                   ++ race_events cid bs validateFn options
                   ++ [EvProgress "blocks:get:blockstore:put" cid;
                       EvPut cid fetched;
                       EvProgress "blocks:get:providers:notify" cid])
                  ++ announce_events bs cid fetched)
            by (by flatten_trace)
        end.
        apply all_before_app; [|apply announce_events_no_put].
        cbn [app forallb is_announce negb andb].
        by apply forallb_app_2.
      * rewrite record_record, new_events_record.
        apply all_before_none. by apply (forallb_app_2 _ [_; _]).
      * rewrite record_record, new_events_record.
        apply all_before_none. by apply (forallb_app_2 _ [_; _]).
    + intros validateFn t fetched Hoff _ Hv Hrace.
      by apply (get_network_events _ _ _ validateFn t).
Qed.

Lemma announce_and_write_order_witness :
  let self := storage [announcer 1 (Settles 3 (Fulfilled tt));
                       retriever 2 (fetch 1 good');
                       announcer 3 (resolved tt)] in
  new_events w0 (snd (put self cid0 good w0))
  = [EvHas cid0;
     EvProgress "blocks:put:providers:notify" cid0;
     EvAnnounce 1 cid0 good;
     EvAnnounce 3 cid0 good;
     EvProgress "blocks:put:blockstore:put" cid0;
     EvPut cid0 good]
  ∧ new_events w0 (snd (get self cid0 online w0))
    = [EvHas cid0;
       EvProgress "blocks:get:providers:get" cid0;
       EvRetrieve 2 cid0;
       EvProgress "blocks:get:blockstore:put" cid0;
       EvPut cid0 good';
       EvProgress "blocks:get:providers:notify" cid0;
       EvAnnounce 1 cid0 good';
       EvAnnounce 3 cid0 good'].
Proof.
  intros self.
  destruct (announce_and_write_order self cid0 good online w0)
    as (_ & _ & Hput & _ & Hget).
  split.
  - apply Hput; reflexivity.
  - apply (Hget validate0 1 good'); reflexivity.
Defined.

Lemma filter_nothing (f : Event → bool) (evs : list Event) :
  forallb (λ ev, negb (f ev)) evs = true → List.filter f evs = [].
Proof.
  induction evs as [|ev evs IH]; [done|]. simpl.
  intros H. apply andb_true_iff in H as [Hev H].
  destruct (f ev); [done|]. by apply IH.
Qed.

(** C3, the claim as stated, fails: [put] does not hash the block it is
    given, and [get] does not hash what the Local Tier returns. A block
    whose digest differs from the one of its CID is written to the Local
    Tier by [put] and returned by the next [get]. *)
Lemma unverified_put_counterexample :
  let self := storage [] in
  let w1 := snd (put self cid0 bad w0) in
  verifies toy_hasher cid0 bad = false
  ∧ fst (put self cid0 bad w0) = Returns cid0
  ∧ bs_get (stores w1) (child self) cid0 = Some bad
  ∧ fst (get self cid0 online w1) = Returns bad.
Proof. by vm_compute. Qed.

(** C3 (amended): only the blocks fetched from the network are verified.
    - A [get] that goes to the network with a hasher for the CID and with
      honest brokers (once one of its calls of the validate callback has
      succeeded, a broker returns one of the blocks the callback has
      accepted) either writes nothing to the Local Tier and returns no
      block, or writes exactly one block, which hashes to the digest of the
      CID; it then returns that block when every announce fulfils, and
      otherwise ends as the announce fan-out does, with its rejection or
      never.
    - A [get] of a CID the Local Tier holds returns the stored bytes as they
      are.
    - A [put] that writes stores the bytes it was given as they are. *)
Theorem fetched_blocks_are_verified self cid w :
  (∀ options hasher validateFn,
     self_hashers self !! mh_code (multihash cid) = Some hasher →
     getCidBlockVerifierFunction cid (Some hasher) = inr validateFn →
     offline options = false →
     bs_has (stores w) (child self) cid = false →
     Forall (λ retriever,
               honest (retrieval validateFn (shared_signal options) 0 []
                                 (retriever_retrieve retriever cid)))
            (retrievers_of (blockBrokers (components self))) →
     let result := get self cid options w in
     (stores result.2 = stores w
      ∧ List.filter is_put (new_events w result.2) = []
      ∧ ∀ b, result.1 ≠ Returns b)
     ∨ (∃ block,
          verifies hasher cid block = true
          ∧ stores result.2 = bs_put (child self) cid block (stores w)
          ∧ List.filter is_put (new_events w result.2) = [EvPut cid block]
          ∧ result.1
            = match Promise_all (announce_promises
                                   (blockBrokers (components self)) cid block)
              with
              | Settles _ (Fulfilled _) => Returns block
              | Settles _ (Rejected e) => Throws e
              | Forever => Hangs
              end))
  ∧ (∀ options block,
       bs_get (stores w) (child self) cid = Some block →
       fst (get self cid options w) = Returns block)
  ∧ (∀ block,
       bs_has (stores w) (child self) cid = false →
       forallb is_fulfilled
         (announce_promises (blockBrokers (components self)) cid block)
       = true →
       fst (put self cid block w) = Returns cid
       ∧ stores (snd (put self cid block w))
         = bs_put (child self) cid block (stores w)).
Proof.
  split_and!.
  - intros options hasher validateFn Hhasher Hv Hoff Hmiss Hhonest result.
    unfold result. rewrite get_network by done. cbv zeta.
    rewrite Hhasher, Hv.
    set (bs := blockBrokers (components self)).
    pose proof (race_events_no_put cid bs validateFn options) as Hrp.
    destruct (race_result _) as [t [block|e]|] eqn:Hrace.
    + right. exists block.
      pose proof (race_verified _ _ _ _ _ _ Hhonest Hrace) as Hok.
      split_and!.
      * rewrite (verifier_accepts _ _ _ _ Hv) in Hok.
        by destruct (verifies hasher cid block).
      * done.
      * cbn [snd]. unfold record. cbn [trace stores]. rewrite <- !app_assoc.
        rewrite new_events_app. cbn [app List.filter is_put].
        rewrite List.filter_app, (filter_nothing _ _ Hrp).
        cbn [app List.filter is_put].
        by rewrite (filter_nothing _ _ (announce_events_no_put _ _ _)).
      * done.
    + left. cbn [fst snd]. split_and!; [done| |done].
      rewrite record_record, new_events_record.
      cbn [app List.filter is_put]. by apply filter_nothing.
    + left. cbn [fst snd]. split_and!; [done| |done].
      rewrite record_record, new_events_record.
      cbn [app List.filter is_put]. by apply filter_nothing.
  - intros options block Hget. rewrite get_local.
    + cbn [fst]. by rewrite Hget.
    + right. rewrite bs_get_has, Hget. apply bool_decide_eq_true. by eauto.
  - intros block Hmiss Hall. by rewrite put_writes.
Qed.

Lemma fetched_blocks_are_verified_witness :
  (* the announce fan-out fulfils: the verified block is returned *)
  (let self := storage [retriever 1 (careless 0 bad);
                        retriever 2 (fetch 2 good');
                        announcer 3 (resolved tt)] in
   ∃ block,
     verifies toy_hasher cid0 block = true
     ∧ stores (get self cid0 online w0).2
       = bs_put (child self) cid0 block (stores w0)
     ∧ (get self cid0 online w0).1 = Returns block)
  (* an announce rejects: the verified block is written, not returned *)
  ∧ (let self := storage [retriever 1 (fetch 2 good');
                          announcer 3 (Settles 1 (Rejected (BrokerError 7)))] in
     ∃ block,
       verifies toy_hasher cid0 block = true
       ∧ stores (get self cid0 online w0).2
         = bs_put (child self) cid0 block (stores w0)
       ∧ (get self cid0 online w0).1 = Throws (BrokerError 7)).
Proof.
  split; intros self.
  - destruct (proj1 (fetched_blocks_are_verified self cid0 w0)
                online toy_hasher validate0)
      as [(_ & _ & Hnone)|(block & Hok & Hstores & Hput & Hret)].
    + reflexivity.
    + reflexivity.
    + reflexivity.
    + reflexivity.
    + apply Forall_cons; split; [by left|].
      apply Forall_cons; split; [right; by left|apply Forall_nil_2].
    + by destruct (Hnone good').
    + exists block. split_and!; [exact Hok|exact Hstores|].
      rewrite Hret.
      assert ([EvPut cid0 block] = [EvPut cid0 good']) as [= ->];
        [by rewrite <- Hput|reflexivity].
  - destruct (proj1 (fetched_blocks_are_verified self cid0 w0)
                online toy_hasher validate0)
      as [(_ & Hnoput & _)|(block & Hok & Hstores & Hput & Hret)].
    + reflexivity.
    + reflexivity.
    + reflexivity.
    + reflexivity.
    + apply Forall_cons; split; [right; by left|apply Forall_nil_2].
    + discriminate Hnoput.
    + exists block. split_and!; [exact Hok|exact Hstores|].
      rewrite Hret.
      assert ([EvPut cid0 block] = [EvPut cid0 good']) as [= ->];
        [by rewrite <- Hput|reflexivity].
Defined.

End FacadeClaims.

(** ** Sessions *)

Section Sessions.

Implicit Types (bs : list BlockBroker) (root : CID) (w : World).

Lemma session_calls_spec bs root w :
  session_calls bs root w
  = (Returns (session_promises bs root), record w (session_events bs root)).
Proof.
  revert w. induction bs as [|b bs IH]; intros w.
  - simpl. by rewrite record_nil.
  - simpl. unfold mbind, M_bind, mret, M_ret.
    destruct (Brokers.createSession b) as [f|]; simpl; rewrite IH; simpl.
    + by rewrite record_record.
    + done.
Qed.

Lemma session_promises_fulfilled bs root :
  Forall (λ broker, ∀ f, Brokers.createSession broker = Some f →
                         is_fulfilled (f root) = true) bs →
  ∃ t bs', Promise_all (session_promises bs root) = Settles t (Fulfilled bs')
           ∧ Forall2 (scoped root) bs bs'.
Proof.
  induction 1 as [|b bs Hb _ (t & bs' & IH & Hscoped)].
  - exists 0, []. by split.
  - unfold Promise_all in *. cbn [session_promises map].
    fold (session_promises bs root).
    assert (∃ u b', match Brokers.createSession b with
                    | None => resolved b
                    | Some f => f root
                    end = Settles u (Fulfilled b') ∧ scoped root b b')
      as (u & b' & -> & Hb').
    { unfold scoped. destruct (Brokers.createSession b) as [f|].
      - specialize (Hb f eq_refl).
        destruct (f root) as [u [b'|e]|]; try done. by eauto.
      - by exists 0, b. }
    cbn [first_rejected all_fulfilled].
    destruct (first_rejected (session_promises bs root)) as [[? ?]|]; [done|].
    destruct (all_fulfilled (session_promises bs root)) as [[t' xs]|];
      [|done].
    injection IH as <- <-. eexists _, (b' :: xs). split; [done|].
    by constructor.
Qed.

(** C9: when the [createSession] of every broker that has one succeeds,
    [createSession(root)] of a facade returns a facade in which each broker
    that exposes [createSession] is replaced by what its
    [createSession(root)] resolved to and every other broker is kept as it
    is, with the same hashers. Its Local Tier is a view of the same stores:
    for every content of the stores, [has] and [get] give the same answers
    through both facades, and a write through either has the same effect on
    the stores. Creating the session does not touch the stores. *)
Theorem createSession_shares_the_store comps init root w :
  let self := new_NetworkedStorage comps init in
  Forall (λ broker, ∀ f, Brokers.createSession broker = Some f →
                         is_fulfilled (f root) = true)
         (blockBrokers comps) →
  ∃ session w',
    createSession self root w = (Returns session, w')
    ∧ stores w' = stores w
    ∧ Forall2 (scoped root) (blockBrokers comps)
                            (blockBrokers (components session))
    ∧ self_hashers session = self_hashers self
    ∧ (∀ σ cid,
         bs_has σ (child session) cid = bs_has σ (child self) cid
         ∧ bs_get σ (child session) cid = bs_get σ (child self) cid)
    ∧ (∀ σ cid block,
         bs_put (child session) cid block σ = bs_put (child self) cid block σ).
Proof.
  intros self Hall.
  destruct (session_promises_fulfilled _ _ Hall) as (t & bs' & Hp & Hscoped).
  unfold createSession, mbind, M_bind. rewrite session_calls_spec.
  cbn [blockBrokers components self new_NetworkedStorage].
  rewrite Hp. cbn [await]. eexists _, _. split; [reflexivity|].
  split_and!; try done.
  intros σ cid. simpl. split.
  - by destruct (bool_decide _), (bs_has σ (blockstore comps) cid).
  - by destruct (bool_decide _), (bs_get σ (blockstore comps) cid).
Qed.

Lemma createSession_shares_the_store_witness :
  let self := new_NetworkedStorage session_components {| root := None |} in
  ∃ session w',
    createSession self cid0 w0 = (Returns session, w')
    ∧ stores w' = stores w0
    ∧ Forall2 (scoped cid0) (blockBrokers session_components)
                            (blockBrokers (components session))
    ∧ self_hashers session = self_hashers self
    ∧ (∀ σ cid,
         bs_has σ (child session) cid = bs_has σ (child self) cid
         ∧ bs_get σ (child session) cid = bs_get σ (child self) cid)
    ∧ (∀ σ cid block,
         bs_put (child session) cid block σ = bs_put (child self) cid block σ).
Proof.
  apply (createSession_shares_the_store session_components {| root := None |}
           cid0 w0).
  apply Forall_cons; split; [by intros f [=]|].
  apply Forall_cons; split; [|apply Forall_nil_2].
  intros f [= <-]. reflexivity.
Defined.

(** A block fetched through a session is found through the facade the
    session was created from. *)
Example session_write_is_shared :
  let self := new_NetworkedStorage session_components {| root := None |} in
  ∃ session w1,
    createSession self cid0 w0 = (Returns session, w1)
    ∧ blockBrokers (components session)
      = [retriever 1 (fetch 1 good); retriever 12 (fetch 0 good)]
    ∧ new_events w0 w1 = [EvCreateSession 2 cid0]
    ∧ fst (get session cid0 online w1) = Returns good
    ∧ fst (get self cid0 offline_only (snd (get session cid0 online w1)))
      = Returns good.
Proof. eexists _, _. split; [reflexivity|]. by vm_compute. Qed.

End Sessions.

(** * Further properties of the code *)

(** ** More about the retrieval race *)

Section RaceOutcomes.

Context {A : Type}.
Implicit Types (ps : list (Promise A)).

Lemma first_fulfilled_earliest ps t a :
  first_fulfilled ps = Some (t, a) →
  ∀ t' a', Settles t' (Fulfilled a') ∈ ps → t ≤ t'.
Proof.
  revert t a. induction ps as [|p ps IH]; intros t a Hf t' a' Hin;
    [by apply elem_of_nil in Hin|].
  apply elem_of_cons in Hin. simpl in Hf.
  destruct p as [u [b|e]|].
  - destruct (first_fulfilled ps) as [[t0 a0]|] eqn:Hps.
    + destruct (u <=? t0) eqn:Hle; injection Hf as <- <-.
      * apply Nat.leb_le in Hle. destruct Hin as [[= -> _]|Hin]; [lia|].
        specialize (IH _ _ eq_refl _ _ Hin). lia.
      * apply Nat.leb_gt in Hle. destruct Hin as [[= -> _]|Hin]; [lia|].
        by apply (IH _ _ eq_refl _ _ Hin).
    + injection Hf as <- <-. destruct Hin as [[= -> _]|Hin]; [lia|].
      apply first_fulfilled_None in Hps. rewrite forallb_forall in Hps.
      apply list_elem_of_In, Hps in Hin. done.
  - destruct Hin as [[=]|Hin]. by eapply IH.
  - destruct Hin as [[=]|Hin]. by eapply IH.
Qed.

Lemma Promise_any_fulfils ps :
  is_fulfilled (Promise_any ps) = existsb is_fulfilled ps.
Proof.
  unfold Promise_any. destruct (first_fulfilled ps) as [[t a]|] eqn:Hf.
  - apply first_fulfilled_elem, list_elem_of_In in Hf. symmetry.
    apply existsb_exists. by eexists.
  - assert (existsb is_fulfilled ps = false) as ->.
    { apply first_fulfilled_None in Hf. apply not_true_is_false.
      intros (p & Hin & Hp)%existsb_exists. rewrite forallb_forall in Hf.
      apply Hf in Hin. by rewrite Hp in Hin. }
    by destruct (all_rejected ps) as [[? ?]|].
Qed.

Lemma all_rejected_Forall2 ps t es :
  all_rejected ps = Some (t, es) →
  Forall2 (λ p e, ∃ u, p = Settles u (Rejected e)) ps es.
Proof.
  revert t es. induction ps as [|p ps IH]; intros t es; simpl.
  - intros [= _ <-]. constructor.
  - destruct p as [u [b|e]|]; try done.
    destruct (all_rejected ps) as [[t' es']|]; [|done].
    intros [= _ <-]. constructor; [by eexists|by eapply IH].
Qed.

Lemma Promise_any_hangs ps :
  never_settles (Promise_any ps)
  = forallb (λ p, negb (is_fulfilled p)) ps && existsb never_settles ps.
Proof.
  unfold Promise_any. destruct (first_fulfilled ps) as [[t a]|] eqn:Hf.
  - assert (forallb (λ p, negb (is_fulfilled p)) ps = false) as ->; [|done].
    apply not_true_is_false. intros H. apply first_fulfilled_None in H.
    congruence.
  - apply first_fulfilled_None in Hf. rewrite Hf. simpl.
    induction ps as [|[u [b|e]|] ps IH]; simpl in *; try done.
    specialize (IH Hf).
    by destruct (all_rejected ps) as [[? ?]|].
Qed.

(** What [Promise.any] rejects with. *)
Lemma Promise_any_rejects ps t e :
  Promise_any ps = Settles t (Rejected e) →
  ∃ es, e = AggregateError es
        ∧ Forall2 (λ p err, ∃ u, p = Settles u (Rejected err)) ps es.
Proof.
  unfold Promise_any. destruct (first_fulfilled ps) as [[t' a]|]; [done|].
  destruct (all_rejected ps) as [[t' es]|] eqn:Hr; [|done].
  intros [= _ <-]. exists es. split; [done|]. by eapply all_rejected_Forall2.
Qed.

End RaceOutcomes.

Section RaceExtras.

Implicit Types (cid : CID) (validateFn : Block → Settled unit).

(** X1: a race resolves exactly when one of its attempts fulfils, however
    many attempts have rejected before; it resolves with the block of an
    attempt, at the tick of the earliest fulfilment. *)
Theorem race_resolves_with_earliest_fulfilment cid retrievers validateFn
    options :
  let r := race cid retrievers validateFn options in
  is_fulfilled (race_result r) = existsb is_fulfilled (race_attempts r)
  ∧ ∀ t block,
      race_result r = Settles t (Fulfilled block) →
      Settles t (Fulfilled block) ∈ race_attempts r
      ∧ ∀ t' block', Settles t' (Fulfilled block') ∈ race_attempts r → t ≤ t'.
Proof.
  intros r. split; [apply Promise_any_fulfils|].
  intros t block Hr. split; [by apply Promise_any_fulfilled|].
  unfold r, race in Hr. cbn [race_result] in Hr. unfold Promise_any in Hr.
  destruct (first_fulfilled _) as [[t0 a0]|] eqn:Hf.
  - injection Hr as -> ->. by eapply first_fulfilled_earliest.
  - by destruct (all_rejected _) as [[? ?]|].
Qed.

Lemma race_resolves_with_earliest_fulfilment_witness :
  let r := race cid0 [as_retriever 1 (careless 0 bad);
                      as_retriever 2 (fetch 3 good);
                      as_retriever 3 (fetch 1 good')] validate0 online in
  race_attempts r = [Settles 0 (Rejected ERR_HASH_MISMATCH);
                     Settles 3 (Fulfilled good);
                     Settles 1 (Fulfilled good')]
  ∧ Settles 1 (Fulfilled good') ∈ race_attempts r
  ∧ ∀ t' block', Settles t' (Fulfilled block') ∈ race_attempts r → 1 ≤ t'.
Proof.
  intros r. split; [reflexivity|].
  apply (proj2 (race_resolves_with_earliest_fulfilment cid0
                  [as_retriever 1 (careless 0 bad);
                   as_retriever 2 (fetch 3 good);
                   as_retriever 3 (fetch 1 good')] validate0 online)
           1 good').
  reflexivity.
Defined.

(** X2: the race has no timeout of its own. It stays pending exactly when
    no attempt fulfils and some attempt never settles, and then the [get]
    that started it never returns; it has called the retrievers and has
    neither written to the Local Tier nor announced anything. *)
Theorem pending_attempt_blocks_get self cid options validateFn w :
  offline options = false →
  bs_has (stores w) (child self) cid = false →
  getCidBlockVerifierFunction cid
    (self_hashers self !! mh_code (multihash cid)) = inr validateFn →
  let r := race cid (retrievers_of (blockBrokers (components self)))
             validateFn options in
  never_settles (race_result r)
  = forallb (λ p, negb (is_fulfilled p)) (race_attempts r)
    && existsb never_settles (race_attempts r)
  ∧ (never_settles (race_result r) = true →
     get self cid options w
     = (Hangs,
        record w ([EvHas cid; EvProgress "blocks:get:providers:get" cid]
                  ++ race_events cid (blockBrokers (components self))
                       validateFn options))).
Proof.
  intros Hoff Hmiss Hv r. split; [apply Promise_any_hangs|].
  intros Hnever. rewrite get_network by done. cbv zeta. rewrite Hv.
  fold r. destruct (race_result r) as [t s|]; [done|].
  by rewrite record_record.
Qed.

Lemma pending_attempt_blocks_get_witness :
  let self := storage [retriever 1 (Reject (BrokerError 3));
                       retriever 2 Never] in
  get self cid0 online w0
  = (Hangs,
     record w0 [EvHas cid0;
                EvProgress "blocks:get:providers:get" cid0;
                EvRetrieve 1 cid0;
                EvRetrieve 2 cid0;
                EvLogError cid0 (BrokerError 3)]).
Proof.
  intros self.
  apply (proj2 (pending_attempt_blocks_get self cid0 online validate0 w0
                  eq_refl eq_refl eq_refl)).
  reflexivity.
Defined.

Lemma attempt_ignores_signal validateFn sig sig' r :
  ignores_signal r →
  ∀ t v, attempt validateFn sig t v r = attempt validateFn sig' t v r.
Proof.
  induction r as [block|err|block k IH|k IH|k IH|]; simpl; try done.
  - intros Hk t v. destruct (validateFn block); by apply IH.
  - intros Hk t v. by apply IH.
Qed.

Lemma race_ignores_signal cid retrievers validateFn options options' :
  Forall (λ retriever, ignores_signal (retriever_retrieve retriever cid))
         retrievers →
  race_attempts (race cid retrievers validateFn options)
  = race_attempts (race cid retrievers validateFn options').
Proof.
  intros Hall. unfold race. cbn [race_attempts].
  induction Hall as [|retriever retrievers Hr _ IH]; [done|].
  cbn [map]. rewrite IH. f_equal. by apply attempt_ignores_signal.
Qed.

(** X3: [raceBlockRetrievers] never looks at the abort signal itself; only
    the brokers do. With brokers that do not read the signal, the race does
    the same and ends the same whatever the signal of the caller is, also
    when that signal has been aborted from the start. *)
Theorem race_leaves_cancellation_to_brokers cid bs hasher options options' w :
  Forall (λ retriever, ignores_signal (retriever_retrieve retriever cid))
         (retrievers_of bs) →
  raceBlockRetrievers cid bs hasher options w
  = raceBlockRetrievers cid bs hasher options' w.
Proof.
  intros Hall. destruct hasher as [hasher|]; [|done].
  pose proof (verifier_spec cid hasher) as Hv.
  rewrite !(raceBlockRetrievers_spec _ _ _ _ _ _ Hv).
  pose proof (race_ignores_signal cid _
                (λ block, if verifies hasher cid block
                          then Fulfilled tt else Rejected ERR_HASH_MISMATCH)
                options options' Hall) as Hatt.
  unfold race_events. cbv zeta.
  unfold race in *. cbn [race_attempts race_result] in *.
  by rewrite Hatt.
Qed.

Lemma race_leaves_cancellation_to_brokers_witness :
  let aborted_from_the_start :=
    {| offline := false; signal := Some {| aborted_at := Some 0 |} |} in
  fst (raceBlockRetrievers cid0 [retriever 1 (careless 2 good)]
         (Some toy_hasher) aborted_from_the_start w0)
  = Returns good.
Proof.
  intros aborted_from_the_start.
  rewrite (race_leaves_cancellation_to_brokers cid0
             [retriever 1 (careless 2 good)] (Some toy_hasher)
             aborted_from_the_start online w0).
  - reflexivity.
  - apply Forall_cons; split; [exact I|apply Forall_nil_2].
Defined.

Lemma retrievers_of_ids bs :
  map retriever_id (retrievers_of bs)
  = map broker_id (List.filter (λ b, bool_decide (is_Some (retrieve b))) bs).
Proof.
  induction bs as [|b bs IH]; [done|]. simpl.
  destruct (retrieve b) as [f|]; simpl; by rewrite IH.
Qed.

Lemma filter_everything (f : Event → bool) (evs : list Event) :
  forallb f evs = true → List.filter f evs = evs.
Proof.
  induction evs as [|ev evs IH]; [done|]. simpl.
  intros [-> H]%andb_true_iff. by rewrite IH.
Qed.

Lemma race_events_retrieve cid bs validateFn options :
  List.filter is_retrieve (race_events cid bs validateFn options)
  = map (λ id, EvRetrieve id cid) (map retriever_id (retrievers_of bs)).
Proof.
  unfold race_events. cbv zeta. rewrite List.filter_app.
  rewrite (filter_nothing is_retrieve (logged _ _ _)).
  - rewrite app_nil_r, map_map. apply filter_everything.
    by induction (retrievers_of bs).
  - apply forallb_flat_map. intros t. apply forallb_flat_map.
    intros [u [b|e]|]; try done. by destruct (u =? t).
Qed.

(** X4: a [get] that goes to the network with a hasher registered for the
    multihash code of the CID calls [retrieve] once on every broker that
    has it, in the order of the broker list, whichever attempt wins and
    whether or not the race succeeds; a broker without [retrieve] is not
    asked. Without a registered hasher it calls [retrieve] on no broker:
    the race fails before it looks at the brokers. *)
Theorem every_retriever_is_called_once self cid options w :
  offline options = false →
  bs_has (stores w) (child self) cid = false →
  List.filter is_retrieve (new_events w (snd (get self cid options w)))
  = match self_hashers self !! mh_code (multihash cid) with
    | Some _ =>
        map (λ broker, EvRetrieve (broker_id broker) cid)
            (List.filter (λ broker, bool_decide (is_Some (retrieve broker)))
                         (blockBrokers (components self)))
    | None => []
    end.
Proof.
  intros Hoff Hmiss. rewrite get_network by done. cbv zeta.
  destruct (self_hashers self !! mh_code (multihash cid)) as [hasher|];
    [|by cbn [getCidBlockVerifierFunction snd]; rewrite new_events_record].
  rewrite verifier_spec.
  set (validateFn := λ block, if verifies hasher cid block then _ else _).
  set (bs := blockBrokers (components self)).
  assert (∀ b, List.filter is_retrieve (announce_events bs cid b) = [])
    as Hann.
  { intros b. apply filter_nothing. eapply forallb_weaken;
      [|apply announce_events_all]. by intros []. }
  rewrite <- (map_map broker_id (λ id, EvRetrieve id cid)).
  rewrite <- retrievers_of_ids, <- (race_events_retrieve _ _ validateFn options).
  destruct (race_result _) as [t [block|e]|]; cbn [snd].
  - unfold record. cbn [trace stores]. rewrite <- !app_assoc.
    rewrite new_events_app. cbn [app List.filter is_retrieve].
    rewrite List.filter_app. cbn [app List.filter is_retrieve].
    by rewrite Hann, app_nil_r.
  - by rewrite record_record, new_events_record.
  - by rewrite record_record, new_events_record.
Qed.

Lemma every_retriever_is_called_once_witness :
  let self := storage [retriever 1 (fetch 0 good); announcer 2 (resolved tt);
                       retriever 3 (fetch 5 good'); inert 4;
                       retriever 5 Never] in
  (fst (get self cid0 online w0) = Returns good
   ∧ List.filter is_retrieve (new_events w0 (snd (get self cid0 online w0)))
     = [EvRetrieve 1 cid0; EvRetrieve 3 cid0; EvRetrieve 5 cid0])
  (* no hasher is registered for the code of [cid_unknown] *)
  ∧ List.filter is_retrieve
      (new_events w0 (snd (get self cid_unknown online w0))) = [].
Proof.
  intros self. split; [split; [reflexivity|]|].
  - apply (every_retriever_is_called_once self cid0 online w0); reflexivity.
  - apply (every_retriever_is_called_once self cid_unknown online w0);
      reflexivity.
Defined.

(** X5: whatever [raceBlockRetrievers] rejects with is either
    [ERR_UNKNOWN_HASH_ALG], when no hasher was supplied, or an
    [AggregateError] that lists the failure of every retriever in the order
    of the brokers. The failure of a single broker, an [AbortError]
    included, never reaches the caller on its own. *)
Theorem race_error_shape cid bs hasher options w e w' :
  raceBlockRetrievers cid bs hasher options w = (Throws e, w') →
  (hasher = None
   ∧ e = ERR_UNKNOWN_HASH_ALG (mh_code (multihash cid)) ∧ w' = w)
  ∨ (∃ validateFn errs,
       getCidBlockVerifierFunction cid hasher = inr validateFn
       ∧ e = AggregateError errs
       ∧ Forall2 (λ p err, ∃ t, p = Settles t (Rejected err))
           (race_attempts (race cid (retrievers_of bs) validateFn options))
           errs).
Proof.
  destruct hasher as [hasher|].
  - pose proof (verifier_spec cid hasher) as Hv.
    rewrite (raceBlockRetrievers_spec _ _ _ _ _ _ Hv).
    destruct (race_result _) as [t [b|e0]|] eqn:Hr; try done.
    intros [= <- _]. right.
    apply Promise_any_rejects in Hr as (errs & -> & Hall).
    by eexists _, errs.
  - intros [= <- <-]. by left.
Qed.

Lemma race_error_shape_witness :
  let aborting :=
    {| offline := false; signal := Some {| aborted_at := Some 1 |} |} in
  let bs := [retriever 1 (fetch 3 good); retriever 2 (fetch 2 good')] in
  fst (raceBlockRetrievers cid0 bs (Some toy_hasher) aborting w0)
  = Throws (AggregateError [AbortError; AbortError])
  ∧ ∃ validateFn errs,
      getCidBlockVerifierFunction cid0 (Some toy_hasher) = inr validateFn
      ∧ AggregateError [AbortError; AbortError] = AggregateError errs
      ∧ Forall2 (λ p err, ∃ t, p = Settles t (Rejected err))
          (race_attempts (race cid0 (retrievers_of bs) validateFn aborting))
          errs.
Proof.
  intros aborting bs. split; [reflexivity|].
  destruct (race_error_shape cid0 bs (Some toy_hasher) aborting w0
              (AggregateError [AbortError; AbortError])
              (snd (raceBlockRetrievers cid0 bs (Some toy_hasher) aborting w0)))
    as [(Hnone & _)|Hshape].
  - reflexivity.
  - discriminate Hnone.
  - exact Hshape.
Defined.

End RaceExtras.

(** ** What is stored where *)

Section Contents.

Implicit Types (σ : Stores) (s : Blockstore) (cid : CID) (block : Block).

Lemma locations_tiers s tiers :
  locations (TieredBlockstore (s :: tiers))
  = locations s ++ locations (TieredBlockstore tiers).
Proof. done. Qed.

Lemma retains_locations s : retains s = false ↔ locations s = [].
Proof.
  induction s as [|l|tiers IH] using Blockstore_tiers_ind; [done..|].
  induction IH as [|s tiers Hs _ IH]; [done|].
  rewrite locations_tiers. simpl retains. rewrite orb_false_iff, Hs.
  change (existsb retains tiers) with (retains (TieredBlockstore tiers)).
  rewrite IH. split.
  - by intros [-> ->].
  - by intros [? ?]%app_eq_nil.
Qed.

(** The contents of the stores after a [put]. *)
Lemma contents_put s cid block σ l c :
  contents (bs_put s cid block σ) l !! c
  = if bool_decide (l ∈ locations s ∧ c = cid) then Some block
    else contents σ l !! c.
Proof.
  revert σ. induction s as [|l0|tiers IH] using Blockstore_tiers_ind;
    intros σ.
  - done.
  - simpl. unfold contents at 1.
    destruct (decide (l = l0)) as [->|Hne].
    + rewrite lookup_insert_eq. simpl.
      destruct (decide (c = cid)) as [->|Hc].
      * rewrite lookup_insert_eq. rewrite bool_decide_eq_true_2; [done|].
        split; [by left|done].
      * rewrite lookup_insert_ne by done.
        rewrite bool_decide_eq_false_2; [done|]. by intros [_ ?].
    + rewrite lookup_insert_ne by done.
      rewrite bool_decide_eq_false_2; [done|].
      intros [H _]. by apply list_elem_of_singleton in H.
  - revert σ. induction IH as [|s tiers Hs _ IH]; intros σ.
    + done.
    + rewrite bs_put_tiers, IH, Hs, locations_tiers.
      repeat case_bool_decide; try done; exfalso;
        rewrite elem_of_app in *; naive_solver.
Qed.

(** A lookup in a store only reads the entries of its CID in the
    persistent stores among its tiers. *)
Lemma bs_get_ext σ σ' s cid :
  (∀ l, l ∈ locations s → contents σ l !! cid = contents σ' l !! cid) →
  bs_get σ s cid = bs_get σ' s cid.
Proof.
  induction s as [|l|tiers IH] using Blockstore_tiers_ind; intros Hsame.
  - done.
  - simpl. apply Hsame. by left.
  - induction IH as [|s tiers Hs _ IH]; [done|].
    rewrite !bs_get_tiers. rewrite locations_tiers in Hsame.
    rewrite Hs, IH; [done|..]; intros l Hl; apply Hsame;
      rewrite elem_of_app; by eauto.
Qed.

Lemma bs_has_ext σ σ' s cid :
  (∀ l, l ∈ locations s → contents σ l !! cid = contents σ' l !! cid) →
  bs_has σ s cid = bs_has σ' s cid.
Proof. intros H. by rewrite !bs_get_has, (bs_get_ext σ σ'). Qed.

(** A [put] of one CID does not change what the stores answer for
    another. *)
Lemma bs_get_put_other s cid block σ s' cid' :
  cid' ≠ cid → bs_get (bs_put s cid block σ) s' cid' = bs_get σ s' cid'.
Proof.
  intros Hne. apply bs_get_ext. intros l _. rewrite contents_put.
  rewrite bool_decide_eq_false_2; [done|]. by intros [_ ?].
Qed.

Lemma bs_has_put_other s cid block σ s' cid' :
  cid' ≠ cid → bs_has (bs_put s cid block σ) s' cid' = bs_has σ s' cid'.
Proof. intros Hne. by rewrite !bs_get_has, bs_get_put_other. Qed.

(** A store that did not have a CID and whose persistent tiers now hold
    [block] for it answers with [block], if it has a persistent tier. *)
Lemma bs_get_written σ σ' s cid block :
  bs_has σ s cid = false →
  (∀ l, l ∈ locations s → contents σ' l !! cid = Some block) →
  bs_get σ' s cid = if retains s then Some block else None.
Proof.
  induction s as [|l|tiers IH] using Blockstore_tiers_ind;
    intros Hmiss Hheld.
  - simpl in *. by rewrite Hmiss.
  - simpl. apply Hheld. by left.
  - induction IH as [|s tiers Hs _ IH]; [done|].
    rewrite bs_has_tiers, orb_false_iff in Hmiss. destruct Hmiss as [Hm1 Hm2].
    rewrite locations_tiers in Hheld.
    rewrite bs_get_tiers, Hs, IH; [|done|..|done|];
      try (intros l Hl; apply Hheld; rewrite elem_of_app; by eauto).
    simpl retains.
    change (existsb retains tiers) with (retains (TieredBlockstore tiers)).
    by destruct (retains s), (retains (TieredBlockstore tiers)).
Qed.

(** Insert and look up: a store that keeps what is put answers with the
    block that has been put. *)
Lemma bs_get_put s cid block σ :
  bs_has σ s cid = false → retains s = true →
  bs_get (bs_put s cid block σ) s cid = Some block.
Proof.
  intros Hmiss Hretains.
  rewrite (bs_get_written σ _ s cid block Hmiss), Hretains; [done|].
  intros l Hl. rewrite contents_put. by rewrite bool_decide_eq_true_2.
Qed.

End Contents.

(** ** Round trips through the facade *)

Section RoundTrips.

Implicit Types (self : NetworkedStorage) (cid : CID) (w : World).

(** The stores after a [put] and after a [get]. *)
Lemma put_stores self cid block w :
  stores (snd (put self cid block w)) = stores w
  ∨ stores (snd (put self cid block w))
    = bs_put (child self) cid block (stores w).
Proof.
  destruct (bs_has (stores w) (child self) cid) eqn:Hhas.
  - rewrite put_duplicate by done. by left.
  - rewrite put_missing by done. cbv zeta.
    destruct (Promise_all _) as [t [xs|e]|]; cbn; eauto.
Qed.

Lemma get_stores self cid options w :
  stores (snd (get self cid options w)) = stores w
  ∨ ∃ block, stores (snd (get self cid options w))
             = bs_put (child self) cid block (stores w).
Proof.
  destruct (offline options) eqn:Hoff;
    [|destruct (bs_has (stores w) (child self) cid) eqn:Hhas];
    try (rewrite get_local by eauto; by left).
  rewrite get_network by done. cbv zeta.
  destruct (getCidBlockVerifierFunction _ _) as [err|validateFn]; [by left|].
  destruct (race_result _) as [t [block|e]|]; cbn; eauto.
Qed.

(** The outcome of a [get] depends on the stores only through what the
    Local Tier answers for the CID. *)
Lemma get_outcome_ext self cid options w w' :
  bs_get (stores w) (child self) cid = bs_get (stores w') (child self) cid →
  fst (get self cid options w) = fst (get self cid options w').
Proof.
  intros Hget.
  assert (bs_has (stores w) (child self) cid
          = bs_has (stores w') (child self) cid) as Hhas
    by by rewrite !bs_get_has, Hget.
  destruct (offline options) eqn:Hoff;
    [|destruct (bs_has (stores w) (child self) cid) eqn:Hhit].
  - rewrite !get_local by eauto. cbn [fst]. by rewrite Hget.
  - rewrite !get_local by eauto. cbn [fst]. by rewrite Hget.
  - rewrite !get_network by done. cbv zeta.
    destruct (getCidBlockVerifierFunction _ _) as [err|validateFn]; [done|].
    by destruct (race_result _) as [t [block|e]|].
Qed.

(** X6: insert and look up. After a [put] that has written a block to a
    Local Tier that keeps what is put, [has] answers yes and every [get] of
    the CID, offline or not, returns the block from the Local Tier without
    calling a broker. *)
Theorem put_then_get_returns_the_block self cid block options w :
  bs_has (stores w) (child self) cid = false →
  retains (child self) = true →
  forallb is_fulfilled
    (announce_promises (blockBrokers (components self)) cid block) = true →
  let w1 := snd (put self cid block w) in
  fst (put self cid block w) = Returns cid
  ∧ bs_has (stores w1) (child self) cid = true
  ∧ get self cid options w1
    = (Returns block,
       record w1 ((if offline options then [] else [EvHas cid])
                  ++ [EvProgress "blocks:get:blockstore:get" cid; EvGet cid])).
Proof.
  intros Hmiss Hretains Hall w1. unfold w1. rewrite put_writes by done.
  cbn [fst snd]. split; [done|].
  assert (bs_get (bs_put (child self) cid block (stores w)) (child self) cid
          = Some block) as Hget by by apply bs_get_put.
  assert (bs_has (bs_put (child self) cid block (stores w)) (child self) cid
          = true) as Hhas.
  { rewrite bs_get_has, Hget. apply bool_decide_eq_true. by eauto. }
  split; [done|]. rewrite get_local by (right; exact Hhas).
  cbn [stores]. by rewrite Hget.
Qed.

Lemma put_then_get_returns_the_block_witness :
  let self := storage [announcer 1 (resolved tt); retriever 2 (fetch 0 bad)] in
  let w1 := snd (put self cid0 good w0) in
  fst (put self cid0 good w0) = Returns cid0
  ∧ bs_has (stores w1) (child self) cid0 = true
  ∧ get self cid0 online w1
    = (Returns good,
       record w1 [EvHas cid0; EvProgress "blocks:get:blockstore:get" cid0;
                  EvGet cid0]).
Proof.
  intros self.
  apply (put_then_get_returns_the_block self cid0 good online w0);
    reflexivity.
Defined.

(** X7: a block fetched from the network is cached. Once the race of a
    [get] has resolved with a block, every later [get] of the CID returns
    that block from the Local Tier without calling a broker, also when the
    announce of the first [get] has failed. *)
Theorem fetched_block_is_cached self cid options options' validateFn t block w :
  offline options = false →
  bs_has (stores w) (child self) cid = false →
  retains (child self) = true →
  getCidBlockVerifierFunction cid
    (self_hashers self !! mh_code (multihash cid)) = inr validateFn →
  race_result (race cid (retrievers_of (blockBrokers (components self)))
                 validateFn options) = Settles t (Fulfilled block) →
  let w1 := snd (get self cid options w) in
  get self cid options' w1
  = (Returns block,
     record w1 ((if offline options' then [] else [EvHas cid])
                ++ [EvProgress "blocks:get:blockstore:get" cid; EvGet cid])).
Proof.
  intros Hoff Hmiss Hretains Hv Hrace w1.
  assert (stores w1 = bs_put (child self) cid block (stores w)) as Hstores.
  { unfold w1. rewrite get_network by done. cbv zeta. by rewrite Hv, Hrace. }
  assert (bs_get (stores w1) (child self) cid = Some block) as Hget
    by (rewrite Hstores; by apply bs_get_put).
  rewrite get_local.
  - by rewrite Hget.
  - right. rewrite bs_get_has, Hget. apply bool_decide_eq_true. by eauto.
Qed.

Lemma fetched_block_is_cached_witness :
  let self := storage [retriever 1 (fetch 1 good');
                       announcer 2 (Settles 0 (Rejected (BrokerError 9)))] in
  let w1 := snd (get self cid0 online w0) in
  fst (get self cid0 online w0) = Throws (BrokerError 9)
  ∧ get self cid0 offline_only w1
    = (Returns good',
       record w1 [EvProgress "blocks:get:blockstore:get" cid0; EvGet cid0]).
Proof.
  intros self w1. split; [reflexivity|].
  apply (fetched_block_is_cached self cid0 online offline_only validate0 1
           good' w0); reflexivity.
Defined.

Lemma announce_events_cid bs cid block :
  Forall (λ ev, event_cid ev = cid) (announce_events bs cid block).
Proof.
  induction bs as [|b bs IH]; [by constructor|]. unfold announce_events.
  simpl. destruct (announce b); [by constructor|done].
Qed.

Lemma logged_cid cid attempts horizon :
  Forall (λ ev, event_cid ev = cid) (logged cid attempts horizon).
Proof.
  unfold logged. induction (seq 0 (S horizon)) as [|t ts IH];
    [by constructor|].
  cbn [flat_map]. apply Forall_app. split; [|done]. unfold logged_in.
  clear IH. induction attempts as [|[u [b|e]|] ps IH]; cbn [flat_map app].
  - by constructor.
  - done.
  - destruct (u =? t); [by constructor|done].
  - done.
Qed.

Lemma race_events_cid cid bs validateFn options :
  Forall (λ ev, event_cid ev = cid) (race_events cid bs validateFn options).
Proof.
  unfold race_events. cbv zeta. apply Forall_app. split.
  - by induction (retrievers_of bs); constructor.
  - apply logged_cid.
Qed.

Lemma put_events_cid self cid block w :
  Forall (λ ev, event_cid ev = cid) (new_events w (snd (put self cid block w))).
Proof.
  pose proof (announce_events_cid (blockBrokers (components self)) cid block)
    as Hann.
  destruct (bs_has (stores w) (child self) cid) eqn:Hhas.
  - rewrite put_duplicate by done. cbn [snd]. rewrite new_events_record.
    by repeat constructor.
  - rewrite put_missing by done. cbv zeta.
    destruct (Promise_all _) as [t [xs|e]|]; cbn [snd].
    + unfold record. cbn [trace stores]. rewrite <- app_assoc.
      rewrite new_events_app. repeat (constructor; [done|]).
      apply Forall_app. split; [done|]. by repeat constructor.
    + rewrite new_events_record. by repeat (constructor; [done|]).
    + rewrite new_events_record. by repeat (constructor; [done|]).
Qed.

Lemma get_events_cid self cid options w :
  Forall (λ ev, event_cid ev = cid)
         (new_events w (snd (get self cid options w))).
Proof.
  destruct (offline options) eqn:Hoff;
    [|destruct (bs_has (stores w) (child self) cid) eqn:Hhas].
  - rewrite get_local by eauto. cbn [snd]. rewrite new_events_record, Hoff.
    by repeat constructor.
  - rewrite get_local by eauto. cbn [snd]. rewrite new_events_record, Hoff.
    by repeat constructor.
  - rewrite get_network by done. cbv zeta.
    destruct (getCidBlockVerifierFunction _ _) as [err|validateFn];
      [by cbn [snd]; rewrite new_events_record; repeat constructor|].
    pose proof (race_events_cid cid (blockBrokers (components self))
                  validateFn options) as Hrace.
    destruct (race_result _) as [t [block|e]|]; cbn [snd].
    + unfold record. cbn [trace stores]. rewrite <- !app_assoc.
      rewrite new_events_app. repeat (constructor; [done|]).
      apply Forall_app. split; [done|]. repeat (constructor; [done|]).
      apply announce_events_cid.
    + rewrite record_record, new_events_record.
      by repeat (constructor; [done|]).
    + rewrite record_record, new_events_record.
      by repeat (constructor; [done|]).
Qed.

(** X8: a [put] or a [get] of one CID concerns that CID only. Every call
    it makes on the Local Tier or on a broker, and every progress event and
    log entry, carries that CID; it changes the stores by at most one write
    of that CID through the Local Tier; and it does not change what any
    facade over the same stores returns for a CID with another
    multihash. *)
Theorem other_blocks_are_left_alone self cid block options w :
  let after_put := snd (put self cid block w) in
  let after_get := snd (get self cid options w) in
  Forall (λ ev, event_cid ev = cid)
         (new_events w after_put ++ new_events w after_get)
  ∧ (stores after_put = stores w
     ∨ stores after_put = bs_put (child self) cid block (stores w))
  ∧ (stores after_get = stores w
     ∨ ∃ fetched,
         stores after_get = bs_put (child self) cid fetched (stores w))
  ∧ ∀ self' cid' options',
      multihash cid' ≠ multihash cid →
      fst (get self' cid' options' after_put) = fst (get self' cid' options' w)
      ∧ fst (get self' cid' options' after_get)
        = fst (get self' cid' options' w).
Proof.
  intros after_put after_get. split_and!.
  - apply Forall_app. split; [apply put_events_cid|apply get_events_cid].
  - apply put_stores.
  - apply get_stores.
  - intros self' cid' options' Hne.
    assert (cid' ≠ cid) as Hcid by (by intros ->).
    split; apply get_outcome_ext.
    + destruct (put_stores self cid block w) as [Hs|Hs]; unfold after_put;
        rewrite Hs; [done|]. by apply bs_get_put_other.
    + destruct (get_stores self cid options w) as [Hs|[b Hs]];
        unfold after_get; rewrite Hs; [done|]. by apply bs_get_put_other.
Qed.

Lemma other_blocks_are_left_alone_witness :
  let self := storage [retriever 1 (fetch 1 good)] in
  fst (get self cid_unknown offline_only (snd (put self cid0 good w0)))
  = Throws ERR_NOT_FOUND
  ∧ fst (get self cid_unknown offline_only (snd (get self cid0 online w0)))
    = Throws ERR_NOT_FOUND.
Proof.
  intros self.
  destruct (other_blocks_are_left_alone self cid0 good online w0)
    as (_ & _ & _ & Hother).
  destruct (Hother self cid_unknown offline_only) as [-> ->]; [done|].
  split; reflexivity.
Defined.

(** X9: a CID with the identity hash needs neither storage nor network.
    On any facade made by the constructor, whatever the stores hold, [get]
    returns the digest bytes of the CID without calling a broker, and [put]
    takes the block for a duplicate: it announces and writes nothing. *)
Theorem identity_cid_is_always_local comps init cid block options w :
  mh_code (multihash cid) = IDENTITY_CODEC →
  let self := new_NetworkedStorage comps init in
  get self cid options w
  = (Returns (mh_digest (multihash cid)),
     record w ((if offline options then [] else [EvHas cid])
               ++ [EvProgress "blocks:get:blockstore:get" cid; EvGet cid]))
  ∧ put self cid block w
    = (Returns cid,
       record w [EvHas cid; EvProgress "blocks:put:duplicate" cid]).
Proof.
  intros Hid self.
  assert (bs_has (stores w) (child self) cid = true) as Hhas.
  { simpl. by rewrite bool_decide_eq_true_2. }
  split.
  - rewrite get_local by eauto. simpl. by rewrite bool_decide_eq_true_2.
  - by apply put_duplicate.
Qed.

Lemma identity_cid_is_always_local_witness :
  let cid := {| version := 1; codec := 85;
                multihash := {| mh_code := 0; mh_digest := good |} |} in
  let self := storage [retriever 1 (fetch 0 bad); announcer 2 (resolved tt)] in
  get self cid online w0
  = (Returns good,
     record w0 [EvHas cid; EvProgress "blocks:get:blockstore:get" cid;
                EvGet cid])
  ∧ put self cid bad w0
    = (Returns cid,
       record w0 [EvHas cid; EvProgress "blocks:put:duplicate" cid]).
Proof.
  intros cid self.
  apply (identity_cid_is_always_local
           {| blockstore := BackingStore 0;
              blockBrokers := [retriever 1 (fetch 0 bad);
                               announcer 2 (resolved tt)];
              hashers := {[ 18%N := toy_hasher ]} |}
           {| root := None |} cid bad online w0).
  reflexivity.
Defined.

End RoundTrips.

(** ** More about sessions *)

Section SessionExtras.

Implicit Types (self : NetworkedStorage) (root cid : CID) (w : World).

(** X10: [createSession] asks every broker that has [createSession], in
    the order of the broker list and whatever the others answer; it does
    not touch the stores, and it rejects with the failure of one of the
    brokers as soon as one of them rejects. *)
Theorem createSession_asks_every_capable_broker self root w :
  new_events w (snd (createSession self root w))
  = session_events (blockBrokers (components self)) root
  ∧ stores (snd (createSession self root w)) = stores w
  ∧ (existsb is_rejected
       (session_promises (blockBrokers (components self)) root) = true →
     ∃ t e,
       Settles t (Rejected e)
         ∈ session_promises (blockBrokers (components self)) root
       ∧ fst (createSession self root w) = Throws e).
Proof.
  unfold createSession, mbind, M_bind, mret, M_ret.
  rewrite session_calls_spec. split_and!.
  - unfold await. destruct (Promise_all _) as [t [bs'|e]|]; cbn [snd];
      by rewrite new_events_record.
  - unfold await. by destruct (Promise_all _) as [t [bs'|e]|].
  - intros Hrej. destruct (Promise_all_rejected _ Hrej) as (t & e & -> & Hin).
    by exists t, e.
Qed.

Lemma createSession_asks_every_capable_broker_witness :
  let self :=
    storage [session_capable 1 (Settles 2 (Rejected (BrokerError 4)));
             inert 2;
             session_capable 3 (Settles 1 (Fulfilled (inert 13)))] in
  new_events w0 (snd (createSession self cid0 w0))
  = [EvCreateSession 1 cid0; EvCreateSession 3 cid0]
  ∧ ∃ t e,
      Settles t (Rejected e)
        ∈ session_promises (blockBrokers (components self)) cid0
      ∧ fst (createSession self cid0 w0) = Throws e.
Proof.
  intros self.
  destruct (createSession_asks_every_capable_broker self cid0 w0)
    as (Hevents & _ & Hrejects).
  split; [exact Hevents|]. apply Hrejects. reflexivity.
Defined.

Lemma session_promises_plain bs root :
  Forall (λ broker, Brokers.createSession broker = None) bs →
  Promise_all (session_promises bs root) = Settles 0 (Fulfilled bs)
  ∧ session_events bs root = [].
Proof.
  unfold Promise_all.
  induction 1 as [|b bs Hb _ [IH1 IH2]]; [done|].
  unfold session_promises, session_events in *. cbn [map flat_map].
  rewrite Hb, IH2. cbn [first_rejected all_fulfilled resolved].
  destruct (first_rejected _) as [[? ?]|]; [done|].
  destruct (all_fulfilled _) as [[t xs]|]; [|done].
  by injection IH1 as -> ->.
Qed.

(** Two facades with the same brokers and hashers whose Local Tiers answer
    and write alike behave alike. *)
Lemma facade_ext self self' :
  blockBrokers (components self) = blockBrokers (components self') →
  self_hashers self = self_hashers self' →
  (∀ σ cid, bs_has σ (child self) cid = bs_has σ (child self') cid) →
  (∀ σ cid, bs_get σ (child self) cid = bs_get σ (child self') cid) →
  (∀ σ cid block,
     bs_put (child self) cid block σ = bs_put (child self') cid block σ) →
  ∀ cid w,
    (∀ options, get self cid options w = get self' cid options w)
    ∧ (∀ block, put self cid block w = put self' cid block w).
Proof.
  intros Hbs Hhashers Hhas Hget Hput cid w. split.
  - intros options.
    destruct (offline options) eqn:Hoff;
      [|destruct (bs_has (stores w) (child self) cid) eqn:Hhit].
    + rewrite !get_local by eauto. by rewrite Hget.
    + rewrite !get_local by (right; by rewrite <- ?Hhas). by rewrite Hget.
    + rewrite !get_network by (by rewrite <- ?Hhas). cbv zeta.
      rewrite <- Hbs, <- Hhashers.
      destruct (getCidBlockVerifierFunction _ _) as [err|validateFn]; [done|].
      destruct (race_result _) as [t [block|e]|]; [|done..].
      by rewrite Hput.
  - intros block. destruct (bs_has (stores w) (child self) cid) eqn:Hhit.
    + by rewrite !put_duplicate by (by rewrite <- ?Hhas).
    + rewrite !put_missing by (by rewrite <- ?Hhas). cbv zeta.
      by rewrite <- Hbs, <- Hput.
Qed.

(** X11: a session of a facade none of whose brokers has [createSession]
    is the facade under another name: creating it calls no broker and
    leaves no event, it has the same brokers, and its [get] and [put] do
    exactly what those of the facade do, in every world. *)
Theorem session_without_capable_brokers_is_transparent comps init root w :
  Forall (λ broker, Brokers.createSession broker = None) (blockBrokers comps) →
  let self := new_NetworkedStorage comps init in
  ∃ session,
    createSession self root w = (Returns session, w)
    ∧ blockBrokers (components session) = blockBrokers comps
    ∧ ∀ cid w',
        (∀ options, get session cid options w' = get self cid options w')
        ∧ (∀ block, put session cid block w' = put self cid block w').
Proof.
  intros Hplain self.
  destruct (session_promises_plain _ root Hplain) as [Hall Hevents].
  unfold createSession, mbind, M_bind. rewrite session_calls_spec.
  cbn [blockBrokers components self new_NetworkedStorage].
  rewrite Hall, Hevents, record_nil. cbn [await].
  eexists. split; [reflexivity|]. split; [done|].
  apply facade_ext; try done.
  - intros σ cid. simpl.
    by destruct (bool_decide _), (bs_has σ (blockstore comps) cid).
  - intros σ cid. simpl.
    by destruct (bool_decide _), (bs_get σ (blockstore comps) cid).
Qed.

Lemma session_without_capable_brokers_is_transparent_witness :
  let comps :=
    {| blockstore := BackingStore 0;
       blockBrokers := [retriever 1 (fetch 1 good); announcer 2 (resolved tt)];
       hashers := {[ 18%N := toy_hasher ]} |} in
  let self := new_NetworkedStorage comps {| root := None |} in
  ∃ session,
    createSession self cid0 w0 = (Returns session, w0)
    ∧ blockBrokers (components session) = blockBrokers comps
    ∧ ∀ cid w',
        (∀ options, get session cid options w' = get self cid options w')
        ∧ (∀ block, put session cid block w' = put self cid block w').
Proof.
  intros comps self.
  apply (session_without_capable_brokers_is_transparent comps
           {| root := None |} cid0 w0).
  repeat (apply Forall_cons; split; [reflexivity|]). apply Forall_nil_2.
Defined.

End SessionExtras.

(** ** The batch methods *)

Ltac flatten_batch := repeat (rewrite <- app_assoc; cbn [app]).

Section Iterables.

Import Batch.

Lemma b_record_record bw evs evs' :
  b_record (b_record bw evs) evs' = b_record bw (evs ++ evs').
Proof. unfold b_record. simpl. by rewrite app_assoc. Qed.

Lemma drain_next {A} (it : AsyncIterable A) bw :
  drain it bw
  = match next it bw with
    | (Returns (Some (x, rest)), bw1) =>
        let '((xs, o), bw2) := drain rest bw1 in ((x :: xs, o), bw2)
    | (Returns None, bw1) => (([], Returns tt), bw1)
    | (Throws e, bw1) => (([], Throws e), bw1)
    | (Hangs, bw1) => (([], Hangs), bw1)
    end.
Proof. by destruct it. Qed.

Lemma drain_generator {A} (m : B unit) (it : AsyncIterable A) bw :
  drain (generator m it) bw
  = match m bw with
    | (Returns _, bw1) => drain it bw1
    | (Throws e, bw1) => (([], Throws e), bw1)
    | (Hangs, bw1) => (([], Hangs), bw1)
    end.
Proof.
  rewrite drain_next. unfold generator. cbn [next].
  destruct (m bw) as [[[]|e|] bw1]; [|done..]. by rewrite <- drain_next.
Qed.

(** A step of the single-block methods inside a batch. *)
Lemma lift_spec {A} (m : M A) (r : Outcome A) σ' evs bw :
  (∀ w, m w = (r, {| stores := σ' (stores w); trace := trace w ++ evs |})) →
  lift m bw
  = (r, {| b_stores := σ' (b_stores bw);
           b_trace := b_trace bw ++ map Ev evs |}).
Proof. intros Hm. unfold lift. by rewrite Hm. Qed.

Lemma lift_child_has child cid bw :
  lift (child_has child cid) bw
  = (Returns (bs_has (b_stores bw) child cid), b_record bw [Ev (EvHas cid)]).
Proof. done. Qed.

Lemma lift_onProgress name cid bw :
  lift (onProgress name cid) bw
  = (Returns tt, b_record bw [Ev (EvProgress name cid)]).
Proof. done. Qed.

Lemma lift_notify bs cid block bw :
  lift (notify bs cid block) bw
  = (ignore (outcome_of (Promise_all (announce_promises bs cid block))),
     b_record bw (map Ev (announce_events bs cid block))).
Proof. unfold lift. by rewrite notify_spec. Qed.

Lemma lift_child_put child cid block bw :
  lift (child_put child cid block) bw
  = (Returns cid,
     {| b_stores := bs_put child cid block (b_stores bw);
        b_trace := b_trace bw ++ [Ev (EvPut cid block)] |}).
Proof. done. Qed.

Lemma lift_child_get child cid bw :
  lift (child_get child cid) bw
  = (match bs_get (b_stores bw) child cid with
     | Some block => Returns block
     | None => Throws ERR_NOT_FOUND
     end, b_record bw [Ev (EvGet cid)]).
Proof. done. Qed.

Lemma lift_raceBlockRetrievers cid bs hasher validateFn options bw :
  getCidBlockVerifierFunction cid hasher = inr validateFn →
  lift (raceBlockRetrievers cid bs hasher options) bw
  = (outcome_of (race_result (race cid (retrievers_of bs) validateFn options)),
     b_record bw (map Ev (race_events cid bs validateFn options))).
Proof.
  intros Hv. unfold lift.
  by rewrite (raceBlockRetrievers_spec _ _ _ validateFn) by done.
Qed.

Lemma next_each {A C} (fn : A → B C) (source : AsyncIterable A) bw :
  next (each fn source) bw
  = match next source bw with
    | (Returns (Some (x, rest)), bw1) =>
        match fn x bw1 with
        | (Returns y, bw2) => (Returns (Some (y, each fn rest)), bw2)
        | (Throws e, bw2) => (Throws e, bw2)
        | (Hangs, bw2) => (Hangs, bw2)
        end
    | (Returns None, bw1) => (Returns None, bw1)
    | (Throws e, bw1) => (Throws e, bw1)
    | (Hangs, bw1) => (Hangs, bw1)
    end.
Proof. by destruct source. Qed.

Lemma next_filter {A} (fn : A → B bool) (source : AsyncIterable A) bw :
  next (filter source fn) bw
  = match next source bw with
    | (Returns (Some (x, rest)), bw1) =>
        match fn x bw1 with
        | (Returns true, bw2) => (Returns (Some (x, filter rest fn)), bw2)
        | (Returns false, bw2) => next (filter rest fn) bw2
        | (Throws e, bw2) => (Throws e, bw2)
        | (Hangs, bw2) => (Hangs, bw2)
        end
    | (Returns None, bw1) => (Returns None, bw1)
    | (Throws e, bw1) => (Throws e, bw1)
    | (Hangs, bw1) => (Hangs, bw1)
    end.
Proof. by destruct source. Qed.

Lemma next_of_list {A} (xs : list A) bw :
  next (of_list xs) bw
  = (Returns match xs with
             | [] => None
             | x :: rest => Some (x, of_list rest)
             end, bw).
Proof. by destruct xs. Qed.

Lemma putMany_unfold self blocks :
  putMany self blocks
  = generator (b_emit [EvBatchProgress "blocks:put-many:blockstore:put-many"])
      (child_putMany (child self)
         (forEach (filter blocks (putMany_has self)) (putMany_notify self))).
Proof. done. Qed.

Lemma putMany_has_spec self cid block bw :
  putMany_has self (cid, block) bw
  = if bs_has (b_stores bw) (child self) cid
    then (Returns false,
          b_record bw [Ev (EvHas cid);
                       Ev (EvProgress "blocks:put-many:duplicate" cid)])
    else (Returns true, b_record bw [Ev (EvHas cid)]).
Proof.
  unfold putMany_has, mbind, B_bind. rewrite lift_child_has.
  destruct (bs_has _ _ _); [|done].
  by rewrite lift_onProgress, b_record_record.
Qed.

Lemma putMany_notify_spec self cid block bw :
  putMany_notify self (cid, block) bw
  = (ignore (outcome_of (Promise_all
       (announce_promises (blockBrokers (components self)) cid block))),
     b_record bw
       (Ev (EvProgress "blocks:put-many:providers:notify" cid)
        :: map Ev (announce_events (blockBrokers (components self)) cid block))).
Proof.
  unfold putMany_notify, mbind, B_bind.
  by rewrite lift_onProgress, lift_notify, b_record_record.
Qed.

Lemma next_putMany_pipeline self blocks bw :
  next (putMany_pipeline self blocks) bw
  = match blocks with
    | [] => (Returns None, bw)
    | item :: rest =>
        match putMany_step self item bw with
        | (Returns (Some c), bw1) =>
            (Returns (Some (c, putMany_pipeline self rest)), bw1)
        | (Returns None, bw1) => next (putMany_pipeline self rest) bw1
        | (Throws e, bw1) => (Throws e, bw1)
        | (Hangs, bw1) => (Hangs, bw1)
        end
    end.
Proof.
  destruct blocks as [|[cid block] rest]; [done|].
  unfold putMany_pipeline at 1, child_putMany, forEach.
  rewrite next_each, next_each, next_filter, next_of_list.
  rewrite putMany_has_spec. unfold putMany_step.
  destruct (bs_has (b_stores bw) (child self) cid).
  - unfold putMany_pipeline, child_putMany, forEach.
    by rewrite next_each, next_each.
  - unfold mbind, B_bind. rewrite putMany_notify_spec, b_record_record.
    cbn [app]. destruct (Promise_all _) as [t [xs|e]|];
      cbn [outcome_of ignore]; [|done..].
    unfold mret, B_ret. by rewrite lift_child_put.
Qed.

Lemma drain_putMany_pipeline self blocks bw :
  drain (putMany_pipeline self blocks) bw
  = produce (putMany_step self) blocks bw.
Proof.
  revert bw. induction blocks as [|item blocks IH]; intros bw.
  - done.
  - rewrite drain_next, next_putMany_pipeline. cbn [produce].
    destruct (putMany_step self item bw) as [[[c|]|e|] bw1]; try done.
    + by rewrite IH.
    + by rewrite <- drain_next.
Qed.

(** Draining [putMany] over a list: one step per pair. *)
Lemma drain_putMany self blocks bw :
  drain (putMany self (of_list blocks)) bw
  = produce (putMany_step self) blocks
      (b_record bw [EvBatchProgress "blocks:put-many:blockstore:put-many"]).
Proof.
  rewrite putMany_unfold, drain_generator. unfold b_emit.
  apply drain_putMany_pipeline.
Qed.

Lemma b_record_nil bw : b_record bw [] = bw.
Proof. destruct bw. unfold b_record. simpl. by rewrite app_nil_r. Qed.

Lemma lift_raceBlockRetrievers_no_hasher cid bs options bw :
  lift (raceBlockRetrievers cid bs None options) bw
  = (Throws (ERR_UNKNOWN_HASH_ALG (mh_code (multihash cid))), bw).
Proof.
  unfold lift. rewrite raceBlockRetrievers_no_hasher. cbn [stores trace map].
  f_equal. apply b_record_nil.
Qed.

Lemma getMany_unfold self cids options :
  getMany self (of_list cids) options
  = generator (b_emit [EvBatchProgress "blocks:get-many:blockstore:get-many"])
      (getMany_pipeline self cids options).
Proof. done. Qed.

Lemma getMany_fetch_spec self options cid bw :
  getMany_fetch self options cid bw
  = let bs := blockBrokers (components self) in
    if offline options then (Returns tt, bw)
    else if bs_has (b_stores bw) (child self) cid
    then (Returns tt, b_record bw [Ev (EvHas cid)])
    else
      let bw1 :=
        b_record bw
          [Ev (EvHas cid);
           Ev (EvProgress "blocks:get-many:providers:get" cid)] in
      match getCidBlockVerifierFunction cid
              (self_hashers self !! mh_code (multihash cid)) with
      | inl err => (Throws err, bw1)
      | inr validateFn =>
          let bw2 :=
            b_record bw1 (map Ev (race_events cid bs validateFn options)) in
          match race_result (race cid (retrievers_of bs) validateFn options)
          with
          | Settles _ (Fulfilled block) =>
              (ignore (outcome_of
                         (Promise_all (announce_promises bs cid block))),
               {| b_stores := bs_put (child self) cid block (b_stores bw);
                  b_trace :=
                    b_trace bw2
                    ++ [Ev (EvProgress "blocks:get-many:blockstore:put" cid);
                        Ev (EvPut cid block);
                        Ev (EvProgress "blocks:get-many:providers:notify" cid)]
                    ++ map Ev (announce_events bs cid block) |})
          | Settles _ (Rejected e) => (Throws e, bw2)
          | Forever => (Hangs, bw2)
          end
      end.
Proof.
  unfold getMany_fetch, mbind, B_bind, mret, B_ret. cbv zeta.
  destruct (offline options); [done|].
  rewrite lift_child_has.
  destruct (bs_has (b_stores bw) (child self) cid) eqn:Hhas; cbn [negb];
    [done|].
  rewrite lift_onProgress, b_record_record. cbn [app].
  destruct (getCidBlockVerifierFunction _ _) as [err|validateFn] eqn:Hv.
  { destruct (self_hashers self !! _); [done|].
    rewrite lift_raceBlockRetrievers_no_hasher. simpl in Hv.
    by injection Hv as <-. }
  rewrite (lift_raceBlockRetrievers _ _ _ validateFn) by done.
  destruct (race_result _) as [t [block|e]|]; cbn [outcome_of]; [|done..].
  rewrite lift_onProgress, lift_child_put, lift_onProgress, lift_notify.
  unfold b_record. cbn [b_stores b_trace].
  do 2 f_equal. by flatten_batch.
Qed.

Lemma next_getMany_pipeline self cids options bw :
  next (getMany_pipeline self cids options) bw
  = match cids with
    | [] => (Returns None, bw)
    | cid :: rest =>
        match getMany_step self options cid bw with
        | (Returns (Some y), bw1) =>
            (Returns (Some (y, getMany_pipeline self rest options)), bw1)
        | (Returns None, bw1) =>
            next (getMany_pipeline self rest options) bw1
        | (Throws e, bw1) => (Throws e, bw1)
        | (Hangs, bw1) => (Hangs, bw1)
        end
    end.
Proof.
  destruct cids as [|cid rest]; [done|].
  unfold getMany_pipeline at 1, child_getMany, forEach.
  rewrite next_each, next_each, next_of_list.
  assert ((getMany_fetch self options cid ≫= λ _, mret cid) bw
          = match getMany_fetch self options cid bw with
            | (Returns _, bw') => (Returns cid, bw')
            | (Throws e, bw') => (Throws e, bw')
            | (Hangs, bw') => (Hangs, bw')
            end) as -> by done.
  rewrite getMany_fetch_spec.
  unfold getMany_step, getMany_pipeline, child_getMany, forEach.
  cbv zeta. destruct (offline options) eqn:Hoff.
  { unfold mret, B_ret, mbind, B_bind. rewrite lift_child_get.
    by destruct (bs_get (b_stores bw) (child self) cid). }
  destruct (bs_has (b_stores bw) (child self) cid) eqn:Hhas.
  { unfold mret, B_ret, mbind, B_bind. rewrite lift_child_get.
    cbn [b_stores b_record]. rewrite b_record_record.
    by destruct (bs_get (b_stores bw) (child self) cid). }
  destruct (getCidBlockVerifierFunction _ _) as [err|validateFn]; [done|].
  destruct (race_result _) as [t [block|e]|]; [|done..].
  destruct (Promise_all _) as [t' [xs|e]|]; cbn [outcome_of ignore];
    [|done..].
  unfold mret, B_ret, mbind, B_bind. rewrite lift_child_get.
  unfold b_record. cbn [b_stores b_trace].
  destruct (bs_get _ _ _); do 2 f_equal; by flatten_batch.
Qed.

Lemma drain_getMany self cids options bw :
  drain (getMany self (of_list cids) options) bw
  = produce (getMany_step self options) cids
      (b_record bw [EvBatchProgress "blocks:get-many:blockstore:get-many"]).
Proof.
  rewrite getMany_unfold, drain_generator. unfold b_emit.
  generalize (b_record bw
                [EvBatchProgress "blocks:get-many:blockstore:get-many"]).
  clear bw. induction cids as [|cid cids IH]; intros bw.
  - done.
  - rewrite drain_next, next_getMany_pipeline. cbn [produce].
    destruct (getMany_step self options cid bw) as [[[y|]|e|] bw1]; try done.
    + by rewrite IH.
    + by rewrite <- drain_next.
Qed.

Lemma produce_app {A C} (step : A → B (option C)) xs xs' bw :
  produce step (xs ++ xs') bw
  = match produce step xs bw with
    | ((ys, Returns _), bw1) =>
        let '((ys', o), bw2) := produce step xs' bw1 in ((ys ++ ys', o), bw2)
    | other => other
    end.
Proof.
  revert bw. induction xs as [|x xs IH]; intros bw.
  - simpl. by destruct (produce step xs' bw) as [[ys' o] bw2].
  - simpl. destruct (step x bw) as [[[y|]|e|] bw1]; try done.
    rewrite IH. destruct (produce step xs bw1) as [[ys [[]|e|]] bw2]; try done.
    by destruct (produce step xs' bw2) as [[ys' o] bw3].
Qed.

End Iterables.

Section PutMany.

Import Batch.

Implicit Types (self : NetworkedStorage) (σ : Stores).

Lemma single_events_app evs evs' :
  single_events (evs ++ evs') = single_events evs ++ single_events evs'.
Proof. unfold single_events. by rewrite flat_map_app. Qed.

Lemma single_events_cons ev evs :
  single_events (Ev ev :: evs) = ev :: single_events evs.
Proof. done. Qed.

Lemma single_events_Ev evs : single_events (map Ev evs) = evs.
Proof. induction evs as [|ev evs IH]; [done|]. simpl. by rewrite IH. Qed.

Lemma announce_events_not_progress bs cid block :
  List.filter not_progress (announce_events bs cid block)
  = announce_events bs cid block.
Proof.
  apply filter_everything. eapply forallb_weaken;
    [|apply announce_events_all]. by intros [].
Qed.

Lemma announce_events_written bs cid block :
  written (announce_events bs cid block) = [].
Proof.
  pose proof (announce_events_all bs cid block) as H.
  induction (announce_events bs cid block) as [|ev evs IH]; [done|].
  simpl in H. apply andb_true_iff in H as [Hev H].
  destruct ev; try done. by apply IH.
Qed.

Lemma written_app evs evs' : written (evs ++ evs') = written evs ++ written evs'.
Proof. unfold written. by rewrite flat_map_app. Qed.

Lemma putMany_step_duplicate self cid block bw :
  bs_has (b_stores bw) (child self) cid = true →
  putMany_step self (cid, block) bw
  = (Returns None,
     b_record bw [Ev (EvHas cid);
                  Ev (EvProgress "blocks:put-many:duplicate" cid)]).
Proof. intros Hhas. unfold putMany_step. by rewrite Hhas. Qed.

Lemma putMany_step_missing self cid block bw :
  bs_has (b_stores bw) (child self) cid = false →
  putMany_step self (cid, block) bw
  = let bs := blockBrokers (components self) in
    let bw1 :=
      b_record bw
        ([Ev (EvHas cid);
          Ev (EvProgress "blocks:put-many:providers:notify" cid)]
         ++ map Ev (announce_events bs cid block)) in
    match Promise_all (announce_promises bs cid block) with
    | Settles _ (Fulfilled _) =>
        (Returns (Some cid),
         {| b_stores := bs_put (child self) cid block (b_stores bw);
            b_trace := b_trace bw1 ++ [Ev (EvPut cid block)] |})
    | Settles _ (Rejected e) => (Throws e, bw1)
    | Forever => (Hangs, bw1)
    end.
Proof. intros Hhas. unfold putMany_step. by rewrite Hhas. Qed.

(** [putMany] against a caller that calls [put] for each pair: the same
    stores, the same ending, the same calls of the Local Tier and of the
    brokers. *)
Lemma produce_put_each self blocks :
  ∀ bw w,
    b_stores bw = stores w →
    ∃ ys o bw' r w' evs evs',
      produce (putMany_step self) blocks bw = ((ys, o), bw')
      ∧ put_each self blocks w = (r, w')
      ∧ b_stores bw' = stores w'
      ∧ o = ignore r
      ∧ b_trace bw' = b_trace bw ++ evs
      ∧ trace w' = trace w ++ evs'
      ∧ List.filter not_progress (single_events evs)
        = List.filter not_progress evs'
      ∧ ys = written evs'.
Proof.
  induction blocks as [|[cid block] blocks IH]; intros bw w Hstores.
  - exists [], (Returns tt), bw, (Returns []), w, [], [].
    by rewrite !app_nil_r.
  - cbn [produce put_each]. unfold mbind, M_bind.
    destruct (bs_has (stores w) (child self) cid) eqn:Hhas.
    + rewrite putMany_step_duplicate by (by rewrite Hstores).
      rewrite put_duplicate by done.
      edestruct (IH (b_record bw [Ev (EvHas cid);
                       Ev (EvProgress "blocks:put-many:duplicate" cid)])
                    (record w [EvHas cid; EvProgress "blocks:put:duplicate" cid]))
        as (ys & o & bw' & r & w' & evs & evs' & -> & -> & Hs & -> & Ht & Ht'
            & Hsame & ->); [done|].
      eexists _, _, bw',
          (match r with
           | Returns cs => Returns (cid :: cs)
           | Throws e => Throws e
           | Hangs => Hangs
           end), w',
          (_ :: _ :: evs), (_ :: _ :: evs').
      split_and!; try done.
      * unfold mret, M_ret. by destruct r.
      * by destruct r.
      * rewrite Ht. cbn. by rewrite <- app_assoc.
      * rewrite Ht'. cbn. by rewrite <- app_assoc.
      * rewrite !single_events_cons. cbn [List.filter not_progress is_progress negb].
        by rewrite Hsame.
      * reflexivity.
    + rewrite putMany_step_missing by (by rewrite Hstores).
      rewrite put_missing by done. cbv zeta. rewrite Hstores.
      set (bs := blockBrokers (components self)).
      destruct (Promise_all (announce_promises bs cid block))
        as [t [xs|e]|].
      * edestruct (IH
          {| b_stores := bs_put (child self) cid block (stores w);
             b_trace :=
               b_trace (b_record bw
                 ([Ev (EvHas cid);
                   Ev (EvProgress "blocks:put-many:providers:notify" cid)]
                  ++ map Ev (announce_events bs cid block)))
               ++ [Ev (EvPut cid block)] |}
          {| stores := bs_put (child self) cid block (stores w);
             trace :=
               trace (record w
                 ([EvHas cid; EvProgress "blocks:put:providers:notify" cid]
                  ++ announce_events bs cid block))
               ++ [EvProgress "blocks:put:blockstore:put" cid;
                   EvPut cid block] |})
          as (ys & o & bw' & r & w' & evs & evs' & -> & -> & Hs & -> & Ht
              & Ht' & Hsame & ->); [done|].
        eexists _, _, bw',
          (match r with
           | Returns cs => Returns (cid :: cs)
           | Throws e => Throws e
           | Hangs => Hangs
           end), w',
          ([Ev (EvHas cid);
            Ev (EvProgress "blocks:put-many:providers:notify" cid)]
           ++ map Ev (announce_events bs cid block)
           ++ [Ev (EvPut cid block)] ++ evs),
          ([EvHas cid; EvProgress "blocks:put:providers:notify" cid]
           ++ announce_events bs cid block
           ++ [EvProgress "blocks:put:blockstore:put" cid; EvPut cid block]
           ++ evs').
        split_and!; try done.
        -- unfold mret, M_ret. by destruct r.
        -- by destruct r.
        -- rewrite Ht. cbn. by flatten_batch.
        -- rewrite Ht'. cbn. by flatten_batch.
        -- cbn [app]. rewrite !single_events_cons, single_events_app.
           rewrite single_events_Ev, single_events_cons.
           cbn [List.filter not_progress is_progress negb].
           rewrite !List.filter_app.
           cbn [List.filter not_progress is_progress negb].
           by rewrite Hsame.
        -- rewrite (written_app [_; _]), written_app, (written_app [_; _]).
           by rewrite announce_events_written.
      * eexists [], _, _, _, _, _, _. split_and!; try done.
        -- cbn [app]. by rewrite !single_events_cons, single_events_Ev.
        -- by rewrite (written_app [_; _]), announce_events_written.
      * eexists [], _, _, _, _, _, _. split_and!; try done.
        -- cbn [app]. by rewrite !single_events_cons, single_events_Ev.
        -- by rewrite (written_app [_; _]), announce_events_written.
Qed.

Lemma missing_put_other σ child cid block blocks :
  cid ∉ map fst blocks →
  missing (bs_put child cid block σ) child blocks = missing σ child blocks.
Proof.
  intros Hnotin. unfold missing. apply List.filter_ext_in.
  intros [c b] Hin. rewrite bs_has_put_other; [done|].
  intros ->. apply Hnotin, list_elem_of_In, in_map_iff. by exists (cid, b).
Qed.

Lemma missing_cons σ child cid block blocks :
  missing σ child ((cid, block) :: blocks)
  = if bs_has σ child cid then missing σ child blocks
    else (cid, block) :: missing σ child blocks.
Proof. unfold missing. simpl. by destruct (bs_has σ child cid). Qed.

Lemma produce_missing self blocks :
  ∀ bw,
    NoDup (map fst blocks) →
    Forall (λ '(cid, block),
              forallb is_fulfilled
                (announce_promises (blockBrokers (components self)) cid block)
              = true)
           (missing (b_stores bw) (child self) blocks) →
    ∃ bw',
      produce (putMany_step self) blocks bw
      = ((map fst (missing (b_stores bw) (child self) blocks), Returns tt), bw')
      ∧ b_stores bw'
        = foldl (λ σ '(cid, block), bs_put (child self) cid block σ)
                (b_stores bw) (missing (b_stores bw) (child self) blocks).
Proof.
  induction blocks as [|[cid block] blocks IH]; intros bw Hnodup Hall.
  - by exists bw.
  - cbn [map fst] in Hnodup. apply NoDup_cons in Hnodup as [Hnotin Hnodup].
    cbn [produce]. rewrite missing_cons in *.
    destruct (bs_has (b_stores bw) (child self) cid) eqn:Hhas.
    + rewrite putMany_step_duplicate by done.
      by apply (IH (b_record bw _)).
    + rewrite putMany_step_missing by done. cbv zeta.
      apply Forall_cons in Hall as [Hhead Hall].
      rewrite <- Promise_all_fulfilled in Hhead.
      destruct (Promise_all _) as [t [xs|e]|]; try done.
      rewrite <- (missing_put_other _ _ cid block) in * by done.
      match goal with
      | |- context [produce _ _ ?bw1] =>
          destruct (IH bw1 Hnodup Hall) as (bw' & -> & Hs)
      end.
      exists bw'. split; [done|]. by rewrite Hs.
Qed.

(** X12: for a batch of distinct CIDs, draining [putMany] does to the
    stores what calling [put] for each pair in turn does, ends the same
    way, and makes the same calls of the Local Tier and of the brokers in
    the same order; only the progress events differ. Unlike [put], which
    returns the CID of a duplicate, [putMany] yields only the CIDs it has
    written. (How soon a block written by a batch shows in [has] is left to
    the Local Tier, hence distinct CIDs.) *)
Theorem putMany_does_what_put_does self blocks σ :
  NoDup (map fst blocks) →
  let batch := drain (putMany self (of_list blocks)) (batch_world σ) in
  let single := put_each self blocks (single_world σ) in
  b_stores batch.2 = stores single.2
  ∧ batch.1.2 = ignore single.1
  ∧ List.filter not_progress (single_events (b_trace batch.2))
    = List.filter not_progress (trace single.2)
  ∧ batch.1.1 = written (trace single.2).
Proof.
  intros _ batch single. unfold batch, single. rewrite drain_putMany.
  destruct (produce_put_each self blocks
              (b_record (batch_world σ)
                 [EvBatchProgress "blocks:put-many:blockstore:put-many"])
              (single_world σ) eq_refl)
    as (ys & o & bw' & r & w' & evs & evs' & -> & -> & Hs & -> & Ht & Ht'
        & Hsame & ->).
  cbn [fst snd]. rewrite Ht, Ht'. by split_and!.
Qed.

Lemma putMany_does_what_put_does_witness :
  let self := storage [announcer 1 (resolved tt)] in
  let σ := bs_put (child self) cid_unknown bad ∅ in
  let batch :=
    drain (putMany self (of_list [(cid_unknown, good); (cid0, good)]))
          (batch_world σ) in
  batch.1 = ([cid0], Returns tt)
  ∧ b_trace batch.2
    = [EvBatchProgress "blocks:put-many:blockstore:put-many";
       Ev (EvHas cid_unknown);
       Ev (EvProgress "blocks:put-many:duplicate" cid_unknown);
       Ev (EvHas cid0);
       Ev (EvProgress "blocks:put-many:providers:notify" cid0);
       Ev (EvAnnounce 1 cid0 good);
       Ev (EvPut cid0 good)]
  ∧ b_stores batch.2
    = stores (put_each self [(cid_unknown, good); (cid0, good)]
                (single_world σ)).2.
Proof.
  intros self σ batch. split; [reflexivity|]. split; [reflexivity|].
  apply (putMany_does_what_put_does self
           [(cid_unknown, good); (cid0, good)] σ).
  apply NoDup_cons. split; [|apply NoDup_singleton].
  intros Hin. apply list_elem_of_singleton in Hin. discriminate Hin.
Defined.

Lemma NoDup_map_inv {A C} (f : A → C) (l : list A) :
  NoDup (map f l) → NoDup l.
Proof.
  induction l as [|x l IH]; [constructor|]. cbn [map].
  rewrite !NoDup_cons. intros [Hnotin Hnodup]. split; [|by apply IH].
  intros Hin. apply Hnotin, list_elem_of_In, in_map.
  by apply list_elem_of_In.
Qed.

(** X13: drained over a batch of pairs with pairwise different
    multihashes, none of which the Local Tier holds under another CID, and
    with brokers whose [announce] succeeds, [putMany] yields, in the order
    of the batch, the CIDs of the pairs the Local Tier did not hold when
    the batch started, and writes exactly those pairs; the pairs it already
    held are passed over. *)
Theorem putMany_writes_the_missing_blocks self blocks σ :
  NoDup (map multihash (map fst blocks)) →
  Forall (λ pair, unambiguous σ (child self) pair.1) blocks →
  Forall (λ '(cid, block),
            forallb is_fulfilled
              (announce_promises (blockBrokers (components self)) cid block)
            = true)
         (missing σ (child self) blocks) →
  let batch := drain (putMany self (of_list blocks)) (batch_world σ) in
  batch.1 = (map fst (missing σ (child self) blocks), Returns tt)
  ∧ b_stores batch.2
    = foldl (λ σ '(cid, block), bs_put (child self) cid block σ) σ
            (missing σ (child self) blocks).
Proof.
  intros Hnodup%NoDup_map_inv _ Hall batch. unfold batch.
  rewrite drain_putMany.
  destruct (produce_missing self blocks
              (b_record (batch_world σ)
                 [EvBatchProgress "blocks:put-many:blockstore:put-many"])
              Hnodup Hall) as (bw' & -> & Hs).
  by split.
Qed.

Lemma putMany_writes_the_missing_blocks_witness :
  let self := storage [announcer 1 (resolved tt)] in
  let σ := bs_put (child self) cid_unknown bad ∅ in
  let batch :=
    drain (putMany self (of_list [(cid_unknown, good); (cid0, good)]))
          (batch_world σ) in
  batch.1 = ([cid0], Returns tt)
  ∧ b_stores batch.2 = bs_put (child self) cid0 good σ.
Proof.
  intros self σ batch.
  assert (∀ l c, is_Some (contents σ l !! c) → c = cid_unknown) as Hσ.
  { intros l c [b Hb]. unfold σ in Hb. rewrite contents_put in Hb.
    case_bool_decide as Hc; [by destruct Hc|].
    unfold contents in Hb. by rewrite lookup_empty in Hb. }
  apply (putMany_writes_the_missing_blocks self
           [(cid_unknown, good); (cid0, good)] σ).
  - apply NoDup_cons. split; [|apply NoDup_singleton].
    intros Hin. apply list_elem_of_singleton in Hin. discriminate Hin.
  - apply Forall_cons. split; [intros l c _ Hc _; by apply (Hσ l)|].
    apply Forall_cons. split; [|apply Forall_nil_2].
    intros l c _ Hc Hmh. apply Hσ in Hc as ->. discriminate Hmh.
  - apply Forall_cons. split; [reflexivity|apply Forall_nil_2].
Defined.

(** X14: a failure stops the batch where it happens. When the announce of
    a pair fails, [putMany] rejects with that failure; the CIDs yielded for
    the pairs before it stay yielded and their blocks stay written, the
    pair itself is not written, and the pairs after it are never looked
    at. *)
Theorem putMany_stops_at_the_first_failure self pre cid block post σ ys bw1 :
  NoDup (map fst (pre ++ (cid, block) :: post)) →
  drain (putMany self (of_list pre)) (batch_world σ) = ((ys, Returns tt), bw1) →
  bs_has (b_stores bw1) (child self) cid = false →
  existsb is_rejected
    (announce_promises (blockBrokers (components self)) cid block) = true →
  ∃ t e,
    Settles t (Rejected e)
      ∈ announce_promises (blockBrokers (components self)) cid block
    ∧ drain (putMany self (of_list (pre ++ (cid, block) :: post)))
            (batch_world σ)
      = ((ys, Throws e),
         b_record bw1
           ([Ev (EvHas cid);
             Ev (EvProgress "blocks:put-many:providers:notify" cid)]
            ++ map Ev (announce_events (blockBrokers (components self))
                         cid block))).
Proof.
  intros _ Hpre Hmiss Hrej. rewrite drain_putMany in *.
  rewrite produce_app, Hpre. cbn [produce].
  rewrite putMany_step_missing by done. cbv zeta.
  destruct (Promise_all_rejected _ Hrej) as (t & e & -> & Hin).
  exists t, e. split; [done|]. by rewrite app_nil_r.
Qed.

Lemma putMany_stops_at_the_first_failure_witness :
  let failing :=
    {| broker_id := 1; retrieve := None;
       announce := Some (λ cid _,
         if bool_decide (cid = cid_unknown)
         then Settles 0 (Rejected (BrokerError 8)) else resolved tt);
       Brokers.createSession := None |} in
  let self := storage [failing] in
  let cid1 := {| version := 1; codec := 85;
                 multihash := {| mh_code := 18; mh_digest := bad |} |} in
  let batch :=
    drain (putMany self (of_list [(cid0, good); (cid_unknown, good);
                                  (cid1, bad)]))
          (batch_world ∅) in
  ∃ t e,
    Settles t (Rejected e)
      ∈ announce_promises (blockBrokers (components self)) cid_unknown good
    ∧ batch.1 = ([cid0], Throws e)
    ∧ b_stores batch.2 = bs_put (child self) cid0 good ∅.
Proof.
  intros failing self cid1 batch.
  destruct (putMany_stops_at_the_first_failure self [(cid0, good)]
              cid_unknown good [(cid1, bad)] ∅ [cid0]
              (drain (putMany self (of_list [(cid0, good)])) (batch_world ∅)).2)
    as (t & e & Hin & Hrun).
  - vm_compute. repeat constructor; set_solver.
  - reflexivity.
  - reflexivity.
  - reflexivity.
  - exists t, e. split; [exact Hin|]. unfold batch.
    change ([(cid0, good); (cid_unknown, good); (cid1, bad)])
      with ([(cid0, good)] ++ (cid_unknown, good) :: [(cid1, bad)]).
    rewrite Hrun. split; reflexivity.
Defined.

End PutMany.

Section GetMany.

Import Batch.

Implicit Types (self : NetworkedStorage) (σ : Stores).





Lemma getMany_step_offline self options cid bw :
  offline options = true →
  getMany_step self options cid bw
  = (match bs_get (b_stores bw) (child self) cid with
     | Some block => Returns (Some (cid, block))
     | None => Throws ERR_NOT_FOUND
     end, b_record bw [Ev (EvGet cid)]).
Proof. intros Hoff. unfold getMany_step. by rewrite Hoff. Qed.

Lemma produce_getMany_offline self options cids :
  offline options = true →
  ∀ bw,
    let found := stored_prefix (b_stores bw) (child self) cids in
    produce (getMany_step self options) cids bw
    = ((found,
        if bool_decide (length found = length cids) then Returns tt
        else Throws ERR_NOT_FOUND),
       b_record bw (map (λ cid, Ev (EvGet cid))
                        (take (S (length found)) cids))).
Proof.
  intros Hoff. induction cids as [|cid cids IH]; intros bw; cbv zeta.
  - cbn. by rewrite b_record_nil.
  - cbn [produce stored_prefix]. rewrite getMany_step_offline by done.
    destruct (bs_get (b_stores bw) (child self) cid) as [block|] eqn:Hget.
    + rewrite IH. cbv zeta. cbn [b_record b_stores length].
      rewrite b_record_record.
      rewrite (bool_decide_ext (S _ = S _) (length
                 (stored_prefix (b_stores bw) (child self) cids)
               = length cids)) by lia.
      done.
    + done.
Qed.

(** X16: with [offline: true], [getMany] only reads the Local Tier: it
    calls no broker, does not even ask [has], and leaves the stores as they
    are. It reads the CIDs in order and yields each with its stored block
    up to the first CID the Local Tier does not hold; there it stops and
    rejects with [ERR_NOT_FOUND], the CIDs after it are not read. When the
    Local Tier holds every CID it yields one pair per CID and ends
    normally. *)
Theorem getMany_offline_only_reads self cids options σ :
  offline options = true →
  let batch := drain (getMany self (of_list cids) options) (batch_world σ) in
  let found := stored_prefix σ (child self) cids in
  batch.1.1 = found
  ∧ batch.1.2 = (if bool_decide (length found = length cids) then Returns tt
                 else Throws ERR_NOT_FOUND)
  ∧ b_stores batch.2 = σ
  ∧ b_trace batch.2
    = EvBatchProgress "blocks:get-many:blockstore:get-many"
      :: map (λ cid, Ev (EvGet cid)) (take (S (length found)) cids).
Proof.
  intros Hoff batch found. unfold batch. rewrite drain_getMany.
  by rewrite (produce_getMany_offline self options cids Hoff).
Qed.

Lemma getMany_offline_only_reads_witness :
  let self := storage [retriever 1 (fetch 0 good)] in
  let σ := bs_put (child self) cid_unknown bad ∅ in
  let batch :=
    drain (getMany self (of_list [cid_unknown; cid0; cid_unknown])
             offline_only)
          (batch_world σ) in
  batch.1 = ([(cid_unknown, bad)], Throws ERR_NOT_FOUND)
  ∧ b_stores batch.2 = σ
  ∧ b_trace batch.2
    = [EvBatchProgress "blocks:get-many:blockstore:get-many";
       Ev (EvGet cid_unknown); Ev (EvGet cid0)].
Proof.
  intros self σ batch. split; [reflexivity|].
  destruct (getMany_offline_only_reads self [cid_unknown; cid0; cid_unknown]
              offline_only σ eq_refl) as (_ & _ & Hs & Ht).
  split; [exact Hs|]. unfold batch. rewrite Ht. reflexivity.
Defined.

End GetMany.

Section Delete.

Import Batch.

Implicit Types (self : NetworkedStorage) (σ : Stores) (s : Blockstore).

Lemma bs_delete_tiers s tiers cid σ :
  bs_delete (TieredBlockstore (s :: tiers)) cid σ
  = bs_delete (TieredBlockstore tiers) cid (bs_delete s cid σ).
Proof. done. Qed.

(** The contents of the stores after a [delete]. *)
Lemma contents_delete s cid σ l c :
  contents (bs_delete s cid σ) l !! c
  = if bool_decide (l ∈ locations s ∧ c = cid) then None
    else contents σ l !! c.
Proof.
  revert σ. induction s as [|l0|tiers IH] using Blockstore_tiers_ind;
    intros σ.
  - done.
  - simpl. unfold contents at 1.
    destruct (decide (l = l0)) as [->|Hne].
    + rewrite lookup_insert_eq. simpl.
      destruct (decide (c = cid)) as [->|Hc].
      * rewrite lookup_delete_eq. rewrite bool_decide_eq_true_2; [done|].
        split; [by left|done].
      * rewrite lookup_delete_ne by done.
        rewrite bool_decide_eq_false_2; [done|]. by intros [_ ?].
    + rewrite lookup_insert_ne by done.
      rewrite bool_decide_eq_false_2; [done|].
      intros [H _]. by apply list_elem_of_singleton in H.
  - revert σ. induction IH as [|s tiers Hs _ IH]; intros σ.
    + done.
    + rewrite bs_delete_tiers, IH, Hs, locations_tiers.
      repeat case_bool_decide; try done; exfalso;
        rewrite elem_of_app in *; naive_solver.
Qed.

(** A store whose persistent tiers hold nothing for a CID that does not
    carry its own bytes has no block for it. *)
Lemma bs_get_nowhere σ s cid :
  mh_code (multihash cid) ≠ IDENTITY_CODEC →
  (∀ l, l ∈ locations s → contents σ l !! cid = None) →
  bs_get σ s cid = None.
Proof.
  intros Hid. induction s as [|l|tiers IH] using Blockstore_tiers_ind;
    intros Hnone.
  - simpl. by rewrite bool_decide_eq_false_2.
  - simpl. apply Hnone. by left.
  - induction IH as [|s tiers Hs _ IH]; [done|].
    rewrite locations_tiers in Hnone.
    rewrite bs_get_tiers, Hs, IH; [done|..]; intros l Hl; apply Hnone;
      rewrite elem_of_app; by eauto.
Qed.

Lemma delete_spec self cid options bw :
  delete self cid options bw
  = (if cancelled options then Throws AbortError else Returns tt,
     {| b_stores := if cancelled options then b_stores bw
                    else bs_delete (child self) cid (b_stores bw);
        b_trace := b_trace bw
          ++ [Ev (EvProgress "blocks:delete:blockstore:delete" cid);
              EvDelete cid] |}).
Proof.
  unfold delete, mbind, B_bind. rewrite lift_onProgress.
  unfold child_delete, b_record. cbn [b_stores b_trace].
  destruct (cancelled options); by rewrite <- app_assoc.
Qed.

(** X17: [delete] is local: it emits its progress event and calls [delete]
    of the Local Tier with the options of the caller, and calls no broker.
    When the signal of the caller has fired, it fails with the abort error
    of the Local Tier and the stores are as they were. Otherwise it
    returns, and the Local Tier no longer has the block of a CID that does
    not carry its own bytes, whatever it held before: an offline [get] of
    that CID fails with [ERR_NOT_FOUND] and an online [get] asks the
    providers again. What any facade over the same stores returns for a
    CID with another multihash is unchanged. *)
Theorem delete_removes_the_block self cid options bw :
  let result := delete self cid options bw in
  let σ' := b_stores result.2 in
  b_trace result.2
  = b_trace bw ++ [Ev (EvProgress "blocks:delete:blockstore:delete" cid);
                   EvDelete cid]
  ∧ (cancelled options = true →
     result.1 = Throws AbortError ∧ σ' = b_stores bw)
  ∧ (cancelled options = false →
     result.1 = Returns tt
     ∧ (mh_code (multihash cid) ≠ IDENTITY_CODEC →
        bs_has σ' (child self) cid = false
        ∧ ∀ options',
            if offline options' then
              (get self cid options' (single_world σ')).1
              = Throws ERR_NOT_FOUND
            else
              take 2 (trace (get self cid options' (single_world σ')).2)
              = [EvHas cid; EvProgress "blocks:get:providers:get" cid])
     ∧ ∀ self' cid' options',
         multihash cid' ≠ multihash cid →
         (get self' cid' options' (single_world σ')).1
         = (get self' cid' options' (single_world (b_stores bw))).1).
Proof.
  intros result σ'. unfold σ', result. rewrite delete_spec.
  cbn [fst snd b_stores b_trace].
  split_and!; [done|by intros ->|intros ->].
  split_and!; [done|..].
  - intros Hid.
    assert (bs_get (bs_delete (child self) cid (b_stores bw)) (child self) cid
            = None) as Hget.
    { apply bs_get_nowhere; [done|]. intros l Hl. rewrite contents_delete.
      by rewrite bool_decide_eq_true_2. }
    assert (bs_has (bs_delete (child self) cid (b_stores bw)) (child self) cid
            = false) as Hhas.
    { rewrite bs_get_has, Hget. apply bool_decide_eq_false. by intros [? ?]. }
    split; [done|]. intros options'. destruct (offline options') eqn:Hoff.
    + rewrite get_local by eauto. cbn [fst stores single_world].
      by rewrite Hget.
    + rewrite get_network by done. cbv zeta.
      destruct (getCidBlockVerifierFunction _ _) as [err|validateFn]; [done|].
      by destruct (race_result _) as [t [block|e]|].
  - intros self' cid' options' Hne. apply get_outcome_ext.
    cbn [stores single_world]. apply bs_get_ext. intros l _.
    rewrite contents_delete. rewrite bool_decide_eq_false_2; [done|].
    intros [_ ->]. done.
Qed.

Lemma delete_removes_the_block_witness :
  let self := storage [retriever 1 (fetch 0 good)] in
  let σ := bs_put (child self) cid0 good ∅ in
  let aborted := {| offline := false;
                    signal := Some {| aborted_at := Some 0 |} |} in
  let after := (delete self cid0 online (batch_world σ)).2 in
  (get self cid0 offline_only (single_world σ)).1 = Returns good
  ∧ bs_has (b_stores after) (child self) cid0 = false
  ∧ (get self cid0 offline_only (single_world (b_stores after))).1
    = Throws ERR_NOT_FOUND
  ∧ take 2 (trace (get self cid0 online (single_world (b_stores after))).2)
    = [EvHas cid0; EvProgress "blocks:get:providers:get" cid0]
  ∧ (delete self cid0 aborted (batch_world σ)).1 = Throws AbortError
  ∧ b_stores (delete self cid0 aborted (batch_world σ)).2 = σ.
Proof.
  intros self σ aborted after. split; [reflexivity|].
  destruct (delete_removes_the_block self cid0 online (batch_world σ))
    as (_ & _ & Hdeleted).
  destruct (Hdeleted eq_refl) as (_ & Hgone & _).
  destruct Hgone as [Hhas Hget]; [discriminate|].
  destruct (delete_removes_the_block self cid0 aborted (batch_world σ))
    as (_ & Hcancelled & _).
  destruct (Hcancelled eq_refl) as [Hfails Hsame].
  split_and!; [exact Hhas|exact (Hget offline_only)|exact (Hget online)
              |exact Hfails|exact Hsame].
Defined.

Lemma ending_of_list {A} (xs : list A) : ending xs (Returns tt) = of_list xs.
Proof. induction xs as [|x xs IH]; [done|]. cbn. by rewrite IH. Qed.

Lemma next_ending {A} (xs : list A) o bw :
  next (ending xs o) bw
  = match xs with
    | [] =>
        (match o with
         | Returns _ => Returns None
         | Throws e => Throws e
         | Hangs => Hangs
         end, bw)
    | x :: rest => (Returns (Some (x, ending rest o)), bw)
    end.
Proof. by destruct xs. Qed.

Lemma next_deleteMany_pipeline child options cids o bw :
  next (child_deleteMany child (each (λ cid, mret cid) (ending cids o))
          options) bw
  = match cids with
    | [] =>
        (match o with
         | Returns _ => Returns None
         | Throws e => Throws e
         | Hangs => Hangs
         end, bw)
    | cid :: rest =>
        if cancelled options then
          (Throws AbortError, b_record bw [EvDelete cid])
        else
          (Returns
             (Some (cid,
                    child_deleteMany child
                      (each (λ cid, mret cid) (ending rest o)) options)),
           {| b_stores := bs_delete child cid (b_stores bw);
              b_trace := b_trace bw ++ [EvDelete cid] |})
    end.
Proof.
  unfold child_deleteMany. rewrite next_each, next_each, next_ending.
  destruct cids as [|cid rest]; [by destruct o as [[]|e|]|].
  assert (child_delete child cid options bw
          = if cancelled options
            then (Throws AbortError, b_record bw [EvDelete cid])
            else (Returns tt,
                  {| b_stores := bs_delete child cid (b_stores bw);
                     b_trace := b_trace bw ++ [EvDelete cid] |})) as Hdelete
    by done.
  cbv beta iota zeta delta [mbind B_bind mret B_ret]. rewrite Hdelete.
  by destruct (cancelled options).
Qed.

Lemma drain_deleteMany_pipeline child options cids o :
  cancelled options = false →
  ∀ bw,
    drain (child_deleteMany child (each (λ cid, mret cid) (ending cids o))
             options) bw
    = ((cids, o),
       {| b_stores := foldl (λ σ cid, bs_delete child cid σ) (b_stores bw) cids;
          b_trace := b_trace bw ++ map EvDelete cids |}).
Proof.
  intros Hlive. induction cids as [|cid cids IH]; intros bw.
  - rewrite drain_next, next_deleteMany_pipeline. cbn.
    rewrite app_nil_r. destruct bw. by destruct o as [[]|e|].
  - rewrite drain_next, next_deleteMany_pipeline, Hlive, IH. cbn.
    by rewrite <- app_assoc.
Qed.

Lemma contents_delete_each s cids :
  ∀ σ l c,
    contents (foldl (λ σ cid, bs_delete s cid σ) σ cids) l !! c
    = if bool_decide (l ∈ locations s ∧ c ∈ cids) then None
      else contents σ l !! c.
Proof.
  induction cids as [|cid cids IH]; intros σ l c.
  - simpl. rewrite bool_decide_eq_false_2; [done|].
    intros [_ H]. by apply elem_of_nil in H.
  - cbn [foldl]. rewrite IH, contents_delete.
    repeat case_bool_decide; try done; exfalso;
      rewrite elem_of_cons in *; naive_solver.
Qed.

(** X18: [deleteMany] streams: drained over a source that gives the CIDs
    of a list and then ends (normally, by throwing, or never), with a
    signal that has not fired, it calls [delete] of the Local Tier once for
    each CID as it comes and no broker, yields every CID in order, whether
    or not a block was stored for it, and ends as the source does; the
    stores are left as deleting the CIDs one by one leaves them, so that
    the Local Tier has none of the listed CIDs that do not carry their own
    bytes. With a signal that has fired, the first [delete] fails: nothing
    is yielded or deleted and [deleteMany] rejects with the abort error of
    the Local Tier. *)
Theorem deleteMany_deletes_each self cids o options σ :
  let batch :=
    drain (deleteMany self (ending cids o) options) (batch_world σ) in
  (cancelled options = false →
   batch.1 = (cids, o)
   ∧ b_stores batch.2 = foldl (λ σ cid, bs_delete (child self) cid σ) σ cids
   ∧ b_trace batch.2
     = EvBatchProgress "blocks:delete-many:blockstore:delete-many"
       :: map EvDelete cids
   ∧ ∀ cid,
       cid ∈ cids → mh_code (multihash cid) ≠ IDENTITY_CODEC →
       bs_has (b_stores batch.2) (child self) cid = false)
  ∧ (cancelled options = true →
     batch.1 = ([], match cids with [] => o | _ :: _ => Throws AbortError end)
     ∧ b_stores batch.2 = σ
     ∧ b_trace batch.2
       = EvBatchProgress "blocks:delete-many:blockstore:delete-many"
         :: map EvDelete (take 1 cids)).
Proof.
  intros batch. unfold batch, deleteMany. rewrite drain_generator.
  unfold b_emit. split.
  - intros Hlive. rewrite drain_deleteMany_pipeline by done.
    cbn [fst snd b_stores b_trace b_record batch_world app].
    split_and!; try done.
    intros cid Hin Hid. rewrite bs_get_has.
    rewrite bs_get_nowhere; [|done|].
    + apply bool_decide_eq_false. by intros [? ?].
    + intros l Hl. rewrite contents_delete_each.
      by rewrite bool_decide_eq_true_2.
  - intros Hfired. rewrite drain_next, next_deleteMany_pipeline, Hfired.
    destruct cids as [|cid rest]; [by destruct o as [[]|e|]|done].
Qed.

Lemma deleteMany_deletes_each_witness :
  let self := storage [retriever 1 (fetch 0 good)] in
  let σ := bs_put (child self) cid0 good ∅ in
  let aborted := {| offline := false;
                    signal := Some {| aborted_at := Some 0 |} |} in
  let failing := ending [cid_unknown; cid0] (Throws (BrokerError 3)) in
  bs_has σ (child self) cid0 = true
  ∧ (let batch := drain (deleteMany self failing online) (batch_world σ) in
     batch.1 = ([cid_unknown; cid0], Throws (BrokerError 3))
     ∧ bs_has (b_stores batch.2) (child self) cid0 = false)
  ∧ (let batch := drain (deleteMany self failing aborted) (batch_world σ) in
     batch.1 = ([], Throws AbortError) ∧ b_stores batch.2 = σ).
Proof.
  intros self σ aborted failing. split; [reflexivity|].
  destruct (deleteMany_deletes_each self [cid_unknown; cid0]
              (Throws (BrokerError 3)) online σ) as (Hlive & _).
  destruct (Hlive eq_refl) as (Hys & _ & _ & Hgone).
  destruct (deleteMany_deletes_each self [cid_unknown; cid0]
              (Throws (BrokerError 3)) aborted σ) as (_ & Hfired).
  destruct (Hfired eq_refl) as (Hnone & Hsame & _).
  split; split; [exact Hys| |exact Hnone|exact Hsame].
  apply Hgone; [|discriminate]. right. left.
Defined.

End Delete.

(** ** The DNS resolver *)

Section DnsFacts.

Import Dns.

Lemma resolve_spec resolveFn domain has_signal dw :
  let run := resolve resolveFn domain has_signal dw in
  let asked := [EvDnsProgress "dnslink:query" domain; EvResolveFn domain] in
  match resolveFn domain with
  | Settles _ (Fulfilled record) =>
      run.1 = Returns record
      ∧ listeners run.2 = listeners dw
      ∧ dns_trace run.2
        = dns_trace dw ++ asked ++ [EvDnsProgress "dnslink:answer" record]
  | Settles _ (Rejected e) =>
      run.1 = Throws e
      ∧ listeners run.2 = listeners dw
      ∧ dns_trace run.2 = dns_trace dw ++ asked
  | Forever =>
      run.1 = Hangs
      ∧ listeners run.2
        = (if has_signal then S (listeners dw) else listeners dw)
      ∧ dns_trace run.2 = dns_trace dw ++ asked
  end.
Proof.
  intros run asked. unfold run, resolve. cbv zeta.
  destruct (resolveFn domain) as [t [record|e]|]; cbn;
    (split; [done|]); (split; [by destruct has_signal|]);
    by rewrite <- ?app_assoc.
Qed.

Lemma answers_app evs evs' : answers (evs ++ evs') = answers evs ++ answers evs'.
Proof. unfold answers. by rewrite flat_map_app. Qed.

(** X19: [resolve] leaves no listener behind. Over any number of lookups
    that settle, each by a fulfilment or by a rejection, the abort signal
    ends with the listeners it had at the start: the [finally] block
    removes the listener on both paths. The answers announced by
    ["dnslink:answer"] events are the records of the lookups that
    fulfilled, in order; a lookup that rejects announces only its query. *)
Theorem resolve_leaves_no_listener resolveFn domains has_signal dw :
  Forall (λ domain, never_settles (resolveFn domain) = false) domains →
  let after := resolve_each resolveFn domains has_signal dw in
  listeners after = listeners dw
  ∧ answers (dns_trace after)
    = answers (dns_trace dw) ++ records resolveFn domains.
Proof.
  intros Hall. revert dw.
  induction Hall as [|domain domains Hd _ IH]; intros dw; cbn [resolve_each].
  - split; [done|]. unfold records. cbn. by rewrite app_nil_r.
  - pose proof (resolve_spec resolveFn domain has_signal dw) as Hrun.
    cbv zeta in *.
    specialize (IH (resolve resolveFn domain has_signal dw).2).
    destruct IH as [IHl IHa]. rewrite IHl, IHa.
    unfold records. cbn [flat_map].
    destruct (resolveFn domain) as [t [record|e]|]; [| |done];
      destruct Hrun as (_ & -> & ->); (split; [done|]);
      rewrite !answers_app; cbn; by rewrite <- ?app_assoc, ?app_nil_r.
Qed.

Lemma resolve_leaves_no_listener_witness :
  let resolveFn := λ domain : string,
    if bool_decide (domain = "ipfs.tech"%string)
    then Settles 2 (Fulfilled "/ipfs/bafy"%string)
    else Settles 1 (Rejected (BrokerError 0)) in
  let dw := {| listeners := 3; dns_trace := [] |} in
  let after :=
    resolve_each resolveFn ["nowhere.example"; "ipfs.tech"]%string true dw in
  listeners after = 3
  ∧ answers (dns_trace after) = ["/ipfs/bafy"%string].
Proof.
  intros resolveFn dw after.
  apply (resolve_leaves_no_listener resolveFn
           ["nowhere.example"; "ipfs.tech"]%string true dw).
  repeat (apply Forall_cons; split; [reflexivity|]). apply Forall_nil_2.
Defined.

End DnsFacts.
